(** * Depth-aware motion deblurring: the hierarchical PSF engine

    A shallow embedding of [src/depth_deblur.cpp] (class [DepthDeblur]) and the
    properties of its joint PSF estimator, candidate selection, tree walks and
    reconstruction pass.

    The file has four parts: the embedding of the class, function by
    function; the vocabulary in which the properties are stated; a small
    instance on which the embedding runs; the lemmas and the theorems.

    Conventions of the embedding.
    - A [cv::Mat] is the list of its rows; the empty list is the empty matrix
      ([data == NULL]).  A matrix is the value that its header holds when it
      is read.  A k-channel image is the matrix of its interleaved samples,
      on which the element-wise OpenCV operations act.
    - [float] and [double] samples are exact rationals ([Q]); equalities
      between computed samples are stated with [==].
    - [uchar] samples (masks, loaded kernel images) are [N].
    - C++ [int] values are [Z]; [/] and [%] are [Z.quot] and [Z.rem].
    - A call that throws returns [None], or [Throw] with the message of a
      [runtime_error].
    - OpenCV and the other translation units of the repository (solvers,
      filters, region tree geometry) are the fields of the classes
      [External] and [Disparity].
    - The worker threads are an interleaving of atomic steps; the critical
      sections of the source are single steps. *)

From Stdlib Require Import QArith Lqa ZArith NArith String.
From stdpp Require Import base option list gmap strings pretty.

Local Open Scope Q_scope.

(** ** Matrices *)

Module Mat.

Section Generic.
Context {A : Type}.

Definition rows (m : list (list A)) : nat := length m.

Definition cols (m : list (list A)) : nat :=
    match m with
    | [] => 0%nat
    | r :: _ => length r
    end.

(** [m.at<T>(y, x)], with [d] read outside the matrix. *)
Definition at_ (d : A) (m : list (list A)) (y x : nat) : A :=
    default d (r ← m !! y; r !! x).

(** All rows have the length of the first one. *)
Definition rect (m : list (list A)) : Prop :=
    Forall (fun r => length r = cols m) m.

Definition build (h w : nat) (f : nat -> nat -> A) : list (list A) :=
    map (fun y => map (f y) (seq 0 w)) (seq 0 h).

(** [Mat(m, Rect(x, y, w, h))]: the constructor asserts that the rectangle
    lies inside [m], and releases the header when it has no pixel. *)
Definition roi (m : list (list A)) (x y w h : Z) : option (list (list A)) :=
    if bool_decide (0 <= x /\ 0 <= w /\ x + w <= Z.of_nat (cols m) /\
                    0 <= y /\ 0 <= h /\ y + h <= Z.of_nat (rows m))%Z
    then Some (if bool_decide (w = 0 \/ h = 0)%Z then []
               else map (fun r => take (Z.to_nat w) (drop (Z.to_nat x) r))
                        (take (Z.to_nat h) (drop (Z.to_nat y) m)))
    else None.

(** [hconcat(a, b, dst)] asserts equal row counts. *)
Definition hconcat (a b : list (list A)) : option (list (list A)) :=
    if bool_decide (rows a = rows b) then Some (zip_with app a b) else None.

(** [vconcat(a, b, dst)] asserts equal column counts. *)
Definition vconcat (a b : list (list A)) : option (list (list A)) :=
    if bool_decide (cols a = cols b) then Some (a ++ b) else None.

(** Every sample satisfies [P]. *)
Definition all (P : A -> Prop) (m : list (list A)) : Prop :=
    Forall (Forall P) m.
End Generic.

(** [src.copyTo(dst, mask)] into a fresh [dst]: the new matrix is zeroed and
    receives the samples of [src] where the mask is not zero. *)
Definition copyToMasked (src : list (list Q)) (mask : list (list N)) : list (list Q) :=
  zip_with (zip_with (fun s k => if decide (k = 0%N) then 0 else s)) src mask.

Definition zeros (h w : nat) : list (list Q) := build h w (fun _ _ => 0).

(** [m.at<float>(y, x) = v] *)
Definition set_at (m : list (list Q)) (y x : nat) (v : Q) : list (list Q) :=
  match m !! y with
  | Some r => <[y := <[x := v]> r]> m
  | None => m
  end.

Definition Qsum (l : list Q) : Q := foldr Qplus 0 l.

(** [cv::sum(m)[0]] *)
Definition sum (m : list (list Q)) : Q := Qsum (map Qsum m).

Definition Nsum (m : list (list N)) : N := foldr N.add 0%N (map (foldr N.add 0%N) m).

(** [m *= c] *)
Definition mulc (m : list (list Q)) (c : Q) : list (list Q) := map (map (fun v => v * c)) m.

(** [m /= s] *)
Definition div (m : list (list Q)) (s : Q) : list (list Q) := map (map (fun v => v / s)) m.

(** [threshold(m, m, t, -1, THRESH_TOZERO)]: [v > t ? v : 0]. *)
Definition threshold_tozero (t : Q) (m : list (list Q)) : list (list Q) :=
  map (map (fun v => if Qlt_le_dec t v then v else 0)) m.

(** [threshold(m, m, t, -1, THRESH_TRUNC)]: [v > t ? t : v]. *)
Definition threshold_trunc (t : Q) (m : list (list Q)) : list (list Q) :=
  map (map (fun v => if Qlt_le_dec t v then t else v)) m.

End Mat.

Abbreviation Mat A := (list (list A)).

(** ** Complex numbers, as [std::complex<float>] *)

Record complex : Type := mkC { re : Q; im : Q }.

Module Cplx.

Definition add (a b : complex) : complex := mkC (re a + re b) (im a + im b).
Definition mul (a b : complex) : complex :=
  mkC (re a * re b - im a * im b) (re a * im b + im a * re b).
Definition conj (a : complex) : complex := mkC (re a) (- im a).
Definition div (a b : complex) : complex :=
  let d := re b * re b + im b * im b in
  mkC ((re a * re b + im a * im b) / d) ((im a * re b - re a * im b) / d).
Definition zero : complex := mkC 0 0.
Definition eq (a b : complex) : Prop := re a == re b /\ im a == im b.
Definition sum (l : list complex) : complex := foldr add zero l.

End Cplx.

(** ** The class [DepthDeblur] *)

Inductive view : Type := LEFT | RIGHT.
Inductive deconvAlgo : Type := FFT | IRLS.

#[global] Instance deconvAlgo_eq_dec : EqDecision deconvAlgo.
Proof. solve_decision. Defined.

(** The disparity algorithms of [disparity_estimation.hpp]; an enumeration
    object can also hold a value that names none of them. *)
Inductive disparityAlgo : Type := SGBM | MATCH | OtherAlgo (code : Z).

(** [a[v]] on a [std::array<T, 2>] *)
Definition sel {A : Type} (a : A * A) (v : view) : A :=
  match v with
  | LEFT => fst a
  | RIGHT => snd a
  end.

(** What the translation unit calls but does not define. *)
Class External : Type := {
  (** [dft(src, dst)] of [utils.hpp]: forward transform, stored as a
      2-channel matrix [Re, Im]. *)
  dft : Mat Q -> Mat complex;
  (** [cv::dft(src, dst, DFT_INVERSE | DFT_REAL_OUTPUT)] *)
  idft : Mat complex -> Mat Q;
  (** [deconvolveFFT(src, dst, kernel)] *)
  deconvolveFFT : Mat Q -> Mat Q -> Mat Q;
  (** [deconvolveIRLS(src, dst, kernel, mask)] *)
  deconvolveIRLS : Mat Q -> Mat Q -> Mat N -> Mat Q;
  (** [computeSalientEdgeMap(image, edges, psfWidth, mask)]: x and y maps *)
  computeSalientEdgeMap : Mat Q -> Z -> Mat N -> Mat Q * Mat Q;
  (** [GaussianBlur(src, dst, Size(5, 5), 0, 0, BORDER_DEFAULT)] *)
  GaussianBlur : Mat Q -> Mat Q;
  (** [coherenceFilter(src, dst)] *)
  coherenceFilter : Mat Q -> Mat Q;
  (** [Sobel(src, dst, CV_32F, dx, dy, 3, 1, 0, BORDER_DEFAULT)] *)
  Sobel : Mat Q -> Z -> Z -> Mat Q;
  (** [normedGradients(gradients, dst)] *)
  normedGradients : Mat Q * Mat Q -> Mat Q;
  (** the maximum reported by [minMaxLoc] *)
  maxLoc : Mat Q -> Q;
  (** [crossCorrelation(X, Y, mask)] *)
  crossCorrelation : Mat Q -> Mat Q -> Mat N -> Q;
  (** [log] of [<cmath>] *)
  ln : Q -> Q;
  (** [m.convertTo(m, CV_8U, alpha)] on one sample: scale, round, saturate *)
  convertTo8U : Q -> Q -> Q;
  (** [regionTree.getMask(id, mask, view)] *)
  getMask : Z -> view -> Mat N;
  (** [regionTree.getMasks(id, masks)] *)
  getMasks : Z -> Mat N * Mat N;
  (** [regionTree.getLevelPeers(id)] *)
  getLevelPeers : Z -> list Z;
  (** [imread(name, CV_LOAD_IMAGE_GRAYSCALE)]; [None] is a matrix without data *)
  imread : string -> option (Mat N)
}.

(** The data members that stay fixed while kernels are estimated. *)
Record Members : Type := {
  psfWidth : Z;
  layers : Z;
  images : Mat Q * Mat Q;
  floatImages : Mat Q * Mat Q;
  gradsLeft : Mat Q * Mat Q;
  gradsRight : Mat Q * Mat Q;
  deconvAlgoPSFSelection : deconvAlgo
}.

(** The member initialisers of the constructor: an odd PSF width and an even
    number of layers. *)
Definition init_psfWidth (width : Z) : Z :=
  if bool_decide (Z.rem width 2 = 0)%Z then (width - 1)%Z else width.

Definition init_layers (_layers : Z) : Z :=
  if bool_decide (Z.rem _layers 2 = 0)%Z then _layers else (_layers - 1)%Z.

(** *** [jointPSFEstimation] *)

Section JointPSF.
Context `{External}.
Variable self : Members.

(** The value of one spectral bin (the body of the double loop). *)
Definition kernelBin (xsr ysr xsm ysm xbr ybr xbm ybm d : complex) : complex :=
  let weight := mkC 1 0 in
  Cplx.div
    (Cplx.add (Cplx.add (Cplx.mul (Cplx.conj xsr) xbr) (Cplx.mul (Cplx.conj xsm) xbm))
              (Cplx.add (Cplx.mul (Cplx.conj ysr) ybr) (Cplx.mul (Cplx.conj ysm) ybm)))
    (Cplx.add
       (Cplx.add (Cplx.add (Cplx.mul (Cplx.conj xsr) xsr) (Cplx.mul (Cplx.conj ysr) ysr))
                 (Cplx.add (Cplx.mul (Cplx.conj xsm) xsm) (Cplx.mul (Cplx.conj ysm) ysm)))
       (Cplx.mul (Cplx.mul weight (Cplx.conj d)) d)).

(** The delta function: one white pixel in a black image. *)
Definition deltaFloat (h w : nat) : Mat Q := Mat.set_at (Mat.zeros h w) 0 0 1.

(** The gradients of the blurred view inside the region. *)
Definition regionGrads (grads : Mat Q * Mat Q) (mask : Mat N) : Mat Q * Mat Q :=
  (Mat.copyToMasked (fst grads) mask, Mat.copyToMasked (snd grads) mask).

(** First half of [jointPSFEstimation]: the kernel in the Fourier domain. *)
Definition jointPSFSpectrum (masks : Mat N * Mat N)
    (salientEdgesLeft salientEdgesRight : Mat Q * Mat Q) : Mat complex :=
  let regionGradsLeft := regionGrads (gradsLeft self) (sel masks LEFT) in
  let regionGradsRight := regionGrads (gradsRight self) (sel masks RIGHT) in
  let xSm := dft (fst salientEdgesLeft) in
  let ySm := dft (snd salientEdgesLeft) in
  let xSr := dft (fst salientEdgesRight) in
  let ySr := dft (snd salientEdgesRight) in
  let xBm := dft (fst regionGradsLeft) in
  let yBm := dft (snd regionGradsLeft) in
  let xBr := dft (fst regionGradsRight) in
  let yBr := dft (snd regionGradsRight) in
  let delta := dft (deltaFloat (Mat.rows xSm) (Mat.cols xSm)) in
  let at_ := Mat.at_ Cplx.zero in
  Mat.build (Mat.rows xSm) (Mat.cols xSm) (fun y x =>
    kernelBin (at_ xSr y x) (at_ ySr y x) (at_ xSm y x) (at_ ySm y x)
              (at_ xBr y x) (at_ yBr y x) (at_ xBm y x) (at_ yBm y x)
              (at_ delta y x)).

(** Swap the slices of the corner-centred kernel:
<<
     __________
    |      |   |
    |   0  | 1 |
    |------|---|
    |   2  | 3 |
    |______|___|
>>  *)
Definition swapQuadrants (kernel : Mat Q) : option (Mat Q) :=
  let x := Z.of_nat (Mat.cols kernel) in
  let y := Z.of_nat (Mat.rows kernel) in
  let hs1 := Z.quot (psfWidth self - 1) 2 in
  let hs2 := Z.quot (psfWidth self - 1) 2 in
  q0 ← Mat.roi kernel 0 0 (x - hs1) (y - hs2);
  q1 ← Mat.roi kernel (x - hs1) 0 hs1 (y - hs2);
  q2 ← Mat.roi kernel 0 (y - hs2) (x - hs1) hs2;
  q3 ← Mat.roi kernel (x - hs1) (y - hs2) hs1 hs2;
  kernelSwap ← Mat.hconcat q3 q2;
  tmp ← Mat.hconcat q1 q0;
  Mat.vconcat kernelSwap tmp.

(** The kernel before it is made energy preserving: negative values erased,
    slices swapped, cut to the PSF window. *)
Definition cutKernel (kernel : Mat Q) : option (Mat Q) :=
  kernel ← swapQuadrants (Mat.threshold_tozero 0 kernel);
  Mat.roi kernel 0 0 (psfWidth self) (psfWidth self).

(** Second half of [jointPSFEstimation]: from the spectrum to the PSF. *)
Definition jointPSFKernel (K : Mat complex) : option (Mat Q) :=
  psf ← cutKernel (idft K);
  Some (Mat.div psf (Mat.sum psf)).

Definition jointPSFEstimation (masks : Mat N * Mat N)
    (salientEdgesLeft salientEdgesRight : Mat Q * Mat Q) : option (Mat Q) :=
  jointPSFKernel (jointPSFSpectrum masks salientEdgesLeft salientEdgesRight).

End JointPSF.

(** ** The region tree and the mutable members *)

Record node : Type := {
  parent : Z;
  children : Z * Z;
  psf : Mat Q;
  entropy : Q
}.

(** What [regionTree[id]] reads where the tree stores no node. *)
#[global] Instance node_inhabited : Inhabited node :=
  populate {| parent := -1; children := (-1, -1)%Z; psf := []; entropy := 0 |}.

Definition set_psf (k : Mat Q) (n : node) : node :=
  {| parent := parent n; children := children n; psf := k; entropy := entropy n |}.

Definition set_entropy (e : Q) (n : node) : node :=
  {| parent := parent n; children := children n; psf := psf n; entropy := e |}.

(** What a run leaves behind, beside the values it computes: the calls to
    the numeric collaborators and the accesses to the tree and the queue. *)
Inductive event : Type :=
| CallDeconvFFT (src kernel : Mat Q)
| CallDeconvIRLS (src kernel : Mat Q) (mask : Mat N)
| CallSalientEdgeMap (image : Mat Q) (mask : Mat N)
| CallJointPSF (masks : Mat N * Mat N) (salientEdgesLeft salientEdgesRight : Mat Q * Mat Q)
| PsfStored (id : Z)
| EntropyStored (id : Z)
| Pushed (id : Z)
| Popped (id : Z).

(** The members that the passes mutate; [history] lists the events, the
    latest first. *)
Record State : Type := {
  regionTree : gmap Z node;
  topLevelNodeIds : list Z;
  regionDeconv : list (Mat Q);
  remainingNodes : list Z;
  regionStack : list Z;
  visitedLeafs : Z;
  history : list event
}.

Definition with_regionTree (t : gmap Z node) (st : State) : State :=
  {| regionTree := t; topLevelNodeIds := topLevelNodeIds st;
     regionDeconv := regionDeconv st; remainingNodes := remainingNodes st;
     regionStack := regionStack st; visitedLeafs := visitedLeafs st;
     history := history st |}.

Definition with_regionDeconv (d : list (Mat Q)) (st : State) : State :=
  {| regionTree := regionTree st; topLevelNodeIds := topLevelNodeIds st;
     regionDeconv := d; remainingNodes := remainingNodes st;
     regionStack := regionStack st; visitedLeafs := visitedLeafs st;
     history := history st |}.

Definition with_remainingNodes (q : list Z) (st : State) : State :=
  {| regionTree := regionTree st; topLevelNodeIds := topLevelNodeIds st;
     regionDeconv := regionDeconv st; remainingNodes := q;
     regionStack := regionStack st; visitedLeafs := visitedLeafs st;
     history := history st |}.

Definition with_regionStack (s : list Z) (st : State) : State :=
  {| regionTree := regionTree st; topLevelNodeIds := topLevelNodeIds st;
     regionDeconv := regionDeconv st; remainingNodes := remainingNodes st;
     regionStack := s; visitedLeafs := visitedLeafs st;
     history := history st |}.

Definition with_visitedLeafs (n : Z) (st : State) : State :=
  {| regionTree := regionTree st; topLevelNodeIds := topLevelNodeIds st;
     regionDeconv := regionDeconv st; remainingNodes := remainingNodes st;
     regionStack := regionStack st; visitedLeafs := n;
     history := history st |}.

Definition with_history (h : list event) (st : State) : State :=
  {| regionTree := regionTree st; topLevelNodeIds := topLevelNodeIds st;
     regionDeconv := regionDeconv st; remainingNodes := remainingNodes st;
     regionStack := regionStack st; visitedLeafs := visitedLeafs st;
     history := h |}.

(** Record events, given in the order in which they happen. *)
Definition logs (evs : list event) (st : State) : State :=
  with_history (rev evs ++ history st) st.

(** [regionTree[id].psf = k] (or [k.copyTo(regionTree[id].psf)]) *)
Definition store_psf (id : Z) (k : Mat Q) (st : State) : State :=
  logs [PsfStored id]
    (with_regionTree (<[id := set_psf k (regionTree st !!! id)]> (regionTree st)) st).

(** [regionTree[id].entropy = e] *)
Definition store_entropy (id : Z) (e : Q) (st : State) : State :=
  logs [EntropyStored id]
    (with_regionTree (<[id := set_entropy e (regionTree st !!! id)]> (regionTree st)) st).

(** [v[i] = x] on a [std::vector]; nothing is modelled outside its bounds. *)
Definition vec_set {A : Type} (v : list A) (i : Z) (x : A) : list A :=
  if bool_decide (0 <= i)%Z then <[Z.to_nat i := x]> v else v.

(** [v[i]] on a [std::vector<Mat>] *)
Definition vec_get (v : list (Mat Q)) (i : Z) : Mat Q :=
  if bool_decide (0 <= i)%Z then default [] (v !! Z.to_nat i) else [].

(** [v.resize(n)]: keeps the leading elements, pads with empty matrices. *)
Definition vec_resize (v : list (Mat Q)) (n : Z) : list (Mat Q) :=
  take (Z.to_nat n) v ++ replicate (Z.to_nat n - length v) [].

(** ** Kernel estimation for the middle and leaf level nodes *)

Section MidLevel.
Context `{External}.
Variable self : Members.

(** [estimateChildPSF]: deblur both views with the PSF of the parent, take
    the salient edges of the result and estimate the PSF of the region.
    Returns the calls to the collaborators, in order, and the PSF ([None]
    when [jointPSFEstimation] raises). *)
Definition estimateChildPSF (parentPSF : Mat Q) (masks : Mat N * Mat N)
    : list event * option (Mat Q) :=
  let float_ := floatImages self in
  let '(deconv, calls) :=
    match deconvAlgoPSFSelection self with
    | FFT =>
        ((deconvolveFFT (sel float_ LEFT) parentPSF,
          deconvolveFFT (sel float_ RIGHT) parentPSF),
         [CallDeconvFFT (sel float_ LEFT) parentPSF;
          CallDeconvFFT (sel float_ RIGHT) parentPSF])
    | IRLS =>
        ((deconvolveIRLS (sel float_ LEFT) parentPSF (sel masks LEFT),
          deconvolveIRLS (sel float_ RIGHT) parentPSF (sel masks RIGHT)),
         [CallDeconvIRLS (sel float_ LEFT) parentPSF (sel masks LEFT);
          CallDeconvIRLS (sel float_ RIGHT) parentPSF (sel masks RIGHT)])
    end in
  let deconvLeft := Mat.mulc (sel deconv LEFT) 255 in
  let deconvRight := Mat.mulc (sel deconv RIGHT) 255 in
  let salientEdgesLeft :=
    computeSalientEdgeMap deconvLeft (psfWidth self) (sel masks LEFT) in
  let salientEdgesRight :=
    computeSalientEdgeMap deconvRight (psfWidth self) (sel masks RIGHT) in
  (calls ++ [CallSalientEdgeMap deconvLeft (sel masks LEFT);
             CallSalientEdgeMap deconvRight (sel masks RIGHT);
             CallJointPSF masks salientEdgesLeft salientEdgesRight],
   jointPSFEstimation self masks salientEdgesLeft salientEdgesRight).

(** [computeEntropy]: minus the sum of [x * log(x)] over the positive samples. *)
Definition computeEntropy (kernel : Mat Q) : Q :=
  -1 * foldl (fun entropy row =>
                foldl (fun entropy x =>
                         if Qlt_le_dec 0 x then entropy + x * ln x else entropy)
                      entropy row)
             0 kernel.

(** [isReliablePSF]: the entropy of the node against the mean of its level. *)
Definition isReliablePSF (t : gmap Z node) (id : Z) : bool :=
  let peers := getLevelPeers id in
  let sum := foldl (fun sum nid => sum + entropy (t !!! nid)) 0 peers in
  let mean := sum / inject_Z (Z.of_nat (length peers)) in
  let threshold := (2 # 10) * mean in
  if Qlt_le_dec (entropy (t !!! id) - mean) threshold then true else false.

(** [candidateSelection]: own PSF, PSF of the parent, PSF of the sibling
    [sid] when it is reliable. *)
Definition candidateSelection (t : gmap Z node) (id sid : Z) : list (Mat Q) :=
  let candiates := [psf (t !!! id)] in
  let pid := parent (t !!! id) in
  let candiates := candiates ++ [psf (t !!! pid)] in
  if isReliablePSF t sid then candiates ++ [psf (t !!! sid)] else candiates.

(** [gradientCorrelation] *)
Definition gradientCorrelation (image1 image2 : Mat Q) (mask : Mat N) : Q :=
  let tmpGrads1 := (Sobel image1 1 0, Sobel image1 0 1) in
  let tmpGrads2 := (Sobel image2 1 0, Sobel image2 0 1) in
  let gradients1 := normedGradients tmpGrads1 in
  let gradients2 := normedGradients tmpGrads2 in
  let gradients1 := Mat.div gradients1 (maxLoc gradients1) in
  let gradients2 := Mat.div gradients2 (maxLoc gradients2) in
  let X := Mat.copyToMasked gradients1 mask in
  let Y := Mat.copyToMasked gradients2 mask in
  crossCorrelation X Y mask.

(** In [psfSelection]: the deconvolution of the left view with one candidate,
    and the call that computes it. *)
Definition selectionDeconv (candidate : Mat Q) (mask : Mat N) : Mat Q * event :=
  match deconvAlgoPSFSelection self with
  | FFT =>
      (deconvolveFFT (sel (floatImages self) LEFT) candidate,
       CallDeconvFFT (sel (floatImages self) LEFT) candidate)
  | IRLS =>
      (deconvolveIRLS (sel (floatImages self) LEFT) candidate mask,
       CallDeconvIRLS (sel (floatImages self) LEFT) candidate mask)
  end.

(** The latent image of a candidate, converted like matlab [imshow]. *)
Definition selectionLatent (candidate : Mat Q) (mask : Mat N) : Mat Q :=
  Mat.mulc
    (Mat.threshold_trunc 1 (Mat.threshold_tozero 0 (fst (selectionDeconv candidate mask))))
    255.

(** The energy of a candidate for the node [id]. *)
Definition selectionEnergy (id : Z) (candidate : Mat Q) : Q :=
  let mask := getMask id LEFT in
  let latent := selectionLatent candidate mask in
  let smoothed := GaussianBlur latent in
  let shockFiltered := coherenceFilter smoothed in
  1 - gradientCorrelation latent shockFiltered mask.

(** The loop of [psfSelection], from candidate [i] on. *)
Fixpoint psfSelection_loop (id : Z) (candidates : list (Mat Q)) (i : nat)
    (minEnergy : Q) (winner : nat) (st : State) : nat * State :=
  match candidates with
  | [] => (winner, st)
  | candidate :: rest =>
      let mask := getMask id LEFT in
      let st := logs [snd (selectionDeconv candidate mask)] st in
      let latent := selectionLatent candidate mask in
      let energy := selectionEnergy id candidate in
      if Qlt_le_dec energy minEnergy
      then
        let st :=
          if bool_decide (fst (children (regionTree st !!! id)) = -1)%Z
             && bool_decide (deconvAlgoPSFSelection self = IRLS)
          then with_regionDeconv (vec_set (regionDeconv st) id latent) st
          else st in
        psfSelection_loop id rest (S i) energy i st
      else psfSelection_loop id rest (S i) minEnergy winner st
  end.

(** [psfSelection]: the winner and the state it leaves. *)
Definition psfSelection (candidates : list (Mat Q)) (id : Z) (st : State)
    : Mat Q * State :=
  let '(winner, st) := psfSelection_loop id candidates 0 2 0%nat st in
  (default [] (candidates !! winner), st).

(** In [midLevelKernelEstimationNode]: the initial PSF of the child [cid] of
    [id]. *)
Definition initialChildPSF (id cid : Z) (st : State) : option State :=
  let masks := getMasks cid in
  if bool_decide (Mat.Nsum (sel masks LEFT) <> 0%N)
     && bool_decide (Mat.Nsum (sel masks RIGHT) <> 0%N)
  then
    let '(calls, r) := estimateChildPSF (psf (regionTree st !!! id)) masks in
    k ← r;
    Some (store_psf cid k (logs calls st))
  else Some (store_psf cid (psf (regionTree st !!! id)) st).

(** [regionTree[cid].entropy = computeEntropy(regionTree[cid].psf)] *)
Definition childEntropy (cid : Z) (st : State) : State :=
  store_entropy cid (computeEntropy (psf (regionTree st !!! cid))) st.

(** The critical section that adds both children to the back of the queue. *)
Definition pushChildren (cid1 cid2 : Z) (st : State) : State :=
  logs [Pushed cid1; Pushed cid2]
    (with_remainingNodes (remainingNodes st ++ [cid1; cid2]) st).

(** The critical section that counts a visited leaf. *)
Definition countLeaf (st : State) : State :=
  with_visitedLeafs (visitedLeafs st + 1)%Z st.

(** [safeQueueAccess]: the front of the queue, if any. *)
Definition safeQueueAccess (st : State) : option Z * State :=
  match remainingNodes st with
  | [] => (None, st)
  | item :: q => (Some item, logs [Popped item] (with_remainingNodes q st))
  end.

(** What one iteration of [midLevelKernelEstimationNode] does with the node
    [id] it took from the queue. *)
Definition estimationNode (id : Z) (st : State) : option State :=
  let cid1 := fst (children (regionTree st !!! id)) in
  let cid2 := snd (children (regionTree st !!! id)) in
  if bool_decide (cid1 <> -1)%Z && bool_decide (cid2 <> -1)%Z then
    st ← initialChildPSF id cid1 st;
    st ← initialChildPSF id cid2 st;
    let st := childEntropy cid1 st in
    let st := childEntropy cid2 st in
    Some (pushChildren cid1 cid2 st)
  else Some (countLeaf st).

(** What one iteration of [midLevelKernelRefinement] does with the node [id]
    it took from the queue. *)
Definition refinementNode (id : Z) (st : State) : State :=
  let cid1 := fst (children (regionTree st !!! id)) in
  let cid2 := snd (children (regionTree st !!! id)) in
  if bool_decide (cid1 <> -1)%Z && bool_decide (cid2 <> -1)%Z then
    let candiates1 := candidateSelection (regionTree st) cid1 cid2 in
    let candiates2 := candidateSelection (regionTree st) cid2 cid1 in
    let '(winner0, st) := psfSelection candiates1 cid1 st in
    let '(winner1, st) := psfSelection candiates2 cid2 st in
    let st := store_psf cid1 winner0 st in
    let st := store_psf cid2 winner1 st in
    pushChildren cid1 cid2 st
  else countLeaf st.

End MidLevel.

(** ** The workers of the two tree walks *)

(** A thread pool over the shared members: the program point of every
    thread (with its local variables) and the state they share.  One step
    of one thread is atomic; a schedule names the thread that moves next. *)
Record System (pc : Type) : Type := {
  shared : State;
  threads : list pc
}.
Arguments shared {pc} _.
Arguments threads {pc} _.

Section Scheduler.
Context {pc : Type}.
Variable step : pc -> State -> option (pc * State).

(** Thread [i] moves; a thread that has returned, or whose step raises,
    leaves the system as it is. *)
Definition schedule (sys : System pc) (i : nat) : System pc :=
  match threads sys !! i with
  | Some p =>
      match step p (shared sys) with
      | Some (p', st') => {| shared := st'; threads := <[i := p']> (threads sys) |}
      | None => sys
      end
  | None => sys
  end.

Definition run (sched : list nat) (sys : System pc) : System pc :=
  foldl schedule sys sched.

End Scheduler.

(** Where a worker of [midLevelKernelEstimationNode] stands. *)
Inductive pcEstimation : Type :=
| E_while
| E_access
| E_node (id cid1 cid2 : Z)
| E_child2 (id cid1 cid2 : Z)
| E_entropy1 (id cid1 cid2 : Z)
| E_entropy2 (id cid1 cid2 : Z)
| E_push (id cid1 cid2 : Z)
| E_return.

(** Where a worker of [midLevelKernelRefinement] stands. *)
Inductive pcRefinement : Type :=
| R_resize
| R_while
| R_access
| R_node (id cid1 cid2 : Z)
| R_candidates2 (id cid1 cid2 : Z) (candiates1 : list (Mat Q))
| R_selection1 (id cid1 cid2 : Z) (candiates1 candiates2 : list (Mat Q))
| R_selection2 (id cid1 cid2 : Z) (candiates2 : list (Mat Q)) (winner0 : Mat Q)
| R_store1 (id cid1 cid2 : Z) (winner0 winner1 : Mat Q)
| R_store2 (id cid1 cid2 : Z) (winner1 : Mat Q)
| R_push (id cid1 cid2 : Z)
| R_return.

Section Workers.
Context `{External}.
Variable self : Members.

(** One step of [midLevelKernelEstimationNode]. *)
Definition stepEstimation (p : pcEstimation) (st : State)
    : option (pcEstimation * State) :=
  match p with
  | E_while =>
      if bool_decide (visitedLeafs st <> layers self)
      then Some (E_access, st) else Some (E_return, st)
  | E_access =>
      match safeQueueAccess st with
      | (Some id, st) =>
          Some (E_node id (fst (children (regionTree st !!! id)))
                          (snd (children (regionTree st !!! id))), st)
      | (None, st) => Some (E_while, st)
      end
  | E_node id cid1 cid2 =>
      if bool_decide (cid1 <> -1)%Z && bool_decide (cid2 <> -1)%Z
      then st ← initialChildPSF self id cid1 st; Some (E_child2 id cid1 cid2, st)
      else Some (E_while, countLeaf st)
  | E_child2 id cid1 cid2 =>
      st ← initialChildPSF self id cid2 st; Some (E_entropy1 id cid1 cid2, st)
  | E_entropy1 id cid1 cid2 => Some (E_entropy2 id cid1 cid2, childEntropy cid1 st)
  | E_entropy2 id cid1 cid2 => Some (E_push id cid1 cid2, childEntropy cid2 st)
  | E_push id cid1 cid2 => Some (E_while, pushChildren cid1 cid2 st)
  | E_return => None
  end.

(** One step of [midLevelKernelRefinement]. *)
Definition stepRefinement (p : pcRefinement) (st : State)
    : option (pcRefinement * State) :=
  match p with
  | R_resize =>
      if bool_decide (deconvAlgoPSFSelection self = IRLS)
      then Some (R_while, with_regionDeconv (vec_resize (regionDeconv st) (layers self)) st)
      else Some (R_while, st)
  | R_while =>
      if bool_decide (visitedLeafs st <> layers self)
      then Some (R_access, st) else Some (R_return, st)
  | R_access =>
      match safeQueueAccess st with
      | (Some id, st) =>
          Some (R_node id (fst (children (regionTree st !!! id)))
                          (snd (children (regionTree st !!! id))), st)
      | (None, st) => Some (R_while, st)
      end
  | R_node id cid1 cid2 =>
      if bool_decide (cid1 <> -1)%Z && bool_decide (cid2 <> -1)%Z
      then Some (R_candidates2 id cid1 cid2
                   (candidateSelection (regionTree st) cid1 cid2), st)
      else Some (R_while, countLeaf st)
  | R_candidates2 id cid1 cid2 candiates1 =>
      Some (R_selection1 id cid1 cid2 candiates1
              (candidateSelection (regionTree st) cid2 cid1), st)
  | R_selection1 id cid1 cid2 candiates1 candiates2 =>
      let '(winner0, st) := psfSelection self candiates1 cid1 st in
      Some (R_selection2 id cid1 cid2 candiates2 winner0, st)
  | R_selection2 id cid1 cid2 candiates2 winner0 =>
      let '(winner1, st) := psfSelection self candiates2 cid2 st in
      Some (R_store1 id cid1 cid2 winner0 winner1, st)
  | R_store1 id cid1 cid2 winner0 winner1 =>
      Some (R_store2 id cid1 cid2 winner1, store_psf cid1 winner0 st)
  | R_store2 id cid1 cid2 winner1 =>
      Some (R_push id cid1 cid2, store_psf cid2 winner1 st)
  | R_push id cid1 cid2 => Some (R_while, pushChildren cid1 cid2 st)
  | R_return => None
  end.

(** [midLevelKernelEstimation], up to the start of the workers of a pass:
    the counter is reset and the queue receives the top-level nodes; the
    calling thread works beside [nThreads - 1] workers. *)
Definition startPass {pc : Type} (entry : pc) (nThreads : Z) (st : State)
    : System pc :=
  let st := with_visitedLeafs 0 st in
  let st := with_remainingNodes (remainingNodes st ++ topLevelNodeIds st) st in
  {| shared := st; threads := replicate (S (Z.to_nat (nThreads - 1))) entry |}.

Definition startEstimation : Z -> State -> System pcEstimation := startPass E_while.
Definition startRefinement : Z -> State -> System pcRefinement := startPass R_resize.

End Workers.

(** ** Reconstruction *)

Section Reconstruction.
Context `{External}.
Variable self : Members.

(** [safeStackAccess]: the top of the stack, if any. *)
Definition safeStackAccess (st : State) : option Z * State :=
  match regionStack st with
  | [] => (None, st)
  | item :: s => (Some item, with_regionStack s st)
  end.

(** In [deconvolveRegion]: the image that is deconvolved for a view. *)
Definition regionImage (v : view) (color : bool) : Mat Q :=
  if color then sel (images self) v else sel (floatImages self) v.

(** In [deconvolveRegion]: the thresholds and the conversion to 8 bit. *)
Definition displayable (m : Mat Q) : Mat Q :=
  map (map (convertTo8U 255)) (Mat.threshold_trunc 1 (Mat.threshold_tozero 0 m)).

(** The body of the loop of [deconvolveRegion], for the region [i]. *)
Definition deconvolveRegionBody (v : view) (color : bool) (i : Z) (st : State) : State :=
  let mask := getMask i v in
  let image := regionImage v color in
  let kernel := psf (regionTree st !!! i) in
  let st := logs [CallDeconvIRLS image kernel mask] st in
  with_regionDeconv
    (vec_set (regionDeconv st) i (displayable (deconvolveIRLS image kernel mask))) st.

(** The loop of [deconvolveRegion] run by one thread alone: it works as long
    as there is something on the stack. *)
Fixpoint deconvolveRegionLoop (v : view) (color : bool) (stack : list Z)
    (st : State) : State :=
  match stack with
  | [] => st
  | i :: stack =>
      deconvolveRegionLoop v color stack
        (deconvolveRegionBody v color i (with_regionStack stack st))
  end.

Definition deconvolveRegion (v : view) (color : bool) (st : State) : State :=
  deconvolveRegionLoop v color (regionStack st) st.

(** [src.copyTo(dst, mask)] into an existing [dst]. *)
Definition copyToInto (src : Mat Q) (mask : Mat N) (dst : Mat Q) : Mat Q :=
  if bool_decide (Mat.rows dst = Mat.rows src /\ Mat.cols dst = Mat.cols src)
  then zip_with (fun sk d =>
                   zip_with (fun sk d => if decide (snd sk = 0%N) then d else fst sk)
                            (zip (fst sk) (snd sk)) d)
                (zip src mask) dst
  else Mat.copyToMasked src mask.

(** The integers [0, 1, ..., n - 1] of a counting loop. *)
Definition upto (n : Z) : list Z := map Z.of_nat (seq 0 (Z.to_nat n)).

(** [deconvolve] with [nThreads = 1]: every leaf region, then the sum of the
    regions. *)
Definition deconvolve (dst : Mat Q) (v : view) (color : bool) (st : State)
    : Mat Q * State :=
  let st := with_regionDeconv (vec_resize (regionDeconv st) (layers self)) st in
  let st := foldl (fun st nr => with_regionStack (nr :: regionStack st) st)
                  st (upto (layers self)) in
  let st := deconvolveRegion v color st in
  (foldl (fun dst i => copyToInto (vec_get (regionDeconv st) i) (getMask i v) dst)
         dst (upto (Z.of_nat (length (regionDeconv st)))),
   st).

(** [deconvolveTopLevel] with [nThreads = 1]. *)
Definition deconvolveTopLevel (dst : Mat Q) (v : view) (color : bool) (st : State)
    : Mat Q * State :=
  let st := with_regionDeconv
              (vec_resize (regionDeconv st) (Z.of_nat (size (regionTree st)))) st in
  let st := foldl (fun st nr => with_regionStack (nr :: regionStack st) st)
                  st (topLevelNodeIds st) in
  let st := deconvolveRegion v color st in
  (foldl (fun dst id => copyToInto (vec_get (regionDeconv st) id) (getMask id v) dst)
         dst (topLevelNodeIds st),
   st).

End Reconstruction.

(** ** The workers of the reconstruction *)

(** Where a worker of [deconvolveRegion] stands; [i] is its region index. *)
Inductive pcRegion : Type :=
| D_access
| D_deconv (i : Z)
| D_tozero (i : Z)
| D_trunc (i : Z)
| D_convert (i : Z)
| D_return.

Section RegionWorkers.
Context `{External}.
Variable self : Members.

(** One step of [deconvolveRegion]: the access to the stack, the call of the
    solver that writes [regionDeconv[i]], and the three conversions of
    [regionDeconv[i]] in place. *)
Definition stepRegion (v : view) (color : bool) (p : pcRegion) (st : State)
    : option (pcRegion * State) :=
  match p with
  | D_access =>
      match safeStackAccess st with
      | (Some i, st) => Some (D_deconv i, st)
      | (None, st) => Some (D_return, st)
      end
  | D_deconv i =>
      let mask := getMask i v in
      let image := regionImage self v color in
      let kernel := psf (regionTree st !!! i) in
      let st := logs [CallDeconvIRLS image kernel mask] st in
      Some (D_tozero i,
            with_regionDeconv
              (vec_set (regionDeconv st) i (deconvolveIRLS image kernel mask)) st)
  | D_tozero i =>
      Some (D_trunc i,
            with_regionDeconv
              (vec_set (regionDeconv st) i
                 (Mat.threshold_tozero 0 (vec_get (regionDeconv st) i))) st)
  | D_trunc i =>
      Some (D_convert i,
            with_regionDeconv
              (vec_set (regionDeconv st) i
                 (Mat.threshold_trunc 1 (vec_get (regionDeconv st) i))) st)
  | D_convert i =>
      Some (D_access,
            with_regionDeconv
              (vec_set (regionDeconv st) i
                 (map (map (convertTo8U 255)) (vec_get (regionDeconv st) i))) st)
  | D_return => None
  end.

(** [deconvolve], up to the start of the workers: the store is resized, the
    stack receives the layers, and the calling thread works beside
    [nThreads - 1] workers. *)
Definition startDeconvolve (nThreads : Z) (st : State) : System pcRegion :=
  let st := with_regionDeconv (vec_resize (regionDeconv st) (layers self)) st in
  let st := foldl (fun st nr => with_regionStack (nr :: regionStack st) st)
                  st (upto (layers self)) in
  {| shared := st; threads := replicate (S (Z.to_nat (nThreads - 1))) D_access |}.

(** [deconvolve], once the workers are joined: all region deconvs are added. *)
Definition addRegions (dst : Mat Q) (v : view) (st : State) : Mat Q :=
  foldl (fun dst i => copyToInto (vec_get (regionDeconv st) i) (getMask i v) dst)
        dst (upto (Z.of_nat (length (regionDeconv st)))).

End RegionWorkers.

(** ** Disparity maps and top-level kernels *)

(** A call returns or throws a [runtime_error]. *)
Inductive result (A : Type) : Type :=
| Ok (a : A)
| Throw (what : string).
Arguments Ok {A} _.
Arguments Throw {A} _.

(** Sequencing: an exception that no handler catches skips what follows. *)
Definition andThen {A B : Type} (r : result A) (k : A -> result B) : result B :=
  match r with
  | Ok a => k a
  | Throw what => Throw what
  end.

(** What [disparityEstimation] calls but does not define. *)
Class Disparity : Type := {
  (** [m.type() == CV_8UC3] *)
  is8UC3 : Mat Q -> bool;
  (** [cvtColor(src, dst, CV_BGR2GRAY)] *)
  cvtColorGray : Mat Q -> Mat Q;
  (** [pyrDown(src, dst, Size(w, h))] *)
  pyrDown : Mat Q -> Z * Z -> Mat Q;
  (** [disparityFilledSGBM(views, dMaps)] *)
  disparityFilledSGBM : Mat Q * Mat Q -> Mat Q * Mat Q;
  (** [disparityFilledMatch(views, dMaps, maxDisparity)] *)
  disparityFilledMatch : Mat Q * Mat Q -> Z -> Mat Q * Mat Q;
  (** [quantizeImage(dMaps, layers, quantizedDMaps)] *)
  quantizeImage : Mat Q * Mat Q -> Z -> Mat Q * Mat Q;
  (** [resize(src, dst, Size(w, h), 0, 0, INTER_NEAREST)] *)
  resizeNearest : Mat Q -> Z * Z -> Mat Q
}.

Section TopLevel.
Context `{External} {disp : Disparity}.
Variable self : Members.

(** [disparityEstimation]: the new [disparityMaps]. *)
Definition disparityEstimation (input : Mat Q * Mat Q) (algorithm : disparityAlgo)
    (maxDisparity : Z) : result (Mat Q * Mat Q) :=
  let views :=
    match algorithm with
    | SGBM =>
        if is8UC3 (sel input LEFT)
        then (cvtColorGray (sel input LEFT), cvtColorGray (sel input RIGHT))
        else input
    | _ => input
    end in
  let sampleRatio := 2%Z in
  let downsampledSize :=
    (Z.quot (Z.of_nat (Mat.cols (sel views LEFT))) sampleRatio,
     Z.quot (Z.of_nat (Mat.rows (sel views RIGHT))) sampleRatio) in
  let small := (pyrDown (sel views LEFT) downsampledSize,
                pyrDown (sel views RIGHT) downsampledSize) in
  andThen
    match algorithm with
    | SGBM => Ok (disparityFilledSGBM small)
    | MATCH => Ok (disparityFilledMatch small (Z.quot maxDisparity sampleRatio))
    | OtherAlgo _ => Throw "Invalid disparity algorithm"
    end
    (fun smallDMaps =>
       let quantizedDMaps := quantizeImage smallDMaps (layers self) in
       Ok (resizeNearest (sel quantizedDMaps LEFT)
             (Z.of_nat (Mat.cols (sel views LEFT)), Z.of_nat (Mat.rows (sel views LEFT))),
           resizeNearest (sel quantizedDMaps RIGHT)
             (Z.of_nat (Mat.cols (sel views RIGHT)), Z.of_nat (Mat.rows (sel views RIGHT))))).

(** [kernelImage.convertTo(kernelImage, CV_32F)] *)
Definition toFloat (m : Mat N) : Mat Q := map (map (fun v => inject_Z (Z.of_N v))) m.

(** The name of the kernel image of the [i]-th top-level node. *)
Definition kernelFile (i : nat) : string :=
  String.append "kernel" (String.append (pretty (Z.of_nat i)) ".png").

(** The loop of [toplevelKernelEstimation], from the [i]-th top-level node on. *)
Fixpoint toplevelKernelLoop (i : nat) (ids : list Z) (st : State) : result State :=
  match ids with
  | [] => Ok st
  | id :: ids =>
      match imread (kernelFile i) with
      | None => Throw "Can not load kernel!"
      | Some kernelImage =>
          let kernelImage := toFloat kernelImage in
          let kernelImage := Mat.div kernelImage (Mat.sum kernelImage) in
          toplevelKernelLoop (S i) ids (store_psf id kernelImage st)
      end
  end.

Definition toplevelKernelEstimation (st : State) : result State :=
  toplevelKernelLoop 0 (topLevelNodeIds st) st.

End TopLevel.

(** ** The constructor *)

Section Constructor.
Context {disp : Disparity}.

(** The gray values of the views: converted when the left view has three
    8 bit channels, the views themselves otherwise. *)
Definition grayImages (images : Mat Q * Mat Q) : Mat Q * Mat Q :=
  if is8UC3 (sel images LEFT)
  then (cvtColorGray (sel images LEFT), cvtColorGray (sel images RIGHT))
  else images.

(** [m.convertTo(dst, CV_32F, 1 / 255.0)] *)
Definition toUnit (m : Mat Q) : Mat Q := Mat.mulc m (1 / 255).

(** [DepthDeblur::DepthDeblur]: the members that the constructor
    initialises; the gradients are empty until [computeBlurredGradients]
    has run. *)
Definition DepthDeblur (imageLeft imageRight : Mat Q) (width _layers : Z)
    (algo : deconvAlgo) : Members :=
  let images_ := (imageLeft, imageRight) in
  {| psfWidth := init_psfWidth width;
     layers := init_layers _layers;
     images := images_;
     floatImages := (toUnit (sel (grayImages images_) LEFT),
                     toUnit (sel (grayImages images_) RIGHT));
     gradsLeft := ([], []);
     gradsRight := ([], []);
     deconvAlgoPSFSelection := algo |}.

End Constructor.

(** * The vocabulary of the properties *)

(** ** The spectrum and the kernel *)

(** The value of a bin in the words of the specification: the sum over both
    views of [conj(Sx) Bx + conj(Sy) By], divided by the sum over both views
    of [conj(Sx) Sx + conj(Sy) Sy] plus [gamma conj(D) D], with [gamma = 1]. *)
Definition specBin (Sx Sy Bx By : view -> complex) (D : complex) : complex :=
  let gamma := mkC 1 0 in
  Cplx.div
    (Cplx.sum (map (fun v => Cplx.add (Cplx.mul (Cplx.conj (Sx v)) (Bx v))
                                      (Cplx.mul (Cplx.conj (Sy v)) (By v)))
                   [LEFT; RIGHT]))
    (Cplx.add
       (Cplx.sum (map (fun v => Cplx.add (Cplx.mul (Cplx.conj (Sx v)) (Sx v))
                                         (Cplx.mul (Cplx.conj (Sy v)) (Sy v)))
                      [LEFT; RIGHT]))
       (Cplx.mul (Cplx.mul gamma (Cplx.conj D)) D)).

(** What [THRESH_TOZERO] at 0 does to a sample. *)
Definition tozero (v : Q) : Q := if Qlt_le_dec 0 v then v else 0.

(** ** The children of a node *)

(** A view in which the region does not appear: the sum of a mask is zero. *)
Definition emptyMasks (masks : Mat N * Mat N) : Prop :=
  Mat.Nsum (sel masks LEFT) = 0%N \/ Mat.Nsum (sel masks RIGHT) = 0%N.

#[global] Instance emptyMasks_dec (masks : Mat N * Mat N) : Decision (emptyMasks masks).
Proof. unfold emptyMasks. apply _. Defined.

Section ChildVocabulary.
Context `{External}.
Variable self : Members.

(** The call that deblurs a view with the kernel [k], by the configured
    algorithm. *)
Definition deblurCall (k : Mat Q) (masks : Mat N * Mat N) (v : view) : event :=
  match deconvAlgoPSFSelection self with
  | FFT => CallDeconvFFT (sel (floatImages self) v) k
  | IRLS => CallDeconvIRLS (sel (floatImages self) v) k (sel masks v)
  end.

(** The image that such a call returns, scaled to the display range. *)
Definition deblurred (k : Mat Q) (masks : Mat N * Mat N) (v : view) : Mat Q :=
  Mat.mulc
    match deconvAlgoPSFSelection self with
    | FFT => deconvolveFFT (sel (floatImages self) v) k
    | IRLS => deconvolveIRLS (sel (floatImages self) v) k (sel masks v)
    end 255.

Definition salientEdges (k : Mat Q) (masks : Mat N * Mat N) (v : view) : Mat Q * Mat Q :=
  computeSalientEdgeMap (deblurred k masks v) (psfWidth self) (sel masks v).

(** What the specification asks of a child with the masks [masks] under a
    parent with the PSF [parentPSF]: no numeric call when a mask is empty,
    and otherwise the joint estimation on the views deblurred with
    [parentPSF]. *)
Definition expectedCalls (parentPSF : Mat Q) (masks : Mat N * Mat N) : list event :=
  if decide (emptyMasks masks) then []
  else [deblurCall parentPSF masks LEFT; deblurCall parentPSF masks RIGHT;
        CallSalientEdgeMap (deblurred parentPSF masks LEFT) (sel masks LEFT);
        CallSalientEdgeMap (deblurred parentPSF masks RIGHT) (sel masks RIGHT);
        CallJointPSF masks (salientEdges parentPSF masks LEFT)
                           (salientEdges parentPSF masks RIGHT)].

(** ... and the PSF of the child: the PSF of the parent when a mask is
    empty, the joint estimate otherwise ([None] when it raises). *)
Definition expectedPSF (parentPSF : Mat Q) (masks : Mat N * Mat N) : option (Mat Q) :=
  if decide (emptyMasks masks) then Some parentPSF
  else jointPSFEstimation self masks (salientEdges parentPSF masks LEFT)
                                     (salientEdges parentPSF masks RIGHT).

(** The state in which the loop goes on after a candidate that takes the lead. *)
Definition afterLead (id : Z) (candidate : Mat Q) (st : State) : State :=
  let st := logs [snd (selectionDeconv self candidate (getMask id LEFT))] st in
  if bool_decide (fst (children (regionTree st !!! id)) = -1)%Z
     && bool_decide (deconvAlgoPSFSelection self = IRLS)
  then with_regionDeconv
         (vec_set (regionDeconv st) id (selectionLatent self candidate (getMask id LEFT))) st
  else st.

(** A call that deconvolves inside the mask [mask]. *)
Definition restrictedTo (mask : Mat N) (e : event) : Prop :=
  match e with
  | CallDeconvIRLS _ _ m => m = mask
  | _ => False
  end.

(** The call that deconvolves the region [i] of the view, and the image it
    leaves in [regionDeconv[i]]. *)
Definition regionCall (v : view) (color : bool) (t : gmap Z node) (i : Z) : event :=
  CallDeconvIRLS (regionImage self v color) (psf (t !!! i)) (getMask i v).

Definition regionResult (v : view) (color : bool) (t : gmap Z node) (i : Z) : Mat Q :=
  displayable (deconvolveIRLS (regionImage self v color) (psf (t !!! i)) (getMask i v)).

End ChildVocabulary.

(** The same members with another algorithm for the PSF selection. *)
Definition withAlgo (algo : deconvAlgo) (self : Members) : Members :=
  {| psfWidth := psfWidth self; layers := layers self; images := images self;
     floatImages := floatImages self; gradsLeft := gradsLeft self;
     gradsRight := gradsRight self; deconvAlgoPSFSelection := algo |}.

(** ** The order of the events of a pass *)

(** The events of a pass, the latest first, are in order when every push of
    a child comes after the store of its PSF (and of its entropy, where the
    pass computes one), and every node that is taken from the queue was put
    there at the start of the pass or has its PSF stored. *)
Fixpoint ordered (needEntropy : bool) (initial : list Z) (evs : list event) : Prop :=
  match evs with
  | [] => True
  | e :: before =>
      match e with
      | Pushed cid =>
          PsfStored cid ∈ before /\ (needEntropy = true -> EntropyStored cid ∈ before)
      | Popped id => id ∈ initial \/ PsfStored id ∈ before
      | _ => True
      end /\ ordered needEntropy initial before
  end.

(** Events that do not touch the queue. *)
Definition quiet (e : event) : Prop :=
  match e with
  | Pushed _ | Popped _ => False
  | _ => True
  end.

(** The queue holds nodes of the start of the pass and nodes with a stored PSF. *)
Definition queueStored (initial : list Z) (evs : list event) (queue : list Z) : Prop :=
  Forall (fun id => id ∈ initial \/ PsfStored id ∈ evs) queue.

Section WalkInvariant.
Context {pc : Type}.
Variable needEntropy : bool.
Variable initial : list Z.
Variable base : list event.

(** What the events so far promise about a thread at a program point. *)
Variable pcInv : list event -> pc -> Prop.

(** The invariant of a pass that started with the queue [initial] and the
    history [base]. *)
Definition walkInv (sys : System pc) : Prop :=
  exists evs,
    history (shared sys) = evs ++ base /\
    ordered needEntropy initial evs /\
    queueStored initial evs (remainingNodes (shared sys)) /\
    Forall (pcInv evs) (threads sys).

End WalkInvariant.

(** What the events promise about a worker of the first pass. *)
Definition estimationInv (evs : list event) (p : pcEstimation) : Prop :=
  match p with
  | E_child2 _ cid1 _ => PsfStored cid1 ∈ evs
  | E_entropy1 _ cid1 cid2 => PsfStored cid1 ∈ evs /\ PsfStored cid2 ∈ evs
  | E_entropy2 _ cid1 cid2 =>
      PsfStored cid1 ∈ evs /\ PsfStored cid2 ∈ evs /\ EntropyStored cid1 ∈ evs
  | E_push _ cid1 cid2 =>
      PsfStored cid1 ∈ evs /\ PsfStored cid2 ∈ evs /\
      EntropyStored cid1 ∈ evs /\ EntropyStored cid2 ∈ evs
  | _ => True
  end.

(** What the events promise about a worker of the second pass. *)
Definition refinementInv (evs : list event) (p : pcRefinement) : Prop :=
  match p with
  | R_store2 _ cid1 _ _ => PsfStored cid1 ∈ evs
  | R_push _ cid1 cid2 => PsfStored cid1 ∈ evs /\ PsfStored cid2 ∈ evs
  | _ => True
  end.

(** The accesses to the tree and to the queue among the events. *)
Definition treeEvent (e : event) : bool :=
  match e with
  | PsfStored _ | EntropyStored _ | Pushed _ | Popped _ => true
  | _ => false
  end.

(** ** The queue, the tree and the store during a pass *)

(** The nodes that were pushed, and the nodes that were taken, in the order
    in which it happened. *)
Definition pushedIds (evs : list event) : list Z :=
  omap (fun e => match e with Pushed cid => Some cid | _ => None end) (rev evs).

Definition poppedIds (evs : list event) : list Z :=
  omap (fun e => match e with Popped id => Some id | _ => None end) (rev evs).

(** Every node has the parent and the children it had. *)
Definition sameShape (t t' : gmap Z node) : Prop :=
  forall id, parent (t' !!! id) = parent (t !!! id) /\
             children (t' !!! id) = children (t !!! id).

(** Every node has the entropy it had. *)
Definition sameEntropies (t t' : gmap Z node) : Prop :=
  forall id, entropy (t' !!! id) = entropy (t !!! id).

(** The mean entropy of the level of a node. *)
Definition levelMean `{External} (t : gmap Z node) (id : Z) : Q :=
  Mat.Qsum (map (fun nid => entropy (t !!! nid)) (getLevelPeers id))
  / inject_Z (Z.of_nat (length (getLevelPeers id))).

(** Matrices of the same size whose samples are related by [R]. *)
Definition samplewise (R : Q -> Q -> Prop) (a b : Mat Q) : Prop :=
  Forall2 (Forall2 R) a b.

(** The region that a worker of [deconvolveRegion] holds. *)
Definition heldRegion (p : pcRegion) : option Z :=
  match p with
  | D_deconv i | D_tozero i | D_trunc i | D_convert i => Some i
  | D_access | D_return => None
  end.

(** ** What a step of a worker does to the members *)

Section Effects.
Context `{External}.
Variable self : Members.

(** The steps of [midLevelKernelEstimationNode]. *)
Inductive estimationEffect : State -> State -> Prop :=
| est_stay (st : State) : estimationEffect st st
| est_pop (st : State) (id : Z) (q : list Z) :
    remainingNodes st = id :: q ->
    estimationEffect st (logs [Popped id] (with_remainingNodes q st))
| est_psf (st : State) (id cid : Z) (k : Mat Q) :
    estimationEffect st
      (store_psf cid k
         (logs (expectedCalls self (psf (regionTree st !!! id)) (getMasks cid)) st))
| est_entropy (st : State) (cid : Z) : estimationEffect st (childEntropy cid st)
| est_push (st : State) (cid1 cid2 : Z) : estimationEffect st (pushChildren cid1 cid2 st)
| est_count (st : State) : estimationEffect st (countLeaf st).

(** The steps of [midLevelKernelRefinement]. *)
Inductive refinementEffect : State -> State -> Prop :=
| ref_stay (st : State) : refinementEffect st st
| ref_resize (st : State) :
    deconvAlgoPSFSelection self = IRLS ->
    refinementEffect st
      (with_regionDeconv (vec_resize (regionDeconv st) (layers self)) st)
| ref_pop (st : State) (id : Z) (q : list Z) :
    remainingNodes st = id :: q ->
    refinementEffect st (logs [Popped id] (with_remainingNodes q st))
| ref_selection (st : State) (candidates : list (Mat Q)) (cid : Z) :
    refinementEffect st (snd (psfSelection self candidates cid st))
| ref_psf (st : State) (cid : Z) (k : Mat Q) : refinementEffect st (store_psf cid k st)
| ref_push (st : State) (cid1 cid2 : Z) : refinementEffect st (pushChildren cid1 cid2 st)
| ref_count (st : State) : refinementEffect st (countLeaf st).

End Effects.

(** The queue after some steps: what it held and what was pushed, without
    what was taken. *)
Definition queueFlow (st st' : State) : Prop :=
  exists new,
    history st' = new ++ history st /\
    remainingNodes st ++ pushedIds new = poppedIds new ++ remainingNodes st'.

(** What the first pass leaves alone. *)
Definition estimationFrame (st st' : State) : Prop :=
  sameShape (regionTree st) (regionTree st') /\
  topLevelNodeIds st' = topLevelNodeIds st /\
  regionDeconv st' = regionDeconv st /\
  regionStack st' = regionStack st /\
  (visitedLeafs st <= visitedLeafs st')%Z.

(** What the second pass leaves alone. *)
Definition refinementFrame (self : Members) (st st' : State) : Prop :=
  sameShape (regionTree st) (regionTree st') /\
  sameEntropies (regionTree st) (regionTree st') /\
  topLevelNodeIds st' = topLevelNodeIds st /\
  regionStack st' = regionStack st /\
  (visitedLeafs st <= visitedLeafs st')%Z /\
  (deconvAlgoPSFSelection self = FFT -> regionDeconv st' = regionDeconv st).

(** ** The counter of leaves *)

(** Children that make a node count as a leaf: one of them is missing. *)
Definition leafPair (cid1 cid2 : Z) : nat :=
  if bool_decide (cid1 <> -1)%Z && bool_decide (cid2 <> -1)%Z then 0%nat else 1%nat.

(** The leaves among the nodes that were taken from the queue. *)
Definition takenLeaves (t : gmap Z node) (evs : list event) : nat :=
  length (List.filter
            (fun id => Nat.eqb (leafPair (fst (children (t !!! id))) (snd (children (t !!! id)))) 1)
            (poppedIds evs)).

(** A worker that has taken a leaf and has not counted it yet. *)
Definition pendingEstimation (p : pcEstimation) : nat :=
  match p with
  | E_node _ cid1 cid2 => leafPair cid1 cid2
  | _ => 0%nat
  end.

Definition pendingRefinement (p : pcRefinement) : nat :=
  match p with
  | R_node _ cid1 cid2 => leafPair cid1 cid2
  | _ => 0%nat
  end.

(** The workers that wait at the head of the loop. *)
Definition waitingEstimation (p : pcEstimation) : Prop := p = E_while \/ p = E_access.

Definition waitingRefinement (p : pcRefinement) : Prop := p = R_while \/ p = R_access.

Section Counter.
Context {pc : Type}.
Variable pending : pc -> nat.
Variable exit : pc.
Variable t0 : gmap Z node.
Variable base : list event.
Variable layers_ : Z.

(** The counter during a pass that started with the tree [t0] and the
    history [base]: the leaves that were counted and the leaves that
    workers hold are the leaves that were taken, and a worker is at its exit
    only if [layers_] leaves were counted. *)
Definition counted (sys : System pc) : Prop :=
  exists evs,
    history (shared sys) = evs ++ base /\
    sameShape t0 (regionTree (shared sys)) /\
    (visitedLeafs (shared sys) + Z.of_nat (sum_list (map pending (threads sys))) =
     Z.of_nat (takenLeaves t0 evs))%Z /\
    Forall (fun p => p = exit -> (layers_ <= visitedLeafs (shared sys))%Z) (threads sys).

End Counter.

(** ** The store during the reconstruction *)

Section RegionInvariant.
Context `{External}.
Variable self : Members.
Variable v : view.
Variable color : bool.
Variable t0 : gmap Z node.
Variable stack0 : list Z.
Variable store0 : list (Mat Q).
Variable base : list event.

(** What the solver returns for the region [i]. *)
Definition rawRegion (i : Z) : Mat Q :=
  deconvolveIRLS (regionImage self v color) (psf (t0 !!! i)) (getMask i v).

(** What the slot of a region holds while a worker holds the region. *)
Definition stageOk (p : pcRegion) (store : list (Mat Q)) : Prop :=
  match p with
  | D_tozero i => vec_get store i = rawRegion i
  | D_trunc i => vec_get store i = Mat.threshold_tozero 0 (rawRegion i)
  | D_convert i =>
      vec_get store i = Mat.threshold_trunc 1 (Mat.threshold_tozero 0 (rawRegion i))
  | _ => True
  end.

(** The invariant of the workers of [deconvolveRegion] that started with the
    tree [t0], the stack [stack0], the store [store0] and the history
    [base]: every region of [stack0] is on the stack, or held by one worker,
    or done, and then its slot holds its result. *)
Definition regionInv (sys : System pcRegion) : Prop :=
  let st := shared sys in
  regionTree st = t0 /\
  length (regionDeconv st) = length store0 /\
  NoDup (regionStack st) /\
  (forall i, i ∈ regionStack st -> i ∈ stack0) /\
  (forall n p i, threads sys !! n = Some p -> heldRegion p = Some i ->
     i ∈ stack0 /\ (i ∉ regionStack st) /\ stageOk p (regionDeconv st)) /\
  (forall n m p q i, threads sys !! n = Some p -> threads sys !! m = Some q ->
     heldRegion p = Some i -> heldRegion q = Some i -> n = m) /\
  (forall i, i ∈ stack0 -> i ∉ regionStack st ->
     (forall n p, threads sys !! n = Some p -> heldRegion p <> Some i) ->
     vec_get (regionDeconv st) i = regionResult self v color t0 i) /\
  (forall k : nat, Z.of_nat k ∉ stack0 -> regionDeconv st !! k = store0 !! k) /\
  (D_return ∈ threads sys -> regionStack st = []) /\
  (exists done,
     history st = map (regionCall self v color t0) done ++ base /\
     NoDup done /\
     forall i, (i ∈ done) <->
               (i ∈ stack0 /\ (i ∉ regionStack st) /\
                forall n, threads sys !! n <> Some (D_deconv i))).

End RegionInvariant.

(** ** The image that the reconstruction composes *)

(** A matrix of [h] rows and [w] columns. *)
Definition sized {A : Type} (h w : nat) (m : Mat A) : Prop :=
  length m = h /\ Forall (fun row => length row = w) m.

(** What [copyTo] with a mask makes of the pixel (y, x) of a destination
    where the mask is zero: it stays, when the destination has the size of
    the source, and is 0 in the matrix that is allocated otherwise. *)
Definition background (h w : nat) (dst : Mat Q) (y x : nat) : Q :=
  if bool_decide (Mat.rows dst = h /\ Mat.cols dst = w) then Mat.at_ 0 dst y x else 0.

(** The regions of a list, copied one after the other through their masks. *)
Definition added (region : Z -> Mat Q) (mask : Z -> Mat N) (dst : Mat Q) (l : list Z)
    : Mat Q :=
  foldl (fun dst i => copyToInto (region i) (mask i) dst) dst l.

(** ** The gradients inside a region *)

(** The same members with other gradients of the blurred views. *)
Definition withGrads (gradsLeft_ gradsRight_ : Mat Q * Mat Q) (self : Members) : Members :=
  {| psfWidth := psfWidth self; layers := layers self; images := images self;
     floatImages := floatImages self; gradsLeft := gradsLeft_;
     gradsRight := gradsRight_; deconvAlgoPSFSelection := deconvAlgoPSFSelection self |}.

(** Two images of the size of a mask that agree where the mask is not zero. *)
Definition sameInside (h w : nat) (mask : Mat N) (g g' : Mat Q) : Prop :=
  sized h w mask /\ sized h w g /\ sized h w g' /\
  forall y x, (y < h)%nat -> (x < w)%nat ->
              Mat.at_ 0%N mask y x <> 0%N -> Mat.at_ 0 g y x = Mat.at_ 0 g' y x.

(** ** A small instance, to run the embedding *)

Module Fixture.

(** The powers of the imaginary unit. *)
Definition ipow (k : nat) : complex :=
  match (k mod 4)%nat with
  | 0%nat => mkC 1 0
  | 1%nat => mkC 0 1
  | 2%nat => mkC (-1) 0
  | _ => mkC 0 (-1)
  end.

(** [exp(2 pi i k / n)] for a side [n] of 1, 2 or 4 pixels. *)
Definition root (n k : nat) : complex := ipow (k * (4 / n)).

(** The discrete Fourier transform of an image whose sides are 1, 2 or 4
    pixels long, where every twiddle factor is a power of [i]. *)
Definition dft4 (m : Mat Q) : Mat complex :=
  Mat.build (Mat.rows m) (Mat.cols m) (fun u v =>
    Cplx.sum (map (fun y =>
      Cplx.sum (map (fun x =>
        Cplx.mul (mkC (Mat.at_ 0 m y x) 0)
                 (Cplx.conj (Cplx.mul (root (Mat.rows m) (u * y)) (root (Mat.cols m) (v * x)))))
        (seq 0 (Mat.cols m))))
      (seq 0 (Mat.rows m)))).

(** Its inverse: not scaled, real output. *)
Definition idft4 (m : Mat complex) : Mat Q :=
  Mat.build (Mat.rows m) (Mat.cols m) (fun y x =>
    re (Cplx.sum (map (fun u =>
      Cplx.sum (map (fun v =>
        Cplx.mul (Mat.at_ Cplx.zero m u v)
                 (Cplx.mul (root (Mat.rows m) (u * y)) (root (Mat.cols m) (v * x))))
        (seq 0 (Mat.cols m))))
      (seq 0 (Mat.rows m))))).

(** A tree of seven nodes over four layers: the top-level node 6 over the
    nodes 4 and 5, the node 4 over the leaves 0 and 1, the node 5 over the
    leaves 2 and 3. *)
Definition kernel3 : Mat Q := [[0; 0; 0]; [0; 1; 0]; [0; 0; 0]].

Definition mkNode (parent_ cid1 cid2 : Z) (psf_ : Mat Q) (entropy_ : Q) : node :=
  {| parent := parent_; children := (cid1, cid2); psf := psf_; entropy := entropy_ |}.

Definition tree : gmap Z node :=
  list_to_map
    [(0%Z, mkNode 4 (-1) (-1) [] 0); (1%Z, mkNode 4 (-1) (-1) [] 0);
     (2%Z, mkNode 5 (-1) (-1) [] 0); (3%Z, mkNode 5 (-1) (-1) [] 0);
     (4%Z, mkNode 6 0 1 [] 0); (5%Z, mkNode 6 2 3 [] 0);
     (6%Z, mkNode (-1) 4 5 kernel3 0)].

(** The same tree once every node has a PSF, with the entropies 1, 1, 1 and
    5 at the leaves. *)
Definition kernel3' : Mat Q := [[0; 0; 0]; [0; 1 # 2; 1 # 2]; [0; 0; 0]].

Definition estimatedTree : gmap Z node :=
  list_to_map
    [(0%Z, mkNode 4 (-1) (-1) kernel3' 1); (1%Z, mkNode 4 (-1) (-1) kernel3 1);
     (2%Z, mkNode 5 (-1) (-1) kernel3 1); (3%Z, mkNode 5 (-1) (-1) kernel3' 5);
     (4%Z, mkNode 6 0 1 kernel3 0); (5%Z, mkNode 6 2 3 kernel3 0);
     (6%Z, mkNode (-1) 4 5 kernel3 0)].

(** In a 4 x 4 image the leaf [k] is the column [k]. *)
Definition mask (id : Z) : Mat N :=
  if bool_decide (id = 0%Z) then replicate 4 [1; 0; 0; 0]%N
  else if bool_decide (id = 1%Z) then replicate 4 [0; 1; 0; 0]%N
  else if bool_decide (id = 2%Z) then replicate 4 [0; 0; 1; 0]%N
  else if bool_decide (id = 3%Z) then replicate 4 [0; 0; 0; 1]%N
  else if bool_decide (id = 4%Z) then replicate 4 [1; 1; 0; 0]%N
  else if bool_decide (id = 5%Z) then replicate 4 [0; 0; 1; 1]%N
  else replicate 4 [1; 1; 1; 1]%N.

(** The depths of the node 5 and of its leaves do not appear in the right
    view. *)
Definition maskRight (id : Z) : Mat N :=
  if bool_decide (id = 5%Z \/ id = 2%Z \/ id = 3%Z) then replicate 4 [0; 0; 0; 0]%N
  else mask id.

Definition levelPeers (id : Z) : list Z :=
  if bool_decide (id = 6%Z) then [6%Z]
  else if bool_decide (id = 4%Z \/ id = 5%Z) then [4%Z; 5%Z]
  else [0%Z; 1%Z; 2%Z; 3%Z].

(** Collaborators that are simple enough to run: the solvers scale the view
    by the centre of a 3 x 3 kernel (inside the mask, for the iterative
    one), the filters change nothing, and the correlation of two gradient
    maps is read at the pixel (0, 0).  The transforms are left open. *)
Definition collaborators (dft_ : Mat Q -> Mat complex) (idft_ : Mat complex -> Mat Q)
    : External := {|
  dft := dft_;
  idft := idft_;
  deconvolveFFT src kernel := Mat.mulc src (Mat.at_ 0 kernel 1 1);
  deconvolveIRLS src kernel mask :=
    Mat.copyToMasked (Mat.mulc src (Mat.at_ 0 kernel 1 1)) mask;
  computeSalientEdgeMap image w mask := (image, image);
  GaussianBlur m := m;
  coherenceFilter m := m;
  Sobel m dx dy := m;
  normedGradients g := fst g;
  maxLoc m := 1;
  crossCorrelation X Y mask := Mat.at_ 0 X 0 0 / 255;
  ln x := x - 1;
  convertTo8U alpha x := x * alpha;
  getMask id v := match v with LEFT => mask id | RIGHT => maskRight id end;
  getMasks id := (mask id, maskRight id);
  getLevelPeers := levelPeers;
  imread name := if bool_decide (name = "kernel0.png") then Some [[0; 2]; [2; 4]]%N else None
|}.

(** With the Fourier transform of 4 x 4 images. *)
Definition external : External := collaborators dft4 idft4.

(** With transforms that keep every sample in its place. *)
Definition pointwise : External :=
  collaborators (map (map (fun v => mkC v 0))) (map (map re)).

Definition disparity : Disparity := {|
  is8UC3 m := false;
  cvtColorGray m := m;
  pyrDown m size := m;
  disparityFilledSGBM views := views;
  disparityFilledMatch views maxDisparity := views;
  quantizeImage dMaps layers := dMaps;
  resizeNearest m size := m
|}.

Definition image : Mat Q :=
  [[1 # 2; 1 # 4; 1 # 8; 0];
   [1 # 4; 1 # 2; 1 # 4; 1 # 8];
   [1 # 8; 1 # 4; 1 # 2; 1 # 4];
   [0; 1 # 8; 1 # 4; 1 # 2]].

Definition edges : Mat Q :=
  [[1 # 4; -1 # 4; 0; 0];
   [-1 # 4; 1 # 2; -1 # 4; 0];
   [0; -1 # 4; 1 # 2; -1 # 4];
   [0; 0; -1 # 4; 1 # 4]].

Definition members (algo : deconvAlgo) : Members := {|
  psfWidth := 3;
  layers := 4;
  images := (image, image);
  floatImages := (image, image);
  gradsLeft := (edges, edges);
  gradsRight := (edges, edges);
  deconvAlgoPSFSelection := algo
|}.

Definition state : State := {|
  regionTree := tree;
  topLevelNodeIds := [6%Z];
  regionDeconv := [];
  remainingNodes := [];
  regionStack := [];
  visitedLeafs := 0;
  history := []
|}.

(** The state between the two passes. *)
Definition estimated : State := with_regionTree estimatedTree state.

End Fixture.

(** On the seven nodes, with two threads: the first thread takes the
    top-level node 6 and works on it until it has pushed the nodes 4 and 5;
    the second thread then takes the node 4 and the first thread the node 5. *)
Definition fixtureSchedule : list nat :=
  [0; 0; 0; 0; 0; 0; 0; 1; 1; 0; 0]%nat.

(** The state in which the cache is filled: the iterative solver is
    configured, the store has been resized to the four layers, and the
    second pass has worked on the node 4, whose children are the leaves 0
    and 1. *)
Definition cachedState : State :=
  refinementNode (H := Fixture.pointwise) (Fixture.members IRLS) 4
    (with_regionDeconv (vec_resize [] 4) Fixture.estimated).

(** The collaborators of [Fixture.pointwise] with another logarithm and
    another correlation. *)
Definition variant (ln_ : Q -> Q) (crossCorrelation_ : Mat Q -> Mat Q -> Mat N -> Q)
    : External := {|
  dft := @dft Fixture.pointwise;
  idft := @idft Fixture.pointwise;
  deconvolveFFT := @deconvolveFFT Fixture.pointwise;
  deconvolveIRLS := @deconvolveIRLS Fixture.pointwise;
  computeSalientEdgeMap := @computeSalientEdgeMap Fixture.pointwise;
  GaussianBlur := @GaussianBlur Fixture.pointwise;
  coherenceFilter := @coherenceFilter Fixture.pointwise;
  Sobel := @Sobel Fixture.pointwise;
  normedGradients := @normedGradients Fixture.pointwise;
  maxLoc := @maxLoc Fixture.pointwise;
  crossCorrelation := crossCorrelation_;
  ln := ln_;
  convertTo8U := @convertTo8U Fixture.pointwise;
  getMask := @getMask Fixture.pointwise;
  getMasks := @getMasks Fixture.pointwise;
  getLevelPeers := @getLevelPeers Fixture.pointwise;
  imread := @imread Fixture.pointwise
|}.

(** Two workers of the reconstruction that move in turn: each deconvolves
    two of the four regions and returns. *)
Definition alternating : list nat :=
  [0; 1; 0; 1; 0; 1; 0; 1; 0; 1; 0; 1; 0; 1; 0; 1; 0; 1; 0; 1; 0; 1]%nat.

(** Gradients that differ from [Fixture.edges] in the last column alone. *)
Definition edgesOutside : Mat Q :=
  [[1 # 4; -1 # 4; 0; 1];
   [-1 # 4; 1 # 2; -1 # 4; 1];
   [0; -1 # 4; 1 # 2; 1];
   [0; 0; -1 # 4; 1]].

(** * Properties *)

(** ** Complex arithmetic respects the equality of samples *)

#[global] Instance Cplx_eq_equivalence : Equivalence Cplx.eq.
Proof.
  split.
  - intros a. split; reflexivity.
  - intros a b [Hr Hi]. split; symmetry; assumption.
  - intros a b c [Hr Hi] [Hr' Hi']. split; etransitivity; eassumption.
Qed.

#[global] Instance Cplx_add_proper : Proper (Cplx.eq ==> Cplx.eq ==> Cplx.eq) Cplx.add.
Proof.
  intros [a1 a2] [b1 b2] [Ha1 Ha2] [c1 c2] [d1 d2] [Hc1 Hc2].
  unfold Cplx.eq, Cplx.add in *. simpl in *. split; rewrite ?Ha1, ?Ha2, ?Hc1, ?Hc2; reflexivity.
Qed.

#[global] Instance Cplx_div_proper : Proper (Cplx.eq ==> Cplx.eq ==> Cplx.eq) Cplx.div.
Proof.
  intros [a1 a2] [b1 b2] [Ha1 Ha2] [c1 c2] [d1 d2] [Hc1 Hc2].
  unfold Cplx.eq, Cplx.div in *. simpl in *. split; rewrite ?Ha1, ?Ha2, ?Hc1, ?Hc2; reflexivity.
Qed.

Lemma Cplx_add_comm a b : Cplx.eq (Cplx.add a b) (Cplx.add b a).
Proof. split; simpl; ring. Qed.

Lemma Cplx_add_assoc a b c :
  Cplx.eq (Cplx.add a (Cplx.add b c)) (Cplx.add (Cplx.add a b) c).
Proof. split; simpl; ring. Qed.

Lemma Cplx_add_zero_r a : Cplx.eq (Cplx.add a Cplx.zero) a.
Proof. split; simpl; ring. Qed.

(** The four terms of a sum over both views and both directions, in the
    order of the source and in the order of the views. *)
Lemma Cplx_add_interchange a b c d :
  Cplx.eq (Cplx.add (Cplx.add a b) (Cplx.add c d))
          (Cplx.add (Cplx.add a c) (Cplx.add b d)).
Proof. split; simpl; ring. Qed.

(** ** Matrices: reading what was built *)

Lemma lookup_seq_map {A : Type} (f : nat -> A) (n i : nat) :
  (i < n)%nat -> map f (seq 0 n) !! i = Some (f i).
Proof.
  intros Hi. change (map f (seq 0 n)) with (f <$> seq 0 n).
  rewrite list_lookup_fmap, lookup_seq_lt by lia. reflexivity.
Qed.

Lemma at_build {A : Type} (d : A) (h w : nat) (f : nat -> nat -> A) (y x : nat) :
  (y < h)%nat -> (x < w)%nat -> Mat.at_ d (Mat.build h w f) y x = f y x.
Proof.
  intros Hy Hx. unfold Mat.at_, Mat.build.
  rewrite lookup_seq_map by lia. simpl.
  rewrite lookup_seq_map by lia. reflexivity.
Qed.

Lemma rows_build {A : Type} (h w : nat) (f : nat -> nat -> A) :
  Mat.rows (Mat.build h w f) = h.
Proof. unfold Mat.rows, Mat.build. rewrite length_map, length_seq. reflexivity. Qed.

(** The delta image is 1 at the pixel (0, 0) and 0 elsewhere. *)
Lemma deltaFloat_at (h w y x : nat) :
  (y < h)%nat -> (x < w)%nat ->
  Mat.at_ 0 (deltaFloat h w) y x = if bool_decide (y = 0 /\ x = 0)%nat then 1 else 0.
Proof.
  intros Hy Hx. unfold deltaFloat, Mat.set_at, Mat.zeros.
  assert (H0 : Mat.build h w (fun _ _ : nat => 0) !! 0%nat = Some (map (fun _ : nat => 0) (seq 0 w))).
  { unfold Mat.build. rewrite lookup_seq_map by lia. reflexivity. }
  rewrite H0. unfold Mat.at_.
  destruct (decide (y = 0%nat)) as [->|Hy0].
  - rewrite list_lookup_insert_eq by (unfold Mat.build; rewrite length_map, length_seq; lia).
    simpl. destruct (decide (x = 0%nat)) as [->|Hx0].
    + rewrite list_lookup_insert_eq by (rewrite length_map, length_seq; lia).
      rewrite bool_decide_eq_true_2 by done. reflexivity.
    + rewrite list_lookup_insert_ne by done.
      rewrite lookup_seq_map by lia.
      rewrite bool_decide_eq_false_2 by (intros [_ ?]; done). reflexivity.
  - rewrite list_lookup_insert_ne by done.
    unfold Mat.build. rewrite lookup_seq_map by lia. simpl.
    rewrite lookup_seq_map by lia.
    rewrite bool_decide_eq_false_2 by (intros [? _]; done). reflexivity.
Qed.

(** ** C1: the kernel in the Fourier domain *)

Lemma kernelBin_specBin (Sx Sy Bx By : view -> complex) (D : complex) :
  Cplx.eq (kernelBin (Sx RIGHT) (Sy RIGHT) (Sx LEFT) (Sy LEFT)
                     (Bx RIGHT) (By RIGHT) (Bx LEFT) (By LEFT) D)
          (specBin Sx Sy Bx By D).
Proof.
  unfold kernelBin, specBin. apply Cplx_div_proper.
  - split; simpl; ring.
  - split; simpl; ring.
Qed.

Section SpectrumFacts.
Context `{External}.
Variable self : Members.

(** C1. Every bin [(y, x)] of the spectrum that [jointPSFEstimation] builds
    is the sum over both views of [conj(Sx_v) Bx_v + conj(Sy_v) By_v] divided
    by the sum over both views of [conj(Sx_v) Sx_v + conj(Sy_v) Sy_v] plus
    [gamma conj(D) D], where [gamma] is 1, the products are complex, [S_v]
    and [B_v] transform the salient edges and the masked gradients of the
    view, and [D] transforms the image that is 1 at (0, 0) and 0 elsewhere. *)
Theorem jointPSF_spectrum_bin (masks : Mat N * Mat N)
    (salientEdgesLeft salientEdgesRight : Mat Q * Mat Q) (y x : nat) :
  let h := Mat.rows (dft (fst salientEdgesLeft)) in
  let w := Mat.cols (dft (fst salientEdgesLeft)) in
  (y < h)%nat -> (x < w)%nat ->
  let F := fun m : Mat Q => Mat.at_ Cplx.zero (dft m) y x in
  let S := fun v => match v with LEFT => salientEdgesLeft | RIGHT => salientEdgesRight end in
  let B := fun v => match v with
                    | LEFT => regionGrads (gradsLeft self) (sel masks LEFT)
                    | RIGHT => regionGrads (gradsRight self) (sel masks RIGHT)
                    end in
  let impulse := deltaFloat h w in
  Cplx.eq (Mat.at_ Cplx.zero (jointPSFSpectrum self masks salientEdgesLeft salientEdgesRight) y x)
          (specBin (fun v => F (fst (S v))) (fun v => F (snd (S v)))
                   (fun v => F (fst (B v))) (fun v => F (snd (B v)))
                   (F impulse))
  /\ (forall y' x', (y' < h)%nat -> (x' < w)%nat ->
        Mat.at_ 0 impulse y' x' = if bool_decide (y' = 0 /\ x' = 0)%nat then 1 else 0).
Proof.
  intros h w Hy Hx F S B impulse. split.
  - unfold jointPSFSpectrum. rewrite at_build by assumption.
    apply (kernelBin_specBin (fun v => F (fst (S v))) (fun v => F (snd (S v)))
                             (fun v => F (fst (B v))) (fun v => F (snd (B v)))).
  - intros y' x' Hy' Hx'. apply deltaFloat_at; assumption.
Qed.

End SpectrumFacts.

(** On the 4 x 4 instance: the bin (1, 2). *)
Lemma jointPSF_spectrum_bin_witness :
  let self := Fixture.members FFT in
  let masks := (Fixture.mask 4, Fixture.mask 4) in
  let salient := (Fixture.edges, Fixture.image) in
  (1 < Mat.rows (Fixture.dft4 Fixture.edges))%nat /\
  (2 < Mat.cols (Fixture.dft4 Fixture.edges))%nat /\
  Cplx.eq (Mat.at_ Cplx.zero (jointPSFSpectrum (H := Fixture.external) self masks salient salient) 1 2)
          (mkC (1 # 9) (-2 # 9)).
Proof.
  assert (Hy : (1 < Mat.rows (Fixture.dft4 Fixture.edges))%nat) by (vm_compute; lia).
  assert (Hx : (2 < Mat.cols (Fixture.dft4 Fixture.edges))%nat) by (vm_compute; lia).
  split; [exact Hy|]. split; [exact Hx|].
  etransitivity.
  - exact (proj1 (jointPSF_spectrum_bin (H := Fixture.external) (Fixture.members FFT)
             (Fixture.mask 4, Fixture.mask 4) (Fixture.edges, Fixture.image)
             (Fixture.edges, Fixture.image) 1 2 Hy Hx)).
  - vm_compute. split; reflexivity.
Defined.

(** ** Matrices: regions, concatenation, sums *)

Lemma roi_Some {A : Type} (m r : Mat A) (x y w h : Z) :
  Mat.roi m x y w h = Some r ->
  r = if bool_decide (w = 0 \/ h = 0)%Z then []
      else map (fun row => take (Z.to_nat w) (drop (Z.to_nat x) row))
               (take (Z.to_nat h) (drop (Z.to_nat y) m)).
Proof. unfold Mat.roi. case_bool_decide; congruence. Qed.

Lemma roi_inside {A : Type} (m : Mat A) (x y w h : Z) :
  (0 <= x)%Z -> (0 < w)%Z -> (x + w <= Z.of_nat (Mat.cols m))%Z ->
  (0 <= y)%Z -> (0 < h)%Z -> (y + h <= Z.of_nat (Mat.rows m))%Z ->
  Mat.roi m x y w h =
    Some (map (fun row => take (Z.to_nat w) (drop (Z.to_nat x) row))
              (take (Z.to_nat h) (drop (Z.to_nat y) m))).
Proof.
  intros. unfold Mat.roi.
  rewrite bool_decide_eq_true_2 by lia.
  rewrite bool_decide_eq_false_2 by lia. reflexivity.
Qed.

Lemma roi_all {A : Type} (P : A -> Prop) (m r : Mat A) (x y w h : Z) :
  Mat.all P m -> Mat.roi m x y w h = Some r -> Mat.all P r.
Proof.
  intros Hm Hr. apply roi_Some in Hr. subst r. unfold Mat.all in *.
  case_bool_decide; [constructor|].
  apply Forall_fmap, Forall_take, Forall_drop.
  eapply Forall_impl; [exact Hm|]. intros row Hrow. simpl.
  apply Forall_take, Forall_drop, Hrow.
Qed.

Lemma hconcat_all {A : Type} (P : A -> Prop) (a b r : Mat A) :
  Mat.all P a -> Mat.all P b -> Mat.hconcat a b = Some r -> Mat.all P r.
Proof.
  unfold Mat.hconcat, Mat.all. intros Ha Hb Hr.
  case_bool_decide; [|discriminate]. injection Hr as <-.
  clear H. revert b Hb. induction Ha as [|ra a Hra Ha IH]; intros [|rb b] Hb; simpl;
    try constructor.
  - apply Forall_app. split; [assumption|]. apply (Forall_inv Hb).
  - apply IH. apply (Forall_inv_tail Hb).
Qed.

Lemma vconcat_all {A : Type} (P : A -> Prop) (a b r : Mat A) :
  Mat.all P a -> Mat.all P b -> Mat.vconcat a b = Some r -> Mat.all P r.
Proof.
  unfold Mat.vconcat, Mat.all. intros Ha Hb Hr.
  case_bool_decide; [|discriminate]. injection Hr as <-.
  apply Forall_app. split; assumption.
Qed.

Lemma threshold_tozero_nonneg (m : Mat Q) :
  Mat.all (fun v => 0 <= v) (Mat.threshold_tozero 0 m).
Proof.
  unfold Mat.all, Mat.threshold_tozero.
  apply Forall_fmap, Forall_true. intros row. simpl.
  apply Forall_fmap, Forall_true. intros v. simpl.
  destruct (Qlt_le_dec 0 v); lra.
Qed.

Lemma Qsum_nonneg (l : list Q) : Forall (fun v => 0 <= v) l -> 0 <= Mat.Qsum l.
Proof.
  induction 1 as [|v l Hv Hl IH]; simpl; [lra|].
  change (foldr Qplus 0 l) with (Mat.Qsum l). lra.
Qed.

Lemma sum_nonneg (m : Mat Q) : Mat.all (fun v => 0 <= v) m -> 0 <= Mat.sum m.
Proof.
  unfold Mat.sum. induction 1 as [|row m Hrow Hm IH]; simpl; [lra|].
  change (foldr Qplus 0 (map Mat.Qsum m)) with (Mat.Qsum (map Mat.Qsum m)).
  pose proof (Qsum_nonneg row Hrow). lra.
Qed.

Lemma Qsum_div (l : list Q) (s : Q) :
  Mat.Qsum (map (fun v => v / s) l) == Mat.Qsum l / s.
Proof.
  induction l as [|v l IH]; simpl.
  - unfold Qdiv. ring.
  - change (foldr Qplus 0 (map (fun v => v / s) l)) with (Mat.Qsum (map (fun v => v / s) l)).
    change (foldr Qplus 0 l) with (Mat.Qsum l).
    rewrite IH. unfold Qdiv. ring.
Qed.

Lemma sum_div (m : Mat Q) (s : Q) : Mat.sum (Mat.div m s) == Mat.sum m / s.
Proof.
  unfold Mat.sum, Mat.div. induction m as [|row m IH]; simpl.
  - unfold Qdiv. ring.
  - change (foldr Qplus 0 (map Mat.Qsum (map (map (fun v => v / s)) m)))
      with (Mat.Qsum (map Mat.Qsum (map (map (fun v => v / s)) m))).
    change (foldr Qplus 0 (map Mat.Qsum m)) with (Mat.Qsum (map Mat.Qsum m)).
    rewrite IH, Qsum_div. unfold Qdiv. ring.
Qed.

Lemma div_nonneg (m : Mat Q) (s : Q) :
  0 < s -> Mat.all (fun v => 0 <= v) m -> Mat.all (fun v => 0 <= v) (Mat.div m s).
Proof.
  intros Hs Hm. unfold Mat.all, Mat.div in *.
  apply Forall_fmap. eapply Forall_impl; [exact Hm|]. intros row Hrow. simpl.
  apply Forall_fmap. eapply Forall_impl; [exact Hrow|]. intros v Hv. simpl in *.
  apply Qle_shift_div_l; [assumption|]. rewrite Qmult_0_l. assumption.
Qed.

(** A matrix of non-negative samples that is divided by its sum, when the
    sum is not zero, has non-negative samples that sum to 1. *)
Lemma energy_preserving (m : Mat Q) :
  Mat.all (fun v => 0 <= v) m -> ~ Mat.sum m == 0 ->
  Mat.all (fun v => 0 <= v) (Mat.div m (Mat.sum m)) /\
  Mat.sum (Mat.div m (Mat.sum m)) == 1.
Proof.
  intros Hm Hs. pose proof (sum_nonneg m Hm) as H0.
  assert (0 < Mat.sum m) as Hpos.
  { destruct (Qlt_le_dec 0 (Mat.sum m)) as [|Hle]; [assumption|].
    exfalso. apply Hs. lra. }
  split.
  - apply div_nonneg; assumption.
  - rewrite sum_div. field. assumption.
Qed.

(** ** C2: from the corner-centred kernel to the PSF *)

(** Reading a list that was rotated to the left by [n]. *)
Lemma rot_lookup {A : Type} (l : list A) (n i : nat) :
  (n <= length l)%nat -> (i < length l)%nat ->
  (drop n l ++ take n l) !! i = l !! ((i + n) mod length l)%nat.
Proof.
  intros Hn Hi. destruct (decide (i < length l - n)%nat) as [Hlt|Hge].
  - rewrite lookup_app_l by (rewrite length_drop; lia).
    rewrite lookup_drop. f_equal. rewrite Nat.mod_small by lia. lia.
  - rewrite lookup_app_r by (rewrite length_drop; lia).
    rewrite length_drop, lookup_take_lt by lia. f_equal.
    replace (i + n)%nat with ((i + n - length l) + 1 * length l)%nat by lia.
    rewrite Nat.Div0.mod_add, Nat.mod_small by lia. lia.
Qed.

Lemma rect_row_length {A : Type} (m : Mat A) (y : nat) (row : list A) :
  Mat.rect m -> m !! y = Some row -> length row = Mat.cols m.
Proof.
  unfold Mat.rect. rewrite Forall_lookup. intros Hm Hy. exact (Hm y row Hy).
Qed.

Lemma zip_with_app_map {A : Type} (f g : list A -> list A) (l : Mat A) :
  zip_with app (map f l) (map g l) = map (fun row => f row ++ g row) l.
Proof. induction l as [|row l IH]; simpl; [reflexivity|]. rewrite IH. reflexivity. Qed.

Lemma map_ext_rect {A B : Type} (f g : list A -> B) (m l : Mat A) :
  Mat.rect m -> l ⊆ m -> (forall row, length row = Mat.cols m -> f row = g row) ->
  map f l = map g l.
Proof.
  intros Hm Hl Hfg. apply map_ext_in. intros row Hin. apply Hfg.
  unfold Mat.rect in Hm. rewrite Forall_forall in Hm. apply Hm, Hl.
  apply list_elem_of_In. exact Hin.
Qed.

Lemma at_threshold_tozero (m : Mat Q) (y x : nat) :
  Mat.at_ 0 (Mat.threshold_tozero 0 m) y x = tozero (Mat.at_ 0 m y x).
Proof.
  unfold Mat.at_, Mat.threshold_tozero.
  change (map (map (fun v => if Qlt_le_dec 0 v then v else 0)) m) with (map tozero <$> m).
  rewrite list_lookup_fmap. destruct (m !! y) as [row|]; simpl; [|reflexivity].
  change (map tozero row) with (tozero <$> row).
  rewrite list_lookup_fmap. destruct (row !! x); reflexivity.
Qed.

Lemma rows_map {A B : Type} (f : list A -> list B) (m : Mat A) :
  Mat.rows (map f m) = Mat.rows m.
Proof. apply length_map. Qed.

Lemma cols_map_map {A B : Type} (f : A -> B) (m : Mat A) :
  Mat.cols (map (map f) m) = Mat.cols m.
Proof. destruct m; simpl; [reflexivity|apply length_map]. Qed.

Lemma rect_map_map {A B : Type} (f : A -> B) (m : Mat A) :
  Mat.rect m -> Mat.rect (map (map f) m).
Proof.
  unfold Mat.rect. rewrite cols_map_map. intros Hm.
  apply Forall_fmap. eapply Forall_impl; [exact Hm|].
  intros row Hrow. simpl. rewrite length_map. exact Hrow.
Qed.

(** Reading a matrix whose rows were rotated by [a] and whose columns were
    rotated by [b]. *)
Lemma at_rotated (m : Mat Q) (a b r c : nat) :
  Mat.rect m -> (a <= Mat.rows m)%nat -> (b <= Mat.cols m)%nat ->
  (r < Mat.rows m)%nat -> (c < Mat.cols m)%nat ->
  Mat.at_ 0 (map (fun row => drop b row ++ take b row) (drop a m ++ take a m)) r c =
  Mat.at_ 0 m ((r + a) mod Mat.rows m) ((c + b) mod Mat.cols m).
Proof.
  intros Hm Ha Hb Hr Hc. unfold Mat.at_.
  change (map (fun row => drop b row ++ take b row) (drop a m ++ take a m))
    with ((fun row : list Q => drop b row ++ take b row) <$> (drop a m ++ take a m)).
  rewrite list_lookup_fmap, rot_lookup by assumption.
  fold (Mat.rows m).
  destruct (m !! ((r + a) mod Mat.rows m)%nat) as [row|] eqn:Hrow; simpl; [|reflexivity].
  pose proof (rect_row_length _ _ _ Hm Hrow) as Hlen.
  rewrite rot_lookup by lia. rewrite Hlen. reflexivity.
Qed.

(** Reading the window of [w] columns and [h] rows at the origin. *)
Lemma at_window (m : Mat Q) (w h r c : nat) :
  (r < h)%nat -> (c < w)%nat ->
  Mat.at_ 0 (map (fun row => take w (drop 0 row)) (take h (drop 0 m))) r c = Mat.at_ 0 m r c.
Proof.
  intros Hr Hc. unfold Mat.at_. rewrite drop_0.
  change (map (fun row => take w (drop 0 row)) (take h m))
    with ((fun row : list Q => take w (drop 0 row)) <$> take h m).
  rewrite list_lookup_fmap, lookup_take_lt by assumption.
  destruct (m !! r) as [row|]; simpl; [|reflexivity].
  rewrite drop_0, lookup_take_lt by assumption. reflexivity.
Qed.

Section KernelFacts.
Context `{External}.
Variable self : Members.

(** The slices are swapped by rotating the rows, and every row, so that the
    last [n] come first. *)
Lemma swapQuadrants_rotates (kernel : Mat Q) (n : nat) :
  Mat.rect kernel -> psfWidth self = Z.of_nat (2 * n + 1) ->
  (0 < n)%nat -> (n < Mat.rows kernel)%nat -> (n < Mat.cols kernel)%nat ->
  swapQuadrants self kernel =
    Some (map (fun row => drop (Mat.cols kernel - n) row ++ take (Mat.cols kernel - n) row)
              (drop (Mat.rows kernel - n) kernel ++ take (Mat.rows kernel - n) kernel)).
Proof.
  intros Hrect Hpw Hn Hy Hx. unfold swapQuadrants.
  assert (Z.quot (psfWidth self - 1) 2 = Z.of_nat n) as ->.
  { rewrite Hpw. replace (Z.of_nat (2 * n + 1) - 1)%Z with (Z.of_nat n * 2)%Z by lia.
    apply Z.quot_mul. lia. }
  set (x := Mat.cols kernel) in *. set (y := Mat.rows kernel) in *.
  rewrite !roi_inside by (fold x; fold y; lia). simpl.
  replace (Z.to_nat (Z.of_nat x - Z.of_nat n)) with (x - n)%nat by lia.
  replace (Z.to_nat (Z.of_nat y - Z.of_nat n)) with (y - n)%nat by lia.
  rewrite !Nat2Z.id. change (Z.to_nat 0) with 0%nat. rewrite !drop_0.
  assert (take n (drop (y - n) kernel) = drop (y - n) kernel) as ->.
  { apply take_ge. rewrite length_drop. fold (Mat.rows kernel). fold y. lia. }
  unfold Mat.hconcat.
  rewrite !bool_decide_eq_true_2 by (unfold Mat.rows; rewrite !length_map; reflexivity).
  simpl. rewrite !zip_with_app_map.
  assert (forall l : Mat Q, l ⊆ kernel ->
            map (fun row => take n (drop (x - n) row) ++ take (x - n) (drop 0 row)) l =
            map (fun row => drop (x - n) row ++ take (x - n) row) l) as Hrows.
  { intros l Hl. apply (map_ext_rect _ _ kernel); [assumption..|].
    intros row Hrow. fold x in Hrow. rewrite drop_0. f_equal.
    apply take_ge. rewrite length_drop. lia. }
  rewrite !Hrows by (apply subseteq_drop || apply subseteq_take).
  unfold Mat.vconcat. rewrite bool_decide_eq_true_2.
  - rewrite <- map_app. reflexivity.
  - assert (forall l : Mat Q, l ⊆ kernel -> l <> [] ->
              Mat.cols (map (fun row => drop (x - n) row ++ take (x - n) row) l) = x) as Hcols.
    { intros [|row l] Hl Hne; [done|]. simpl.
      assert (length row = x) as Hrow.
      { unfold Mat.rect in Hrect. rewrite Forall_forall in Hrect. apply Hrect, Hl. left. }
      rewrite length_app, length_drop, length_take. lia. }
    rewrite !Hcols; [reflexivity|apply subseteq_take| |apply subseteq_drop|].
    + intros Hnil. apply (f_equal length) in Hnil. rewrite length_take in Hnil.
      fold (Mat.rows kernel) in Hnil. fold y in Hnil. simpl in Hnil. lia.
    + intros Hnil. apply (f_equal length) in Hnil. rewrite length_drop in Hnil.
      fold (Mat.rows kernel) in Hnil. fold y in Hnil. simpl in Hnil. lia.
Qed.

(** The cut kernel: a window of [psfWidth] by [psfWidth] samples in which the
    sample (r, c) is the sample of the corner-centred kernel that lies
    [(psfWidth - 1) / 2] rows and columns before it, cyclically, with the
    negative values erased. *)
Lemma cutKernel_window (kernel : Mat Q) (n : nat) :
  Mat.rect kernel -> psfWidth self = Z.of_nat (2 * n + 1) -> (0 < n)%nat ->
  (2 * n + 1 <= Mat.rows kernel)%nat -> (2 * n + 1 <= Mat.cols kernel)%nat ->
  exists cut,
    cutKernel self kernel = Some cut /\
    Mat.rows cut = (2 * n + 1)%nat /\
    Forall (fun row => length row = (2 * n + 1)%nat) cut /\
    forall r c, (r < 2 * n + 1)%nat -> (c < 2 * n + 1)%nat ->
      Mat.at_ 0 cut r c =
      tozero (Mat.at_ 0 kernel ((r + (Mat.rows kernel - n)) mod Mat.rows kernel)
                               ((c + (Mat.cols kernel - n)) mod Mat.cols kernel)).
Proof.
  intros Hrect Hpw Hn Hy Hx. unfold cutKernel.
  pose proof (rect_map_map tozero kernel Hrect) as HrectT.
  change (map (map tozero) kernel) with (Mat.threshold_tozero 0 kernel) in HrectT.
  assert (Mat.rows (Mat.threshold_tozero 0 kernel) = Mat.rows kernel) as HrowsT
    by apply rows_map.
  assert (Mat.cols (Mat.threshold_tozero 0 kernel) = Mat.cols kernel) as HcolsT
    by apply (cols_map_map tozero).
  rewrite (swapQuadrants_rotates _ n) by (rewrite ?HrowsT, ?HcolsT; assumption || lia).
  rewrite HrowsT, HcolsT. simpl.
  set (T := Mat.threshold_tozero 0 kernel) in *.
  set (x := Mat.cols kernel) in *. set (y := Mat.rows kernel) in *.
  set (swapped := map (fun row => drop (x - n) row ++ take (x - n) row)
                      (drop (y - n) T ++ take (y - n) T)).
  assert (Mat.rows swapped = y) as Hrows.
  { unfold swapped. rewrite rows_map. unfold Mat.rows.
    rewrite length_app, length_drop, length_take. fold (Mat.rows T). lia. }
  assert (Forall (fun row => length row = x) swapped) as Hlens.
  { unfold swapped. apply Forall_fmap, Forall_app. unfold Mat.rect in HrectT.
    rewrite HcolsT in HrectT. split; [apply Forall_drop|apply Forall_take];
      (eapply Forall_impl; [exact HrectT|]); intros row Hrow; simpl in Hrow; simpl;
      rewrite length_app, length_drop, length_take; lia. }
  assert (Mat.cols swapped = x) as Hcols.
  { destruct swapped as [|row rest]; [simpl in Hrows; lia|]. exact (Forall_inv Hlens). }
  rewrite roi_inside by (rewrite ?Hrows, ?Hcols, ?Hpw; lia).
  eexists. split; [reflexivity|]. rewrite Hpw, Nat2Z.id.
  split; [|split].
  - rewrite rows_map. unfold Mat.rows. rewrite length_take, drop_0.
    fold (Mat.rows swapped). lia.
  - apply Forall_fmap, Forall_take. rewrite drop_0.
    eapply Forall_impl; [exact Hlens|]. intros row Hrow. simpl in Hrow.
    simpl. rewrite length_take, drop_0. lia.
  - intros r c Hr Hc. change (Z.to_nat 0) with 0%nat.
    rewrite at_window by assumption. unfold swapped.
    rewrite at_rotated by (rewrite ?HrowsT, ?HcolsT; assumption || lia).
    rewrite HrowsT, HcolsT. apply at_threshold_tozero.
Qed.

(** Whatever the cut kernel is, its samples are not negative. *)
Lemma cutKernel_nonneg (kernel cut : Mat Q) :
  cutKernel self kernel = Some cut -> Mat.all (fun v => 0 <= v) cut.
Proof.
  unfold cutKernel. intros Hcut.
  pose proof (threshold_tozero_nonneg kernel) as HT.
  destruct (swapQuadrants self (Mat.threshold_tozero 0 kernel)) as [swapped|] eqn:Hswap;
    simpl in Hcut; [|discriminate].
  eapply roi_all; [|exact Hcut].
  unfold swapQuadrants in Hswap.
  repeat match type of Hswap with
         | (?m ≫= _) = Some _ =>
             let q := fresh "q" in
             let Hq := fresh "Hq" in
             destruct m as [q|] eqn:Hq; simpl in Hswap; [|discriminate]
         end.
  eapply vconcat_all; [| |exact Hswap].
  - eapply hconcat_all; [| |eassumption]; eapply roi_all; eassumption.
  - eapply hconcat_all; [| |eassumption]; eapply roi_all; eassumption.
Qed.

(** C2. After the inverse transform, [jointPSFEstimation] erases the negative
    values, swaps the slices so that the origin of the corner-centred kernel
    comes to the centre, cuts the window of [psfWidth] by [psfWidth] samples
    and divides by the sum: the PSF it returns has that size and, when the
    sum of the window is not zero, its samples are not negative and sum to 1. *)
Theorem jointPSF_kernel_normalized (K : Mat complex) (n : nat) :
  let kernel := idft K in
  let y := Mat.rows kernel in
  let x := Mat.cols kernel in
  Mat.rect kernel -> psfWidth self = Z.of_nat (2 * n + 1) -> (0 < n)%nat ->
  (2 * n + 1 <= y)%nat -> (2 * n + 1 <= x)%nat ->
  exists cut,
    jointPSFKernel self K = Some (Mat.div cut (Mat.sum cut)) /\
    Mat.rows cut = (2 * n + 1)%nat /\
    Forall (fun row => length row = (2 * n + 1)%nat) cut /\
    (forall r c, (r < 2 * n + 1)%nat -> (c < 2 * n + 1)%nat ->
       Mat.at_ 0 cut r c =
       tozero (Mat.at_ 0 kernel ((r + (y - n)) mod y) ((c + (x - n)) mod x))) /\
    (~ Mat.sum cut == 0 ->
       Mat.all (fun v => 0 <= v) (Mat.div cut (Mat.sum cut)) /\
       Mat.sum (Mat.div cut (Mat.sum cut)) == 1).
Proof.
  intros kernel y x Hrect Hpw Hn Hy Hx.
  destruct (cutKernel_window kernel n Hrect Hpw Hn Hy Hx) as (cut & Hcut & Hrows & Hlens & Hat).
  exists cut. split; [|split; [|split; [|split]]]; try assumption.
  - unfold jointPSFKernel. fold kernel. rewrite Hcut. reflexivity.
  - intros Hsum. apply energy_preserving; [|assumption].
    eapply cutKernel_nonneg. exact Hcut.
Qed.

End KernelFacts.

(** On the 4 x 4 instance, with a PSF of 3 x 3 samples. *)
Lemma jointPSF_kernel_normalized_witness :
  exists cut,
    jointPSFKernel (H := Fixture.external) (Fixture.members FFT)
      (Fixture.dft4 Fixture.image) = Some (Mat.div cut (Mat.sum cut)) /\
    Mat.rows cut = 3%nat /\
    Forall (fun row => length row = 3%nat) cut /\
    (forall r c, (r < 3)%nat -> (c < 3)%nat ->
       Mat.at_ 0 cut r c =
       tozero (Mat.at_ 0 (Fixture.idft4 (Fixture.dft4 Fixture.image))
                 ((r + (4 - 1)) mod 4) ((c + (4 - 1)) mod 4))) /\
    (~ Mat.sum cut == 0 ->
       Mat.all (fun v => 0 <= v) (Mat.div cut (Mat.sum cut)) /\
       Mat.sum (Mat.div cut (Mat.sum cut)) == 1).
Proof.
  apply (jointPSF_kernel_normalized (H := Fixture.external) (Fixture.members FFT)
           (Fixture.dft4 Fixture.image) 1).
  - unfold Mat.rect. vm_compute. repeat constructor.
  - reflexivity.
  - lia.
  - vm_compute. lia.
  - vm_compute. lia.
Defined.

(** ** The members after a store *)

Lemma history_logs (evs : list event) (st : State) :
  history (logs evs st) = rev evs ++ history st.
Proof. reflexivity. Qed.

Lemma psf_store_psf_eq (id : Z) (k : Mat Q) (st : State) :
  psf (regionTree (store_psf id k st) !!! id) = k.
Proof. unfold store_psf. simpl. rewrite lookup_total_insert_eq. reflexivity. Qed.

Lemma node_store_psf_ne (id id' : Z) (k : Mat Q) (st : State) :
  id <> id' -> regionTree (store_psf id k st) !!! id' = regionTree st !!! id'.
Proof. intros Hne. unfold store_psf. simpl. rewrite lookup_total_insert_ne; done. Qed.

Lemma psf_store_entropy (id id' : Z) (e : Q) (st : State) :
  psf (regionTree (store_entropy id e st) !!! id') = psf (regionTree st !!! id').
Proof.
  unfold store_entropy. simpl. destruct (decide (id = id')) as [->|Hne].
  - rewrite lookup_total_insert_eq. reflexivity.
  - rewrite lookup_total_insert_ne; done.
Qed.

Lemma children_store_psf (id id' : Z) (k : Mat Q) (st : State) :
  children (regionTree (store_psf id k st) !!! id') = children (regionTree st !!! id').
Proof.
  unfold store_psf. simpl. destruct (decide (id = id')) as [->|Hne].
  - rewrite lookup_total_insert_eq. reflexivity.
  - rewrite lookup_total_insert_ne; done.
Qed.

Lemma children_store_entropy (id id' : Z) (e : Q) (st : State) :
  children (regionTree (store_entropy id e st) !!! id') = children (regionTree st !!! id').
Proof.
  unfold store_entropy. simpl. destruct (decide (id = id')) as [->|Hne].
  - rewrite lookup_total_insert_eq. reflexivity.
  - rewrite lookup_total_insert_ne; done.
Qed.

Lemma regionTree_logs (evs : list event) (st : State) :
  regionTree (logs evs st) = regionTree st.
Proof. reflexivity. Qed.

Lemma regionTree_pushChildren `{External} (cid1 cid2 : Z) (st : State) :
  regionTree (pushChildren cid1 cid2 st) = regionTree st.
Proof. reflexivity. Qed.

(** ** C3: the initial PSF of a child *)

Lemma masks_test (masks : Mat N * Mat N) :
  bool_decide (Mat.Nsum (sel masks LEFT) <> 0%N)
  && bool_decide (Mat.Nsum (sel masks RIGHT) <> 0%N)
  = negb (bool_decide (emptyMasks masks)).
Proof.
  unfold emptyMasks. repeat case_bool_decide; simpl; try reflexivity; exfalso; tauto.
Qed.

Section ChildFacts.
Context `{External}.
Variable self : Members.

Lemma estimateChildPSF_calls (parentPSF : Mat Q) (masks : Mat N * Mat N) :
  estimateChildPSF self parentPSF masks =
  ([deblurCall self parentPSF masks LEFT; deblurCall self parentPSF masks RIGHT;
    CallSalientEdgeMap (deblurred self parentPSF masks LEFT) (sel masks LEFT);
    CallSalientEdgeMap (deblurred self parentPSF masks RIGHT) (sel masks RIGHT);
    CallJointPSF masks (salientEdges self parentPSF masks LEFT)
                       (salientEdges self parentPSF masks RIGHT)],
   jointPSFEstimation self masks (salientEdges self parentPSF masks LEFT)
                                 (salientEdges self parentPSF masks RIGHT)).
Proof.
  unfold estimateChildPSF, deblurCall, salientEdges, deblurred.
  destruct (deconvAlgoPSFSelection self); reflexivity.
Qed.

Lemma initialChildPSF_expected (id cid : Z) (st : State) :
  initialChildPSF self id cid st =
  (k ← expectedPSF self (psf (regionTree st !!! id)) (getMasks cid);
   Some (store_psf cid k
           (logs (expectedCalls self (psf (regionTree st !!! id)) (getMasks cid)) st))).
Proof.
  unfold initialChildPSF, expectedPSF, expectedCalls.
  rewrite masks_test, estimateChildPSF_calls.
  destruct (decide (emptyMasks (getMasks cid))) as [He|He].
  - rewrite bool_decide_eq_true_2 by assumption. simpl.
    destruct st; reflexivity.
  - rewrite bool_decide_eq_false_2 by assumption. reflexivity.
Qed.

(** C3. When [midLevelKernelEstimationNode] works on an internal node, each
    child whose mask is empty in the left or in the right view (the sum of
    the mask is zero) gets exactly the PSF of the parent and no numeric call
    is made for it; for any other child [estimateChildPSF] deblurs both
    views with the PSF of the parent and [jointPSFEstimation] gives the PSF
    of the child.  The node raises when an estimation raises. *)
Theorem estimation_node_children (id cid1 cid2 : Z) (parentPSF : Mat Q) (st : State) :
  children (regionTree st !!! id) = (cid1, cid2) ->
  psf (regionTree st !!! id) = parentPSF ->
  cid1 <> (-1)%Z -> cid2 <> (-1)%Z -> cid1 <> id -> cid1 <> cid2 ->
  match expectedPSF self parentPSF (getMasks cid1),
        expectedPSF self parentPSF (getMasks cid2) with
  | Some k1, Some k2 =>
      exists st',
        estimationNode self id st = Some st' /\
        psf (regionTree st' !!! cid1) = k1 /\
        psf (regionTree st' !!! cid2) = k2 /\
        history st' =
          rev (expectedCalls self parentPSF (getMasks cid1) ++ [PsfStored cid1] ++
               expectedCalls self parentPSF (getMasks cid2) ++
               [PsfStored cid2; EntropyStored cid1; EntropyStored cid2;
                Pushed cid1; Pushed cid2]) ++ history st
  | _, _ => estimationNode self id st = None
  end.
Proof.
  intros Hchildren Hparent Hc1 Hc2 Hid H12. unfold estimationNode.
  rewrite Hchildren. simpl. rewrite !bool_decide_eq_true_2 by assumption. simpl.
  rewrite initialChildPSF_expected, Hparent.
  destruct (expectedPSF self parentPSF (getMasks cid1)) as [k1|]; simpl; [|reflexivity].
  rewrite initialChildPSF_expected.
  rewrite node_store_psf_ne by assumption. simpl. rewrite Hparent.
  destruct (expectedPSF self parentPSF (getMasks cid2)) as [k2|]; simpl; [|reflexivity].
  eexists. split; [reflexivity|]. split; [|split].
  - rewrite regionTree_pushChildren. unfold childEntropy.
    rewrite psf_store_entropy, psf_store_entropy, node_store_psf_ne by done.
    rewrite regionTree_logs. apply psf_store_psf_eq.
  - rewrite regionTree_pushChildren. unfold childEntropy.
    rewrite psf_store_entropy, psf_store_entropy. apply psf_store_psf_eq.
  - simpl. repeat (rewrite rev_app_distr; simpl).
    repeat (rewrite <- app_assoc; simpl). reflexivity.
Qed.

End ChildFacts.

(** On the 4 x 4 instance, at the top-level node: the node 4 appears in both
    views, the node 5 in the left view alone. *)
Lemma estimation_node_children_witness :
  let self := Fixture.members FFT in
  match expectedPSF (H := Fixture.pointwise) self Fixture.kernel3 (@getMasks Fixture.pointwise 4%Z),
        expectedPSF (H := Fixture.pointwise) self Fixture.kernel3 (@getMasks Fixture.pointwise 5%Z) with
  | Some k1, Some k2 =>
      exists st',
        estimationNode (H := Fixture.pointwise) self 6 Fixture.state = Some st' /\
        psf (regionTree st' !!! 4%Z) = k1 /\
        psf (regionTree st' !!! 5%Z) = k2 /\
        history st' =
          rev (expectedCalls (H := Fixture.pointwise) self Fixture.kernel3 (@getMasks Fixture.pointwise 4%Z)
               ++ [PsfStored 4] ++
               expectedCalls (H := Fixture.pointwise) self Fixture.kernel3 (@getMasks Fixture.pointwise 5%Z) ++
               [PsfStored 5; EntropyStored 4; EntropyStored 5; Pushed 4; Pushed 5])
          ++ history Fixture.state
  | _, _ => estimationNode (H := Fixture.pointwise) self 6 Fixture.state = None
  end.
Proof.
  apply (estimation_node_children (H := Fixture.pointwise) (Fixture.members FFT)
           6 4 5 Fixture.kernel3 Fixture.state); (reflexivity || discriminate).
Defined.

(** There, the node 5 inherits the PSF of its parent, and the only numeric
    calls are the five calls for the node 4. *)
Example estimation_node_fixture :
  exists st',
    estimationNode (H := Fixture.pointwise) (Fixture.members FFT) 6 Fixture.state = Some st' /\
    psf (regionTree st' !!! 5%Z) = Fixture.kernel3 /\
    remainingNodes st' = [4%Z; 5%Z] /\
    length (history st') = 11%nat.
Proof. vm_compute. eexists. split; [reflexivity|]. repeat split; reflexivity. Qed.

(** ** C4: the reliability of a PSF *)

Lemma foldl_Qsum {A : Type} (f : A -> Q) (l : list A) (a : Q) :
  foldl (fun s x => s + f x) a l == a + Mat.Qsum (map f l).
Proof.
  revert a. induction l as [|x l IH]; intros a; simpl.
  - ring.
  - rewrite IH. change (foldr Qplus 0 (map f l)) with (Mat.Qsum (map f l)). ring.
Qed.

Section ReliabilityFacts.
Context `{External}.


End ReliabilityFacts.


(** ** C5: the candidates and the winner *)

Section SelectionFacts.
Context `{External}.
Variable self : Members.

Lemma psfSelection_loop_cons (id : Z) (c : Mat Q) (rest : list (Mat Q)) (i : nat)
    (minEnergy : Q) (winner : nat) (st : State) :
  psfSelection_loop self id (c :: rest) i minEnergy winner st =
  if Qlt_le_dec (selectionEnergy self id c) minEnergy
  then psfSelection_loop self id rest (S i) (selectionEnergy self id c) i (afterLead self id c st)
  else psfSelection_loop self id rest (S i) minEnergy winner
         (logs [snd (selectionDeconv self c (getMask id LEFT))] st).
Proof. reflexivity. Qed.

(** What the loop of [psfSelection] returns: the winner it was given, when
    no candidate has less than [minEnergy]; otherwise the first of the
    candidates of least energy. *)
Lemma psfSelection_loop_winner (id : Z) (candidates : list (Mat Q)) :
  forall (i : nat) (minEnergy : Q) (winner : nat) (st : State),
  (fst (psfSelection_loop self id candidates i minEnergy winner st) = winner /\
   Forall (fun c => minEnergy <= selectionEnergy self id c) candidates) \/
  (exists j c,
     fst (psfSelection_loop self id candidates i minEnergy winner st) = (i + j)%nat /\
     candidates !! j = Some c /\ selectionEnergy self id c < minEnergy /\
     Forall (fun c' => selectionEnergy self id c <= selectionEnergy self id c') candidates /\
     forall k c', (k < j)%nat -> candidates !! k = Some c' ->
                  selectionEnergy self id c < selectionEnergy self id c').
Proof.
  induction candidates as [|c rest IH]; intros i minEnergy winner st.
  - left. split; [reflexivity|constructor].
  - rewrite psfSelection_loop_cons.
    destruct (Qlt_le_dec (selectionEnergy self id c) minEnergy) as [Hlt|Hle].
    + destruct (IH (S i) (selectionEnergy self id c) i (afterLead self id c st))
        as [[Hw Hall]|(j & c2 & Hw & Hj & Hc2 & Hall & Hfirst)]; right.
      * exists 0%nat, c. split; [rewrite Hw; lia|]. split; [reflexivity|].
        split; [assumption|]. split; [constructor; [apply Qle_refl|assumption]|].
        intros k c' Hk. lia.
      * exists (S j), c2. split; [rewrite Hw; lia|]. split; [exact Hj|].
        split; [eapply Qlt_trans; eassumption|].
        split; [constructor; [apply Qlt_le_weak; assumption|assumption]|].
        intros [|k] c' Hk Hc'; simpl in Hc'.
        -- injection Hc' as <-. assumption.
        -- apply (Hfirst k); [lia|assumption].
    + destruct (IH (S i) minEnergy winner
                  (logs [snd (selectionDeconv self c (getMask id LEFT))] st))
        as [[Hw Hall]|(j & c2 & Hw & Hj & Hc2 & Hall & Hfirst)].
      * left. split; [assumption|]. constructor; assumption.
      * right. exists (S j), c2. split; [rewrite Hw; lia|]. split; [exact Hj|].
        split; [assumption|].
        split; [constructor; [apply Qlt_le_weak; eapply Qlt_le_trans; eassumption|assumption]|].
        intros [|k] c' Hk Hc'; simpl in Hc'.
        -- injection Hc' as <-. eapply Qlt_le_trans; eassumption.
        -- apply (Hfirst k); [lia|assumption].
Qed.

Lemma regionTree_psfSelection_loop (id : Z) (candidates : list (Mat Q)) :
  forall (i : nat) (minEnergy : Q) (winner : nat) (st : State),
  regionTree (snd (psfSelection_loop self id candidates i minEnergy winner st)) =
  regionTree st.
Proof.
  induction candidates as [|c rest IH]; intros i minEnergy winner st; [reflexivity|].
  rewrite psfSelection_loop_cons.
  destruct (Qlt_le_dec _ _); rewrite IH; [|reflexivity].
  unfold afterLead. destruct (_ && _); reflexivity.
Qed.

(** C5. The candidates of a child are its own PSF, the PSF of its parent and,
    only when the sibling is reliable, the PSF of the sibling, in this
    order.  The winner of [psfSelection] is one of them and its energy is
    at most the energy of the own PSF; as the energies are at most 2 (the
    correlation is at least -1), no candidate has less energy than the
    winner and every candidate before it has more. *)
Theorem psfSelection_winner (t : gmap Z node) (id sid : Z) (st : State) :
  let E := selectionEnergy self id in
  let own := psf (t !!! id) in
  let candidates := candidateSelection t id sid in
  candidates =
    own :: psf (t !!! parent (t !!! id)) ::
    (if isReliablePSF t sid then [psf (t !!! sid)] else []) /\
  exists w,
    candidates !! w = Some (fst (psfSelection self candidates id st)) /\
    E (fst (psfSelection self candidates id st)) <= E own /\
    (Forall (fun c => E c <= 2) candidates ->
       Forall (fun c => E (fst (psfSelection self candidates id st)) <= E c) candidates /\
       forall k c, (k < w)%nat -> candidates !! k = Some c ->
                   E (fst (psfSelection self candidates id st)) < E c).
Proof.
  intros E own candidates.
  assert (candidates = own :: psf (t !!! parent (t !!! id)) ::
            (if isReliablePSF t sid then [psf (t !!! sid)] else [])) as Hcands.
  { unfold candidates, candidateSelection. destruct (isReliablePSF t sid); reflexivity. }
  split; [exact Hcands|].
  unfold psfSelection.
  pose proof (psfSelection_loop_winner id candidates 0 2 0%nat st) as Hloop.
  destruct (psfSelection_loop self id candidates 0 2 0%nat st) as [w st'].
  cbn [fst] in Hloop |- *.
  destruct Hloop as [[-> Hall]|(j & c & -> & Hj & Hc & Hall & Hfirst)].
  - exists 0%nat. rewrite Hcands. cbn [lookup list_lookup default fst].
    split; [reflexivity|]. split; [apply Qle_refl|].
    intros Hle. split; [|intros k c Hk; lia].
    pose proof (Forall_inv Hle) as Hown.
    rewrite <- Hcands. eapply Forall_impl; [exact Hall|]. intros c Hc.
    unfold Datatypes.id. cbv beta in Hc, Hown. eapply Qle_trans; [exact Hown|exact Hc].
  - exists j. rewrite Nat.add_0_l, Hj. cbn [default fst]. split; [reflexivity|].
    split; [|intros _; split; assumption].
    rewrite Hcands in Hall. exact (Forall_inv Hall).
Qed.

(** In the second pass a node stores, for each child, the winner among the
    candidates that were read before either store. *)
Lemma refinementNode_stores_winners (id cid1 cid2 : Z) (st : State) :
  children (regionTree st !!! id) = (cid1, cid2) ->
  cid1 <> (-1)%Z -> cid2 <> (-1)%Z -> cid1 <> cid2 ->
  let candiates1 := candidateSelection (regionTree st) cid1 cid2 in
  let candiates2 := candidateSelection (regionTree st) cid2 cid1 in
  let st1 := snd (psfSelection self candiates1 cid1 st) in
  psf (regionTree (refinementNode self id st) !!! cid1) =
    fst (psfSelection self candiates1 cid1 st) /\
  psf (regionTree (refinementNode self id st) !!! cid2) =
    fst (psfSelection self candiates2 cid2 st1).
Proof.
  intros Hchildren Hc1 Hc2 H12 candiates1 candiates2 st1.
  unfold refinementNode. rewrite Hchildren. simpl.
  rewrite !bool_decide_eq_true_2 by assumption. simpl.
  fold candiates1 candiates2.
  destruct (psfSelection self candiates1 cid1 st) as [winner0 st1'] eqn:H1.
  subst st1. simpl.
  destruct (psfSelection self candiates2 cid2 st1') as [winner1 st2] eqn:H2.
  cbn [fst]. split; rewrite regionTree_pushChildren.
  - rewrite node_store_psf_ne by done. apply psf_store_psf_eq.
  - apply psf_store_psf_eq.
Qed.

End SelectionFacts.

(** On the seven nodes, for the leaf 0 beside the reliable leaf 1: the
    candidates have the energies 3/4, 1/2 and 1/2, and the PSF of the parent
    wins over the sibling that ties with it. *)
Lemma psfSelection_winner_witness :
  Forall (fun c => selectionEnergy (H := Fixture.pointwise) (Fixture.members FFT) 0 c <= 2)
         (candidateSelection (H := Fixture.pointwise) Fixture.estimatedTree 0 1) /\
  exists w,
    candidateSelection (H := Fixture.pointwise) Fixture.estimatedTree 0 1 !! w =
      Some (fst (psfSelection (H := Fixture.pointwise) (Fixture.members FFT)
                   (candidateSelection (H := Fixture.pointwise) Fixture.estimatedTree 0 1)
                   0 Fixture.estimated)).
Proof.
  split.
  - replace (candidateSelection (H := Fixture.pointwise) Fixture.estimatedTree 0 1)
      with [Fixture.kernel3'; Fixture.kernel3; Fixture.kernel3] by (vm_compute; reflexivity).
    repeat (apply List.Forall_cons; [vm_compute; discriminate|]). apply List.Forall_nil.
  - destruct (psfSelection_winner (H := Fixture.pointwise) (Fixture.members FFT)
                Fixture.estimatedTree 0 1 Fixture.estimated) as [_ [w [Hw _]]].
    exists w. exact Hw.
Defined.

Example psfSelection_fixture :
  candidateSelection (H := Fixture.pointwise) Fixture.estimatedTree 0 1 =
    [Fixture.kernel3'; Fixture.kernel3; Fixture.kernel3] /\
  map (fun c => Qred (selectionEnergy (H := Fixture.pointwise) (Fixture.members FFT) 0 c))
      [Fixture.kernel3'; Fixture.kernel3; Fixture.kernel3] = [3 # 4; 1 # 2; 1 # 2] /\
  psfSelection_loop (H := Fixture.pointwise) (Fixture.members FFT) 0
    [Fixture.kernel3'; Fixture.kernel3; Fixture.kernel3] 0 2 0 Fixture.estimated
  = (1%nat, snd (psfSelection_loop (H := Fixture.pointwise) (Fixture.members FFT) 0
             [Fixture.kernel3'; Fixture.kernel3; Fixture.kernel3] 0 2 0 Fixture.estimated)).
Proof. split; [|split]; vm_compute; reflexivity. Qed.

(** ** C8: a child is stored before it is pushed *)

Lemma ordered_quiet (needEntropy : bool) (initial : list Z) (new evs : list event) :
  Forall quiet new -> ordered needEntropy initial evs ->
  ordered needEntropy initial (new ++ evs).
Proof.
  induction 1 as [|e new He Hnew IH]; intros Hevs; simpl; [assumption|].
  split; [|apply IH; assumption]. destruct e; simpl in He; tauto.
Qed.

Lemma ordered_pushed (needEntropy : bool) (initial : list Z) (evs l1 l2 : list event) (cid : Z) :
  ordered needEntropy initial evs -> evs = l1 ++ Pushed cid :: l2 ->
  PsfStored cid ∈ l2 /\ (needEntropy = true -> EntropyStored cid ∈ l2).
Proof.
  revert evs. induction l1 as [|e l1 IH]; intros evs Hord ->; simpl in Hord.
  - tauto.
  - apply (IH (l1 ++ Pushed cid :: l2)); [tauto|reflexivity].
Qed.

Lemma ordered_popped (needEntropy : bool) (initial : list Z) (evs l1 l2 : list event) (id : Z) :
  ordered needEntropy initial evs -> evs = l1 ++ Popped id :: l2 ->
  id ∈ initial \/ PsfStored id ∈ l2.
Proof.
  revert evs. induction l1 as [|e l1 IH]; intros evs Hord ->; simpl in Hord.
  - tauto.
  - apply (IH (l1 ++ Popped id :: l2)); [tauto|reflexivity].
Qed.

Lemma queueStored_mono (initial : list Z) (new evs : list event) (queue : list Z) :
  queueStored initial evs queue -> queueStored initial (new ++ evs) queue.
Proof.
  unfold queueStored. intros Hq. eapply Forall_impl; [exact Hq|].
  intros id [Hin|Hin]; [left; assumption|right]. apply elem_of_app. right. assumption.
Qed.

Section Walk.
Context {pc : Type}.
Variable step : pc -> State -> option (pc * State).
Variable needEntropy : bool.
Variable initial : list Z.
Variable base : list event.

(** What the events so far promise about a thread at a program point. *)
Variable pcInv : list event -> pc -> Prop.

Hypothesis pcInv_mono : forall new evs p, pcInv evs p -> pcInv (new ++ evs) p.

(** One step of a thread keeps the order of the events. *)
Hypothesis step_ordered : forall p st p' st' evs,
  history st = evs ++ base -> ordered needEntropy initial evs ->
  queueStored initial evs (remainingNodes st) -> pcInv evs p ->
  step p st = Some (p', st') ->
  exists new,
    history st' = (new ++ evs) ++ base /\
    ordered needEntropy initial (new ++ evs) /\
    queueStored initial (new ++ evs) (remainingNodes st') /\
    pcInv (new ++ evs) p'.

Lemma walkInv_schedule (sys : System pc) (i : nat) :
  walkInv needEntropy initial base pcInv sys ->
  walkInv needEntropy initial base pcInv (schedule step sys i).
Proof.
  intros (evs & Hh & Hord & Hq & Hth). unfold schedule.
  destruct (threads sys !! i) as [p|] eqn:Hp; [|exists evs; tauto].
  destruct (step p (shared sys)) as [[p' st']|] eqn:Hstep; [|exists evs; tauto].
  assert (pcInv evs p) as Hpc.
  { rewrite Forall_lookup in Hth. exact (Hth i p Hp). }
  destruct (step_ordered p (shared sys) p' st' evs Hh Hord Hq Hpc Hstep)
    as (new & Hh' & Hord' & Hq' & Hpc').
  exists (new ++ evs). simpl. split; [assumption|]. split; [assumption|].
  split; [assumption|]. apply Forall_insert; [|assumption].
  eapply Forall_impl; [exact Hth|]. intros q Hq0. apply pcInv_mono. assumption.
Qed.

Lemma walkInv_run (sched : list nat) (sys : System pc) :
  walkInv needEntropy initial base pcInv sys ->
  walkInv needEntropy initial base pcInv (run step sched sys).
Proof.
  revert sys. induction sched as [|i sched IH]; intros sys Hsys; simpl; [assumption|].
  apply IH, walkInv_schedule. assumption.
Qed.

End Walk.

Section WalkFacts.
Context `{External}.
Variable self : Members.

Lemma expectedCalls_quiet (parentPSF : Mat Q) (masks : Mat N * Mat N) :
  Forall quiet (rev (expectedCalls self parentPSF masks)).
Proof.
  apply Forall_rev. unfold expectedCalls, deblurCall.
  destruct (decide (emptyMasks masks)); [constructor|].
  destruct (deconvAlgoPSFSelection self); repeat constructor.
Qed.

Lemma psfSelection_loop_history (id : Z) (candidates : list (Mat Q)) :
  forall (i : nat) (minEnergy : Q) (winner : nat) (st : State),
  history (snd (psfSelection_loop self id candidates i minEnergy winner st)) =
    rev (map (fun c => snd (selectionDeconv self c (getMask id LEFT))) candidates)
    ++ history st /\
  remainingNodes (snd (psfSelection_loop self id candidates i minEnergy winner st)) =
    remainingNodes st.
Proof.
  induction candidates as [|c rest IH]; intros i minEnergy winner st; [split; reflexivity|].
  rewrite psfSelection_loop_cons.
  destruct (Qlt_le_dec _ _);
    match goal with |- context [psfSelection_loop self id rest ?i' ?m' ?w' ?s'] =>
      destruct (IH i' m' w' s') as [Hh Hq]
    end; rewrite Hh, Hq; simpl; rewrite <- app_assoc.
  - unfold afterLead. destruct (_ && _); split; reflexivity.
  - split; reflexivity.
Qed.

Lemma selectionDeconv_quiet (id : Z) (candidates : list (Mat Q)) :
  Forall quiet (rev (map (fun c => snd (selectionDeconv self c (getMask id LEFT))) candidates)).
Proof.
  apply Forall_rev, Forall_fmap, Forall_true. intros c. simpl.
  unfold selectionDeconv. destruct (deconvAlgoPSFSelection self); exact I.
Qed.

Lemma estimationInv_mono (new evs : list event) (p : pcEstimation) :
  estimationInv evs p -> estimationInv (new ++ evs) p.
Proof. destruct p; simpl; rewrite ?elem_of_app; tauto. Qed.

Lemma refinementInv_mono (new evs : list event) (p : pcRefinement) :
  refinementInv evs p -> refinementInv (new ++ evs) p.
Proof. destruct p; simpl; rewrite ?elem_of_app; tauto. Qed.

(** A step that leaves the queue alone and records quiet events. *)
Lemma quiet_step (needEntropy : bool) (initial : list Z) (base evs new : list event)
    (st st' : State) :
  history st = evs ++ base -> ordered needEntropy initial evs ->
  queueStored initial evs (remainingNodes st) ->
  history st' = new ++ history st -> remainingNodes st' = remainingNodes st ->
  Forall quiet new ->
  history st' = (new ++ evs) ++ base /\
  ordered needEntropy initial (new ++ evs) /\
  queueStored initial (new ++ evs) (remainingNodes st').
Proof.
  intros Hh Hord Hq Hh' Hq' Hnew. split; [|split].
  - rewrite Hh', Hh, app_assoc. reflexivity.
  - apply ordered_quiet; assumption.
  - rewrite Hq'. apply queueStored_mono. assumption.
Qed.

(** Taking the front of the queue. *)
Lemma access_step (needEntropy : bool) (initial : list Z) (base evs : list event)
    (st : State) (id : Z) (q : list Z) :
  history st = evs ++ base -> ordered needEntropy initial evs ->
  queueStored initial evs (remainingNodes st) -> remainingNodes st = id :: q ->
  let st' := logs [Popped id] (with_remainingNodes q st) in
  history st' = ([Popped id] ++ evs) ++ base /\
  ordered needEntropy initial ([Popped id] ++ evs) /\
  queueStored initial ([Popped id] ++ evs) (remainingNodes st').
Proof.
  intros Hh Hord Hq Hqueue st'. rewrite Hqueue in Hq.
  split; [|split].
  - simpl. rewrite Hh. reflexivity.
  - simpl. split; [exact (Forall_inv Hq)|assumption].
  - apply queueStored_mono. exact (Forall_inv_tail Hq).
Qed.

(** The critical section that pushes both children. *)
Lemma push_step (needEntropy : bool) (initial : list Z) (base evs : list event)
    (st : State) (cid1 cid2 : Z) :
  history st = evs ++ base -> ordered needEntropy initial evs ->
  queueStored initial evs (remainingNodes st) ->
  PsfStored cid1 ∈ evs -> PsfStored cid2 ∈ evs ->
  (needEntropy = true -> EntropyStored cid1 ∈ evs /\ EntropyStored cid2 ∈ evs) ->
  let st' := pushChildren cid1 cid2 st in
  history st' = ([Pushed cid2; Pushed cid1] ++ evs) ++ base /\
  ordered needEntropy initial ([Pushed cid2; Pushed cid1] ++ evs) /\
  queueStored initial ([Pushed cid2; Pushed cid1] ++ evs) (remainingNodes st').
Proof.
  intros Hh Hord Hq H1 H2 He st'. split; [|split].
  - simpl. rewrite Hh. reflexivity.
  - simpl. repeat split; try assumption.
    + apply elem_of_cons. right. assumption.
    + intros Hn. apply elem_of_cons. right. apply He, Hn.
    + intros Hn. apply He, Hn.
  - unfold st', pushChildren, queueStored. simpl. apply Forall_app. split.
    + apply (queueStored_mono initial [Pushed cid2; Pushed cid1]). assumption.
    + apply List.Forall_cons; [|apply List.Forall_cons; [|apply List.Forall_nil]];
        right; simpl; rewrite !elem_of_cons; tauto.
Qed.

(** A store in the tree, after quiet events. *)
Lemma quiet_store (e : event) (new : list event) :
  Forall quiet new ->
  match e with PsfStored _ | EntropyStored _ => Forall quiet (e :: new) | _ => True end.
Proof. intros Hnew. destruct e; try exact I; constructor; (exact I || assumption). Qed.

(** A step that records nothing and leaves the queue alone. *)
Lemma silent_step (needEntropy : bool) (initial : list Z) (base evs : list event)
    (st st' : State) :
  history st = evs ++ base -> ordered needEntropy initial evs ->
  queueStored initial evs (remainingNodes st) ->
  history st' = history st -> remainingNodes st' = remainingNodes st ->
  history st' = ([] ++ evs) ++ base /\
  ordered needEntropy initial ([] ++ evs) /\
  queueStored initial ([] ++ evs) (remainingNodes st').
Proof.
  intros Hh Hord Hq Hh' Hq'. apply quiet_step with (st := st); try assumption.
  constructor.
Qed.

Ltac step_with lemma :=
  match goal with
  | |- exists new, history ?st' = (new ++ ?evs) ++ ?base /\ _ =>
      let Ha := fresh "Ha" in
      let Hb := fresh "Hb" in
      let Hc := fresh "Hc" in
      eexists; destruct lemma as (Ha & Hb & Hc);
      split; [exact Ha|split; [exact Hb|split; [exact Hc|]]]
  end.

Lemma estimation_step_ordered (initial : list Z) (base : list event)
    (p : pcEstimation) (st : State) (p' : pcEstimation) (st' : State) (evs : list event) :
  history st = evs ++ base -> ordered true initial evs ->
  queueStored initial evs (remainingNodes st) -> estimationInv evs p ->
  stepEstimation self p st = Some (p', st') ->
  exists new,
    history st' = (new ++ evs) ++ base /\
    ordered true initial (new ++ evs) /\
    queueStored initial (new ++ evs) (remainingNodes st') /\
    estimationInv (new ++ evs) p'.
Proof.
  intros Hh Hord Hq Hpc Hstep. destruct p as [| |id c1 c2|id c1 c2|id c1 c2|id c1 c2|id c1 c2|];
    simpl in Hstep.
  - assert (st' = st /\ (p' = E_access \/ p' = E_return)) as [-> Hp'].
    { case_bool_decide; injection Hstep as <- <-; tauto. }
    step_with (silent_step true initial base evs st st Hh Hord Hq eq_refl eq_refl).
    destruct Hp' as [-> | ->]; exact I.
  - unfold safeQueueAccess in Hstep.
    destruct (remainingNodes st) as [|id q] eqn:Hqueue; injection Hstep as <- <-;
      rewrite <- Hqueue in Hq.
    + step_with (silent_step true initial base evs st st Hh Hord Hq eq_refl eq_refl).
      exact I.
    + step_with (access_step true initial base evs st id q Hh Hord Hq Hqueue). exact I.
  - destruct (bool_decide (c1 <> (-1)%Z) && bool_decide (c2 <> (-1)%Z)).
    + rewrite initialChildPSF_expected in Hstep.
      destruct (expectedPSF self _ _) as [k|]; simpl in Hstep; [|discriminate].
      injection Hstep as <- <-.
      step_with (quiet_step true initial base evs
                   (PsfStored c1 :: rev (expectedCalls self (psf (regionTree st !!! id)) (getMasks c1)))
                   st (store_psf c1 k (logs (expectedCalls self (psf (regionTree st !!! id)) (getMasks c1)) st))
                   Hh Hord Hq eq_refl eq_refl
                   (quiet_store (PsfStored c1) _ (expectedCalls_quiet _ _))).
      simpl. apply elem_of_cons. left. reflexivity.
    + injection Hstep as <- <-.
      step_with (silent_step true initial base evs st (countLeaf st) Hh Hord Hq eq_refl eq_refl).
      exact I.
  - rewrite initialChildPSF_expected in Hstep.
    destruct (expectedPSF self _ _) as [k|]; simpl in Hstep; [|discriminate].
    injection Hstep as <- <-.
    step_with (quiet_step true initial base evs
                 (PsfStored c2 :: rev (expectedCalls self (psf (regionTree st !!! id)) (getMasks c2)))
                 st (store_psf c2 k (logs (expectedCalls self (psf (regionTree st !!! id)) (getMasks c2)) st))
                 Hh Hord Hq eq_refl eq_refl
                 (quiet_store (PsfStored c2) _ (expectedCalls_quiet _ _))).
    simpl in *. rewrite !elem_of_cons, !elem_of_app. tauto.
  - injection Hstep as <- <-.
    step_with (quiet_step true initial base evs [EntropyStored c1] st (childEntropy c1 st)
                 Hh Hord Hq
                 eq_refl eq_refl (quiet_store (EntropyStored c1) _ (List.Forall_nil _))).
    simpl in *. rewrite !elem_of_cons. tauto.
  - injection Hstep as <- <-.
    step_with (quiet_step true initial base evs [EntropyStored c2] st (childEntropy c2 st)
                 Hh Hord Hq
                 eq_refl eq_refl (quiet_store (EntropyStored c2) _ (List.Forall_nil _))).
    simpl in *. rewrite !elem_of_cons. tauto.
  - injection Hstep as <- <-. simpl in Hpc.
    step_with (push_step true initial base evs st c1 c2 Hh Hord Hq
                 (proj1 Hpc) (proj1 (proj2 Hpc)) (fun _ => proj2 (proj2 Hpc))).
    exact I.
  - discriminate.
Qed.

Lemma refinement_step_ordered (initial : list Z) (base : list event)
    (p : pcRefinement) (st : State) (p' : pcRefinement) (st' : State) (evs : list event) :
  history st = evs ++ base -> ordered false initial evs ->
  queueStored initial evs (remainingNodes st) -> refinementInv evs p ->
  stepRefinement self p st = Some (p', st') ->
  exists new,
    history st' = (new ++ evs) ++ base /\
    ordered false initial (new ++ evs) /\
    queueStored initial (new ++ evs) (remainingNodes st') /\
    refinementInv (new ++ evs) p'.
Proof.
  intros Hh Hord Hq Hpc Hstep.
  destruct p as [| | |id c1 c2|id c1 c2 cs1|id c1 c2 cs1 cs2|id c1 c2 cs2 w0
                 |id c1 c2 w0 w1|id c1 c2 w1|id c1 c2|]; simpl in Hstep.
  - assert (history st' = history st /\ remainingNodes st' = remainingNodes st /\ p' = R_while)
      as (Hh' & Hq' & ->).
    { case_bool_decide; injection Hstep as <- <-; repeat split. }
    step_with (silent_step false initial base evs st st' Hh Hord Hq Hh' Hq'). exact I.
  - assert (st' = st /\ (p' = R_access \/ p' = R_return)) as [-> Hp'].
    { case_bool_decide; injection Hstep as <- <-; tauto. }
    step_with (silent_step false initial base evs st st Hh Hord Hq eq_refl eq_refl).
    destruct Hp' as [-> | ->]; exact I.
  - unfold safeQueueAccess in Hstep.
    destruct (remainingNodes st) as [|id q] eqn:Hqueue; injection Hstep as <- <-;
      rewrite <- Hqueue in Hq.
    + step_with (silent_step false initial base evs st st Hh Hord Hq eq_refl eq_refl).
      exact I.
    + step_with (access_step false initial base evs st id q Hh Hord Hq Hqueue). exact I.
  - destruct (bool_decide (c1 <> (-1)%Z) && bool_decide (c2 <> (-1)%Z));
      injection Hstep as <- <-.
    + step_with (silent_step false initial base evs st st Hh Hord Hq eq_refl eq_refl).
      exact I.
    + step_with (silent_step false initial base evs st (countLeaf st) Hh Hord Hq eq_refl eq_refl).
      exact I.
  - injection Hstep as <- <-.
    step_with (silent_step false initial base evs st st Hh Hord Hq eq_refl eq_refl).
    exact I.
  - unfold psfSelection in Hstep.
    destruct (psfSelection_loop_history c1 cs1 0 2 0%nat st) as [Hh' Hq'].
    destruct (psfSelection_loop self c1 cs1 0 2 0%nat st) as [w st1].
    injection Hstep as <- <-. simpl in Hh', Hq'.
    step_with (quiet_step false initial base evs _ st st1 Hh Hord Hq Hh' Hq'
                 (selectionDeconv_quiet c1 cs1)).
    exact I.
  - unfold psfSelection in Hstep.
    destruct (psfSelection_loop_history c2 cs2 0 2 0%nat st) as [Hh' Hq'].
    destruct (psfSelection_loop self c2 cs2 0 2 0%nat st) as [w st1].
    injection Hstep as <- <-. simpl in Hh', Hq'.
    step_with (quiet_step false initial base evs _ st st1 Hh Hord Hq Hh' Hq'
                 (selectionDeconv_quiet c2 cs2)).
    exact I.
  - injection Hstep as <- <-.
    step_with (quiet_step false initial base evs [PsfStored c1] st (store_psf c1 w0 st)
                 Hh Hord Hq
                 eq_refl eq_refl (quiet_store (PsfStored c1) _ (List.Forall_nil _))).
    simpl. rewrite !elem_of_cons. tauto.
  - injection Hstep as <- <-.
    step_with (quiet_step false initial base evs [PsfStored c2] st (store_psf c2 w1 st)
                 Hh Hord Hq
                 eq_refl eq_refl (quiet_store (PsfStored c2) _ (List.Forall_nil _))).
    simpl in *. rewrite !elem_of_cons. tauto.
  - injection Hstep as <- <-. simpl in Hpc.
    step_with (push_step false initial base evs st c1 c2 Hh Hord Hq
                 (proj1 Hpc) (proj2 Hpc) (fun Hn => False_ind _ (Bool.diff_false_true Hn))).
    exact I.
  - discriminate.
Qed.

(** Every pass starts in order: nothing has happened, the queue holds what it
    held plus the top-level nodes, and every thread is at its entry point. *)
Lemma startPass_walkInv {pc : Type} (pcInv : list event -> pc -> Prop)
    (needEntropy : bool) (entry : pc) (nThreads : Z) (st : State) :
  pcInv [] entry ->
  walkInv needEntropy (remainingNodes st ++ topLevelNodeIds st) (history st) pcInv
          (startPass entry nThreads st).
Proof.
  intros Hentry. exists []. simpl. split; [reflexivity|]. split; [exact I|]. split.
  - unfold queueStored. apply Forall_forall. intros id Hid. left. exact Hid.
  - apply List.Forall_cons; [exact Hentry|]. apply Forall_replicate. exact Hentry.
Qed.


End WalkFacts.

(** On the seven nodes, under [fixtureSchedule]. *)
Example estimation_run_fixture :
  List.filter treeEvent
    (history (shared (run (stepEstimation (H := Fixture.pointwise) (Fixture.members FFT))
                          fixtureSchedule
                          (startEstimation 2 Fixture.state)))) =
  [Popped 5; Popped 4; Pushed 5; Pushed 4; EntropyStored 5; EntropyStored 4;
   PsfStored 5; PsfStored 4; Popped 6].
Proof. vm_compute. reflexivity. Qed.


(** ** C9: the fatal errors *)

Section ErrorFacts.
Context `{External} {disp : Disparity}.
Variable self : Members.

Lemma toplevelKernelLoop_missing (ids : list Z) :
  forall (i j : nat) (st : State),
  (j < length ids)%nat -> imread (kernelFile (i + j)) = None ->
  toplevelKernelLoop i ids st = Throw "Can not load kernel!".
Proof.
  induction ids as [|id ids IH]; intros i j st Hj Hmissing; simpl in *; [lia|].
  destruct j as [|j].
  - rewrite Nat.add_0_r in Hmissing. rewrite Hmissing. reflexivity.
  - destruct (imread (kernelFile i)); [|reflexivity].
    apply (IH (S i) j); [lia|]. replace (S i + j)%nat with (i + S j)%nat by lia.
    exact Hmissing.
Qed.

(** C9. [disparityEstimation] throws for an algorithm that is neither SGBM
    nor MATCH, and [toplevelKernelEstimation] throws when the kernel image of
    a top-level node cannot be loaded; the functions return the exception
    itself (nothing is retried or put in its place), and an exception skips
    whatever is sequenced after the call. *)
Theorem fatal_errors :
  (forall input algorithm maxDisparity,
     algorithm <> SGBM -> algorithm <> MATCH ->
     disparityEstimation self input algorithm maxDisparity =
       Throw "Invalid disparity algorithm") /\
  (forall st j,
     (j < length (topLevelNodeIds st))%nat -> imread (kernelFile j) = None ->
     toplevelKernelEstimation st = Throw "Can not load kernel!") /\
  (forall (A B : Type) (what : string) (next : A -> result B),
     andThen (Throw what) next = Throw what).
Proof.
  split; [|split].
  - intros input [| |code] maxDisparity Hs Hm; [congruence..|]. reflexivity.
  - intros st j Hj Hmissing. unfold toplevelKernelEstimation.
    apply (toplevelKernelLoop_missing _ 0 j); assumption.
  - reflexivity.
Qed.

End ErrorFacts.

(** With two top-level nodes and the kernel image of the first alone. *)
Lemma fatal_errors_witness :
  disparityEstimation (disp := Fixture.disparity) (Fixture.members FFT)
    (Fixture.image, Fixture.image) (OtherAlgo 2) 16 = Throw "Invalid disparity algorithm" /\
  toplevelKernelEstimation (H := Fixture.pointwise)
    {| regionTree := Fixture.tree; topLevelNodeIds := [6%Z; 5%Z]; regionDeconv := [];
       remainingNodes := []; regionStack := []; visitedLeafs := 0; history := [] |}
    = Throw "Can not load kernel!".
Proof.
  destruct (fatal_errors (H := Fixture.pointwise) (disp := Fixture.disparity) (Fixture.members FFT))
    as (Hdisparity & Hkernel & _).
  split.
  - apply Hdisparity; discriminate.
  - apply (Hkernel _ 1%nat); [simpl; lia|reflexivity].
Defined.

(** There, a single top-level node gets the loaded kernel, made energy
    preserving. *)
Example toplevelKernelEstimation_fixture :
  exists st',
    toplevelKernelEstimation (H := Fixture.pointwise) Fixture.state = Ok st' /\
    map (map Qred) (psf (regionTree st' !!! 6%Z)) = [[0; 1 # 4]; [1 # 4; 1 # 2]].
Proof. vm_compute. eexists. split; reflexivity. Qed.

(** ** C7: how a candidate is scored *)

Lemma clamp_range (m : Mat Q) :
  Mat.all (fun v => 0 <= v <= 1) (Mat.threshold_trunc 1 (Mat.threshold_tozero 0 m)).
Proof.
  unfold Mat.all, Mat.threshold_trunc, Mat.threshold_tozero.
  apply Forall_fmap, Forall_fmap, Forall_true. intros row. simpl.
  apply Forall_fmap, Forall_fmap, Forall_true. intros v. simpl.
  destruct (Qlt_le_dec 0 v); destruct (Qlt_le_dec 1 _); lra.
Qed.

Section ScoringFacts.
Context `{External}.
Variable self : Members.

(** C7, as the code has it.  For every candidate of [psfSelection] the left
    view is deconvolved with the candidate: inside the mask of the child by
    the iterative solver, over the whole image and without the mask by the
    frequency-domain solver.  In both cases the result is clamped to [0, 1],
    scaled by 255, smoothed and shock filtered, and the energy is 1 minus
    the correlation, inside the mask, of the gradients of the latent image
    and of the filtered one. *)
Theorem psfSelection_scoring (id : Z) (candidates : list (Mat Q)) (st : State) :
  let mask := getMask id LEFT in
  let reference := sel (floatImages self) LEFT in
  let call c :=
    match deconvAlgoPSFSelection self with
    | FFT => CallDeconvFFT reference c
    | IRLS => CallDeconvIRLS reference c mask
    end in
  let deconv c :=
    match deconvAlgoPSFSelection self with
    | FFT => deconvolveFFT reference c
    | IRLS => deconvolveIRLS reference c mask
    end in
  let clamped c := Mat.threshold_trunc 1 (Mat.threshold_tozero 0 (deconv c)) in
  let latent c := Mat.mulc (clamped c) 255 in
  let shockFiltered c := coherenceFilter (GaussianBlur (latent c)) in
  let gradients m := normedGradients (Sobel m 1 0, Sobel m 0 1) in
  let normed m := Mat.div (gradients m) (maxLoc (gradients m)) in
  history (snd (psfSelection self candidates id st)) =
    rev (map call candidates) ++ history st /\
  (forall c, (deconvAlgoPSFSelection self = IRLS <-> restrictedTo mask (call c))) /\
  (forall c,
     Mat.all (fun v => 0 <= v <= 1) (clamped c) /\
     selectionEnergy self id c =
       1 - crossCorrelation (Mat.copyToMasked (normed (latent c)) mask)
                            (Mat.copyToMasked (normed (shockFiltered c)) mask) mask).
Proof.
  intros mask reference call deconv clamped latent shockFiltered gradients normed.
  split; [|split].
  - unfold psfSelection.
    pose proof (proj1 (psfSelection_loop_history self id candidates 0 2 0%nat st)) as Hh.
    destruct (psfSelection_loop self id candidates 0 2 0%nat st) as [w st'].
    simpl in Hh |- *. rewrite Hh. f_equal. f_equal. apply map_ext. intros c.
    unfold selectionDeconv, call. destruct (deconvAlgoPSFSelection self); reflexivity.
  - intros c. unfold call. destruct (deconvAlgoPSFSelection self); simpl.
    + split; [discriminate|tauto].
    + split; reflexivity.
  - intros c. split; [apply clamp_range|].
    unfold selectionEnergy, selectionLatent, selectionDeconv, gradientCorrelation.
    unfold normed, gradients, shockFiltered, latent, clamped, deconv.
    destruct (deconvAlgoPSFSelection self); reflexivity.
Qed.

End ScoringFacts.

(** With the frequency-domain solver the deconvolution of a candidate is
    not restricted to the mask of the child: the call has no mask. *)
Lemma psfSelection_fft_unmasked :
  snd (selectionDeconv (H := Fixture.pointwise) (Fixture.members FFT)
         Fixture.kernel3 (Fixture.mask 0)) =
    CallDeconvFFT Fixture.image Fixture.kernel3 /\
  ~ restrictedTo (Fixture.mask 0)
      (snd (selectionDeconv (H := Fixture.pointwise) (Fixture.members FFT)
              Fixture.kernel3 (Fixture.mask 0))).
Proof. split; [reflexivity|]. simpl. tauto. Qed.

(** ** C10 and C6: the reconstruction pass *)

Lemma vec_set_lookup {A : Type} (l : list A) (i : Z) (x : A) (k : nat) :
  vec_set l i x !! k =
  if decide (i = Z.of_nat k /\ (k < length l)%nat) then Some x else l !! k.
Proof.
  unfold vec_set. case_bool_decide as Hi.
  - destruct (decide (Z.to_nat i = k)) as [<-|Hne].
    + destruct (decide (Z.to_nat i < length l)%nat) as [Hlt|Hge].
      * rewrite list_lookup_insert_eq by assumption.
        rewrite decide_True by (split; [lia|assumption]). reflexivity.
      * rewrite list_insert_ge by lia. rewrite decide_False by tauto. reflexivity.
    + rewrite list_lookup_insert_ne by assumption.
      rewrite decide_False by (intros [? _]; lia). reflexivity.
  - rewrite decide_False by (intros [? _]; lia). reflexivity.
Qed.

Lemma length_vec_set {A : Type} (l : list A) (i : Z) (x : A) :
  length (vec_set l i x) = length l.
Proof. unfold vec_set. case_bool_decide; [apply length_insert|reflexivity]. Qed.

Lemma length_vec_resize (l : list (Mat Q)) (n : Z) :
  length (vec_resize l n) = Z.to_nat n.
Proof. unfold vec_resize. rewrite length_app, length_take, length_replicate. lia. Qed.

Section ReconstructionFacts.
Context `{External}.
Variable self : Members.

Lemma deconvolveRegionBody_unfold (v : view) (color : bool) (i : Z) (st : State) :
  deconvolveRegionBody self v color i st =
  with_regionDeconv (vec_set (regionDeconv st) i (regionResult self v color (regionTree st) i))
                    (logs [regionCall self v color (regionTree st) i] st).
Proof. reflexivity. Qed.

(** One thread that empties the stack: a call of the iterative solver for
    every region of the stack, and its result in the store. *)
Lemma deconvolveRegionLoop_spec (v : view) (color : bool) (stack : list Z) :
  forall st : State,
  regionTree (deconvolveRegionLoop self v color stack st) = regionTree st /\
  history (deconvolveRegionLoop self v color stack st) =
    rev (map (regionCall self v color (regionTree st)) stack) ++ history st /\
  length (regionDeconv (deconvolveRegionLoop self v color stack st)) =
    length (regionDeconv st) /\
  forall k : nat,
    regionDeconv (deconvolveRegionLoop self v color stack st) !! k =
    if decide (Z.of_nat k ∈ stack /\ (k < length (regionDeconv st))%nat)
    then Some (regionResult self v color (regionTree st) (Z.of_nat k))
    else regionDeconv st !! k.
Proof.
  induction stack as [|i rest IH]; intros st.
  - simpl. repeat split.
  - cbn [deconvolveRegionLoop]. rewrite deconvolveRegionBody_unfold.
    match goal with |- context [deconvolveRegionLoop self v color rest ?s] =>
      set (st1 := s)
    end.
    assert (regionTree st1 = regionTree st) as Ht1 by reflexivity.
    assert (history st1 = regionCall self v color (regionTree st) i :: history st) as Hh1
      by reflexivity.
    assert (regionDeconv st1 =
              vec_set (regionDeconv st) i (regionResult self v color (regionTree st) i)) as Hd1
      by reflexivity.
    destruct (IH st1) as (Ht & Hh & Hl & Hk).
    rewrite Ht, Hh, Hl, Ht1, Hh1, Hd1, length_vec_set.
    split; [reflexivity|]. split; [simpl; rewrite <- app_assoc; reflexivity|].
    split; [reflexivity|]. intros k.
    rewrite Hk, Ht1, Hd1, length_vec_set, vec_set_lookup.
    destruct (decide (Z.of_nat k ∈ rest /\ (k < length (regionDeconv st))%nat)) as [[Hin Hlt]|Hnot].
    + rewrite decide_True; [reflexivity|]. split; [right; assumption|assumption].
    + destruct (decide (i = Z.of_nat k /\ (k < length (regionDeconv st))%nat)) as [[-> Hlt]|Hnot'].
      * rewrite decide_True; [reflexivity|]. split; [left|assumption].
      * rewrite decide_False; [reflexivity|]. intros [Hin Hlt].
        apply elem_of_cons in Hin as [Heq|Hin]; [apply Hnot'|apply Hnot]; split; auto.
Qed.

Lemma push_regions (l : list Z) :
  forall st : State,
  foldl (fun st nr => with_regionStack (nr :: regionStack st) st) st l =
  with_regionStack (rev l ++ regionStack st) st.
Proof.
  induction l as [|nr l IH]; intros st; simpl.
  - destruct st; reflexivity.
  - rewrite IH. simpl. rewrite <- app_assoc. reflexivity.
Qed.

Lemma upto_lookup (n : Z) (k : nat) :
  upto n !! k = if decide (k < Z.to_nat n)%nat then Some (Z.of_nat k) else None.
Proof.
  unfold upto. change (map Z.of_nat (seq 0 (Z.to_nat n))) with (Z.of_nat <$> seq 0 (Z.to_nat n)).
  rewrite list_lookup_fmap. destruct (decide (k < Z.to_nat n)%nat).
  - rewrite lookup_seq_lt by assumption. reflexivity.
  - rewrite lookup_seq_ge by lia. reflexivity.
Qed.

Lemma elem_of_upto (n : Z) (k : nat) : (k < Z.to_nat n)%nat -> Z.of_nat k ∈ upto n.
Proof.
  intros Hk. unfold upto. apply list_elem_of_fmap. exists k. split; [reflexivity|].
  apply elem_of_seq. lia.
Qed.

(** [deconvolve] leaves in the store, for every layer, the image that the
    iterative solver computes from the PSF of the leaf: nothing of what the
    store held before is kept. *)
Lemma deconvolve_store (dst : Mat Q) (v : view) (color : bool) (st : State) :
  regionDeconv (snd (deconvolve self dst v color st)) =
  map (regionResult self v color (regionTree st)) (upto (layers self)).
Proof.
  unfold deconvolve. cbn [snd]. rewrite push_regions. unfold deconvolveRegion.
  cbn [regionStack with_regionStack].
  match goal with |- context [deconvolveRegionLoop self v color ?stack ?s] =>
    destruct (deconvolveRegionLoop_spec v color stack s) as (_ & _ & Hl & Hk)
  end.
  cbn [regionDeconv regionTree with_regionStack with_regionDeconv] in Hl, Hk.
  rewrite length_vec_resize in Hl, Hk.
  apply list_eq. intros k. rewrite Hk.
  change (map (regionResult self v color (regionTree st)) (upto (layers self)))
    with (regionResult self v color (regionTree st) <$> upto (layers self)).
  rewrite list_lookup_fmap, upto_lookup.
  destruct (decide (k < Z.to_nat (layers self))%nat) as [Hlt|Hge].
  - rewrite decide_True; [reflexivity|].
    split; [|assumption]. apply elem_of_app. left.
    apply list_elem_of_In. apply -> in_rev. apply list_elem_of_In.
    apply elem_of_upto. assumption.
  - rewrite decide_False by tauto. simpl.
    apply lookup_ge_None. rewrite length_vec_resize. lia.
Qed.

(** C10. For every region that [deconvolveRegion] takes from the stack it
    calls the iterative solver on the whole image of the view (the colour
    image or the float image) with the PSF and the mask of the region, and
    stores the result, whatever algorithm is configured: the reconstruction
    functions are the same for [FFT] and for [IRLS]. *)
Theorem reconstruction_always_IRLS (v : view) (color : bool) (st : State) :
  let image := if color then sel (images self) v else sel (floatImages self) v in
  let call i := CallDeconvIRLS image (psf (regionTree st !!! i)) (getMask i v) in
  let result i := displayable (deconvolveIRLS image (psf (regionTree st !!! i)) (getMask i v)) in
  (forall i,
     history (deconvolveRegionBody self v color i st) = call i :: history st /\
     regionDeconv (deconvolveRegionBody self v color i st) = vec_set (regionDeconv st) i (result i)) /\
  history (deconvolveRegion self v color st) = rev (map call (regionStack st)) ++ history st /\
  (forall dst,
     regionDeconv (snd (deconvolve self dst v color st)) = map result (upto (layers self))) /\
  (forall algo dst i,
     deconvolveRegionBody (withAlgo algo self) v color i st = deconvolveRegionBody self v color i st /\
     deconvolve (withAlgo algo self) dst v color st = deconvolve self dst v color st /\
     deconvolveTopLevel (withAlgo algo self) dst v color st = deconvolveTopLevel self dst v color st).
Proof.
  intros image call result. split; [|split; [|split]].
  - intros i. split; reflexivity.
  - unfold deconvolveRegion.
    exact (proj1 (proj2 (deconvolveRegionLoop_spec v color (regionStack st) st))).
  - intros dst. apply deconvolve_store.
  - intros algo dst i. repeat split.
Qed.

End ReconstructionFacts.

(** C6, on the tree of the fixture after both passes.  The second pass has left in [regionDeconv[0]] the
    latent image of the winner for the leaf 0; [deconvolve] nevertheless
    calls the iterative solver for the leaf 0 again, and what the store held
    makes no difference to what it holds afterwards: the cached image is not
    reused. *)
Theorem reconstruction_recomputes_cached_leaf :
  let self := Fixture.members IRLS in
  let leafPSF := psf (regionTree cachedState !!! 0%Z) in
  let after := snd (deconvolve (H := Fixture.pointwise) self [] LEFT false cachedState) in
  vec_get (regionDeconv cachedState) 0 =
    selectionLatent (H := Fixture.pointwise) self leafPSF (Fixture.mask 0) /\
  vec_get (regionDeconv cachedState) 0 <> [] /\
  history after =
    [CallDeconvIRLS Fixture.image leafPSF (Fixture.mask 0);
     CallDeconvIRLS Fixture.image (psf (regionTree cachedState !!! 1%Z)) (Fixture.mask 1);
     CallDeconvIRLS Fixture.image (psf (regionTree cachedState !!! 2%Z)) (Fixture.mask 2);
     CallDeconvIRLS Fixture.image (psf (regionTree cachedState !!! 3%Z)) (Fixture.mask 3)]
    ++ history cachedState /\
  vec_get (regionDeconv after) 0 =
    displayable (H := Fixture.pointwise)
      (@deconvolveIRLS Fixture.pointwise Fixture.image leafPSF (Fixture.mask 0)) /\
  regionDeconv after =
    regionDeconv (snd (deconvolve (H := Fixture.pointwise) self [] LEFT false
                         (with_regionDeconv [] cachedState))).
Proof.
  intros self leafPSF after. split; [|split; [|split; [|split]]].
  - vm_compute. reflexivity.
  - vm_compute. discriminate.
  - vm_compute. reflexivity.
  - vm_compute. reflexivity.
  - unfold after. rewrite !deconvolve_store. reflexivity.
Qed.

(** * Further properties of the class *)

(** ** The constructor *)

Lemma rem2_even (a : Z) : Z.rem a 2 = 0%Z <-> Z.even a = true.
Proof.
  rewrite Z.even_spec. split.
  - intros Hrem. exists (Z.quot a 2). pose proof (Z.quot_rem' a 2). lia.
  - intros [b ->]. rewrite Z.mul_comm. apply Z.rem_mul. lia.
Qed.

Lemma init_psfWidth_odd (width : Z) : Z.odd (init_psfWidth width) = true.
Proof.
  unfold init_psfWidth. case_bool_decide as Hrem.
  - apply rem2_even in Hrem. rewrite Z.odd_sub, <- Z.negb_even, Hrem. reflexivity.
  - rewrite <- Z.negb_even. destruct (Z.even width) eqn:He; [|reflexivity].
    exfalso. apply Hrem, rem2_even, He.
Qed.

Lemma init_layers_even (_layers : Z) : Z.even (init_layers _layers) = true.
Proof.
  unfold init_layers. case_bool_decide as Hrem.
  - apply rem2_even, Hrem.
  - rewrite Z.even_sub. destruct (Z.even _layers) eqn:He; [|reflexivity].
    exfalso. apply Hrem, rem2_even, He.
Qed.

(** The half size that [jointPSFEstimation] computes from an odd width. *)
Lemma half_size (pw : Z) :
  Z.odd pw = true -> pw = (2 * Z.quot (pw - 1) 2 + 1)%Z.
Proof.
  intros Hodd. assert (Z.rem (pw - 1) 2 = 0%Z) as Hrem.
  { apply rem2_even. rewrite Z.even_sub, <- Z.negb_odd, Hodd. reflexivity. }
  pose proof (Z.quot_rem' (pw - 1) 2). lia.
Qed.

Section ConstructorFacts.
Context {disp : Disparity}.


End ConstructorFacts.

(** ** [jointPSFEstimation]: when the window of the PSF fits *)

Lemma roi_bounds {A : Type} (m r : Mat A) (x y w h : Z) :
  Mat.roi m x y w h = Some r ->
  (0 <= x /\ 0 <= w /\ x + w <= Z.of_nat (Mat.cols m) /\
   0 <= y /\ 0 <= h /\ y + h <= Z.of_nat (Mat.rows m))%Z.
Proof. unfold Mat.roi. case_bool_decide; [tauto|discriminate]. Qed.

(** A region has at most the rows and the columns of its rectangle. *)
Lemma roi_size {A : Type} (m r : Mat A) (x y w h : Z) :
  Mat.roi m x y w h = Some r ->
  (Mat.rows r <= Z.to_nat h)%nat /\ Forall (fun row => (length row <= Z.to_nat w)%nat) r.
Proof.
  intros Hr. apply roi_Some in Hr. subst r. case_bool_decide.
  - split; [simpl; lia|constructor].
  - split.
    + rewrite rows_map. unfold Mat.rows. rewrite length_take. lia.
    + apply Forall_fmap, Forall_true. intros row. simpl. rewrite length_take. lia.
Qed.

Lemma roi_empty {A : Type} (m r : Mat A) (x y w h : Z) :
  (w = 0 \/ h = 0)%Z -> Mat.roi m x y w h = Some r -> r = [].
Proof.
  intros Hwh Hr. apply roi_Some in Hr. rewrite bool_decide_eq_true_2 in Hr; assumption.
Qed.

Lemma hconcat_size {A : Type} (a b r : Mat A) (wa wb : nat) :
  Mat.hconcat a b = Some r ->
  Forall (fun row => (length row <= wa)%nat) a ->
  Forall (fun row => (length row <= wb)%nat) b ->
  (Mat.rows r <= Mat.rows a)%nat /\ Forall (fun row => (length row <= wa + wb)%nat) r.
Proof.
  unfold Mat.hconcat. case_bool_decide as Hrows; [|discriminate].
  intros [= <-] Ha Hb. split.
  - unfold Mat.rows. rewrite length_zip_with. lia.
  - clear Hrows. revert b Hb. induction Ha as [|ra a Hra Ha IH]; intros [|rb b] Hb; simpl;
      try constructor.
    + rewrite length_app. pose proof (Forall_inv Hb). simpl in *. lia.
    + apply IH. exact (Forall_inv_tail Hb).
Qed.

Lemma cols_le {A : Type} (m : Mat A) (w : nat) :
  Forall (fun row => (length row <= w)%nat) m -> (Mat.cols m <= w)%nat.
Proof. destruct 1; simpl; lia. Qed.

Section FitFacts.
Context `{External}.
Variable self : Members.

(** Where the slices can be swapped, the result is not larger than the
    kernel, and it is empty when the half size is zero. *)
Lemma swapQuadrants_size (kernel swapped : Mat Q) :
  swapQuadrants self kernel = Some swapped ->
  (0 <= Z.quot (psfWidth self - 1) 2)%Z /\
  (Mat.rows swapped <= Mat.rows kernel)%nat /\
  (Mat.cols swapped <= Mat.cols kernel)%nat /\
  (Z.quot (psfWidth self - 1) 2 = 0%Z -> swapped = []).
Proof.
  unfold swapQuadrants. set (hs := Z.quot (psfWidth self - 1) 2).
  set (x := Z.of_nat (Mat.cols kernel)). set (y := Z.of_nat (Mat.rows kernel)).
  intros Hswap.
  destruct (Mat.roi kernel 0 0 (x - hs) (y - hs)) as [q0|] eqn:H0; simpl in Hswap; [|discriminate].
  destruct (Mat.roi kernel (x - hs) 0 hs (y - hs)) as [q1|] eqn:H1; simpl in Hswap; [|discriminate].
  destruct (Mat.roi kernel 0 (y - hs) (x - hs) hs) as [q2|] eqn:H2; simpl in Hswap; [|discriminate].
  destruct (Mat.roi kernel (x - hs) (y - hs) hs hs) as [q3|] eqn:H3; simpl in Hswap; [|discriminate].
  destruct (Mat.hconcat q3 q2) as [kernelSwap|] eqn:H32; simpl in Hswap; [|discriminate].
  destruct (Mat.hconcat q1 q0) as [tmp|] eqn:H10; simpl in Hswap; [|discriminate].
  unfold Mat.vconcat in Hswap. case_bool_decide; [|discriminate]. injection Hswap as <-.
  pose proof (roi_bounds _ _ _ _ _ _ H0) as B0.
  pose proof (roi_bounds _ _ _ _ _ _ H3) as B3.
  destruct (roi_size _ _ _ _ _ _ H0) as [R0 L0]. destruct (roi_size _ _ _ _ _ _ H1) as [R1 L1].
  destruct (roi_size _ _ _ _ _ _ H2) as [R2 L2]. destruct (roi_size _ _ _ _ _ _ H3) as [R3 L3].
  destruct (hconcat_size _ _ _ _ _ H32 L3 L2) as [R32 L32].
  destruct (hconcat_size _ _ _ _ _ H10 L1 L0) as [R10 L10].
  split; [lia|]. split; [|split].
  - unfold Mat.rows in *. rewrite length_app. fold x y in B0. lia.
  - apply cols_le, Forall_app. split.
    + eapply Forall_impl; [exact L32|]. intros row Hrow. simpl in *. fold x in B0. lia.
    + eapply Forall_impl; [exact L10|]. intros row Hrow. simpl in *. fold x in B0. lia.
  - intros Hhs. rewrite Hhs in *.
    apply roi_empty in H1; [|lia]. apply roi_empty in H3; [|lia]. subst q1 q3.
    unfold Mat.hconcat in H32, H10. repeat case_bool_decide; try discriminate.
    injection H32 as <-. injection H10 as <-. reflexivity.
Qed.

(** X2. [jointPSFEstimation] returns a PSF exactly when the width given to
    the constructor is at least 3 and the window of [psfWidth] by [psfWidth]
    samples fits into the inverse transform; otherwise an assertion of
    OpenCV (a rectangle outside the matrix, slices that cannot be joined)
    raises.  In particular the widths 1 and 2, which give a PSF of a single
    sample, always raise. *)
Theorem jointPSF_kernel_fits (K : Mat complex) (width : Z) :
  let kernel := idft K in
  Mat.rect kernel -> psfWidth self = init_psfWidth width ->
  ((exists kernelPSF, jointPSFKernel self K = Some kernelPSF) <->
   (3 <= width)%Z /\
   (psfWidth self <= Z.of_nat (Mat.rows kernel))%Z /\
   (psfWidth self <= Z.of_nat (Mat.cols kernel))%Z).
Proof.
  intros kernel Hrect Hpw.
  pose proof (init_psfWidth_odd width) as Hodd. rewrite <- Hpw in Hodd.
  pose proof (half_size _ Hodd) as Hhalf.
  assert (width - 1 <= psfWidth self <= width)%Z as Hnear.
  { rewrite Hpw. unfold init_psfWidth. case_bool_decide; lia. }
  split.
  - intros [kernelPSF Hk]. unfold jointPSFKernel in Hk. fold kernel in Hk.
    destruct (cutKernel self kernel) as [cut|] eqn:Hcut; simpl in Hk; [|discriminate].
    unfold cutKernel in Hcut.
    destruct (swapQuadrants self (Mat.threshold_tozero 0 kernel)) as [swapped|] eqn:Hswap;
      simpl in Hcut; [|discriminate].
    destruct (swapQuadrants_size _ _ Hswap) as (Hhs & Hrows & Hcols & Hnil).
    unfold Mat.threshold_tozero in Hrows, Hcols.
    rewrite rows_map in Hrows. rewrite cols_map_map in Hcols.
    apply roi_bounds in Hcut.
    assert (Z.quot (psfWidth self - 1) 2 <> 0)%Z as Hne.
    { intros Hz. rewrite (Hnil Hz) in Hcut. simpl in Hcut. lia. }
    lia.
  - intros (Hw & Hy & Hx).
    destruct (cutKernel_window self kernel (Z.to_nat (Z.quot (psfWidth self - 1) 2)))
      as (cut & Hcut & _); [assumption|lia|lia|lia|lia|].
    exists (Mat.div cut (Mat.sum cut)). unfold jointPSFKernel. fold kernel.
    rewrite Hcut. reflexivity.
Qed.

End FitFacts.

(** On the 4 x 4 instance: the width 4 gives a PSF of 3 x 3 samples, which
    fits; the width 6 gives a PSF of 5 x 5 samples, which does not. *)
Lemma jointPSF_kernel_fits_witness :
  (exists kernelPSF,
     jointPSFKernel (H := Fixture.pointwise) (Fixture.members FFT)
       (map (map (fun v => mkC v 0)) Fixture.image) = Some kernelPSF) /\
  jointPSFKernel (H := Fixture.pointwise)
    (DepthDeblur (disp := Fixture.disparity) Fixture.image Fixture.image 6 4 FFT)
    (map (map (fun v => mkC v 0)) Fixture.image) = None.
Proof.
  split.
  - apply (jointPSF_kernel_fits (H := Fixture.pointwise) (Fixture.members FFT)
             (map (map (fun v => mkC v 0)) Fixture.image) 4).
    + unfold Mat.rect. vm_compute. repeat constructor.
    + reflexivity.
    + vm_compute. repeat split; discriminate.
  - destruct (jointPSFKernel (H := Fixture.pointwise)
                (DepthDeblur (disp := Fixture.disparity) Fixture.image Fixture.image 6 4 FFT)
                (map (map (fun v => mkC v 0)) Fixture.image)) as [kernelPSF|] eqn:Hk;
      [|reflexivity].
    exfalso.
    assert (exists kernelPSF,
              jointPSFKernel (H := Fixture.pointwise)
                (DepthDeblur (disp := Fixture.disparity) Fixture.image Fixture.image 6 4 FFT)
                (map (map (fun v => mkC v 0)) Fixture.image) = Some kernelPSF) as Hex
      by (exists kernelPSF; exact Hk).
    apply (jointPSF_kernel_fits (H := Fixture.pointwise) _ _ 6) in Hex.
    + vm_compute in Hex. destruct Hex as (_ & Hrows & _). apply Hrows. reflexivity.
    + unfold Mat.rect. vm_compute. repeat constructor.
    + reflexivity.
Defined.

(** ** [jointPSFEstimation]: the scale of the inverse transform *)

Lemma bind_Forall2 {A B : Type} (R : A -> A -> Prop) (R' : B -> B -> Prop)
    (x y : option A) (f g : A -> option B) :
  option_Forall2 R x y ->
  (forall a b, R a b -> option_Forall2 R' (f a) (g b)) ->
  option_Forall2 R' (x ≫= f) (y ≫= g).
Proof. intros [a b Hab|] Hfg; simpl; [apply Hfg, Hab|constructor]. Qed.

Section Samplewise.
Variable R : Q -> Q -> Prop.

Lemma samplewise_rows (a b : Mat Q) : samplewise R a b -> Mat.rows a = Mat.rows b.
Proof. apply Forall2_length. Qed.

Lemma samplewise_cols (a b : Mat Q) : samplewise R a b -> Mat.cols a = Mat.cols b.
Proof. destruct 1 as [|ra rb a b Hr _]; simpl; [reflexivity|]. exact (Forall2_length _ _ _ Hr). Qed.

Lemma roi_samplewise (a b : Mat Q) (x y w h : Z) :
  samplewise R a b ->
  option_Forall2 (samplewise R) (Mat.roi a x y w h) (Mat.roi b x y w h).
Proof.
  intros Hab. unfold Mat.roi.
  rewrite <- (samplewise_rows a b Hab), <- (samplewise_cols a b Hab).
  case_bool_decide; [|constructor]. constructor.
  case_bool_decide; [constructor|].
  unfold samplewise. apply Forall2_fmap, Forall2_take, Forall2_drop.
  eapply Forall2_impl; [exact Hab|]. intros ra rb Hr. simpl.
  apply Forall2_take, Forall2_drop, Hr.
Qed.

Lemma hconcat_samplewise (a b a' b' : Mat Q) :
  samplewise R a b -> samplewise R a' b' ->
  option_Forall2 (samplewise R) (Mat.hconcat a a') (Mat.hconcat b b').
Proof.
  intros Hab Hab'. unfold Mat.hconcat.
  rewrite <- (samplewise_rows a b Hab), <- (samplewise_rows a' b' Hab').
  case_bool_decide; [|constructor]. constructor. clear H.
  revert a' b' Hab'. induction Hab as [|ra rb a b Hr Hab IH]; intros a' b' Hab'.
  - constructor.
  - destruct Hab' as [|ra' rb' a' b' Hr' Hab']; simpl; constructor.
    + apply Forall2_app; assumption.
    + apply IH, Hab'.
Qed.

Lemma vconcat_samplewise (a b a' b' : Mat Q) :
  samplewise R a b -> samplewise R a' b' ->
  option_Forall2 (samplewise R) (Mat.vconcat a a') (Mat.vconcat b b').
Proof.
  intros Hab Hab'. unfold Mat.vconcat.
  rewrite <- (samplewise_cols a b Hab), <- (samplewise_cols a' b' Hab').
  case_bool_decide; constructor. apply Forall2_app; assumption.
Qed.

End Samplewise.

Lemma samplewise_map (R R' : Q -> Q -> Prop) (f g : Q -> Q) (a b : Mat Q) :
  (forall v v', R v v' -> R' (f v) (g v')) ->
  samplewise R a b -> samplewise R' (map (map f) a) (map (map g) b).
Proof.
  intros Hfg Hab. unfold samplewise. apply Forall2_fmap.
  eapply Forall2_impl; [exact Hab|]. intros ra rb Hr. simpl.
  apply Forall2_fmap. eapply Forall2_impl; [exact Hr|]. exact Hfg.
Qed.

(** The sum of a matrix whose samples were multiplied by [c]. *)
Lemma sum_scaled (c : Q) (a b : Mat Q) :
  samplewise (fun v v' => v' == v * c) a b -> Mat.sum b == Mat.sum a * c.
Proof.
  unfold Mat.sum. induction 1 as [|ra rb a b Hr Hab IH]; simpl; [ring|].
  change (foldr Qplus 0 (map Mat.Qsum b)) with (Mat.Qsum (map Mat.Qsum b)).
  change (foldr Qplus 0 (map Mat.Qsum a)) with (Mat.Qsum (map Mat.Qsum a)).
  rewrite IH. assert (Mat.Qsum rb == Mat.Qsum ra * c) as ->.
  { clear -Hr. induction Hr as [|v v' ra rb Hv Hr IH]; simpl; [ring|].
    change (foldr Qplus 0 rb) with (Mat.Qsum rb).
    change (foldr Qplus 0 ra) with (Mat.Qsum ra). rewrite IH, Hv. ring. }
  ring.
Qed.

Section ScaleFacts.
Context `{External}.
Variable self : Members.

Lemma swapQuadrants_samplewise (R : Q -> Q -> Prop) (a b : Mat Q) :
  samplewise R a b ->
  option_Forall2 (samplewise R) (swapQuadrants self a) (swapQuadrants self b).
Proof.
  intros Hab. unfold swapQuadrants.
  rewrite <- (samplewise_rows R a b Hab), <- (samplewise_cols R a b Hab).
  repeat (eapply bind_Forall2; [apply roi_samplewise, Hab|]; intros ? ? ?).
  eapply bind_Forall2; [apply hconcat_samplewise; eassumption|]. intros ? ? ?.
  eapply bind_Forall2; [apply hconcat_samplewise; eassumption|]. intros ? ? ?.
  apply vconcat_samplewise; assumption.
Qed.

(** The cut kernel of a kernel that was multiplied by a positive number is
    the cut kernel multiplied by that number. *)
Lemma cutKernel_scaled (c : Q) (kernel : Mat Q) :
  0 < c ->
  option_Forall2 (samplewise (fun v v' => v' == v * c))
    (cutKernel self kernel) (cutKernel self (Mat.mulc kernel c)).
Proof.
  intros Hc. unfold cutKernel.
  eapply bind_Forall2; [apply swapQuadrants_samplewise|intros ? ? ?; apply roi_samplewise; eassumption].
  unfold Mat.threshold_tozero, Mat.mulc, samplewise.
  apply Forall2_fmap, Forall2_fmap_r, Forall_Forall2_diag, Forall_true. intros row. simpl.
  apply Forall2_fmap, Forall2_fmap_r, Forall_Forall2_diag, Forall_true. intros v. simpl.
  destruct (Qlt_le_dec 0 v) as [Hv|Hv], (Qlt_le_dec 0 (v * c)) as [Hvc|Hvc]; try ring.
  - exfalso. apply (Qlt_not_le _ _ (Qmult_lt_0_compat _ _ Hv Hc)), Hvc.
  - exfalso. apply (Qlt_not_le _ _ Hvc). rewrite <- (Qmult_0_l c).
    apply Qmult_le_compat_r; [assumption|apply Qlt_le_weak, Hc].
Qed.

(** X3. The inverse transform is taken without [DFT_SCALE]; the scale does
    not matter: a spectrum whose inverse transform is that of [K] multiplied
    by a positive number yields the same PSF, sample by sample, when the sum
    of the window is not zero, and raises when [K] raises. *)
Theorem jointPSF_kernel_scale_free (K K' : Mat complex) (c : Q) :
  0 < c -> idft K' = Mat.mulc (idft K) c ->
  match jointPSFKernel self K, jointPSFKernel self K' with
  | Some kernelPSF, Some kernelPSF' =>
      (forall cut, cutKernel self (idft K) = Some cut -> ~ Mat.sum cut == 0 ->
                   samplewise Qeq kernelPSF kernelPSF')
  | None, None => True
  | _, _ => False
  end.
Proof.
  intros Hc HK'. unfold jointPSFKernel. rewrite HK'.
  destruct (cutKernel_scaled c (idft K) Hc) as [cut cut' Hcut|]; simpl; [|exact I].
  intros cut0 [= <-] Hsum.
  pose proof (sum_scaled c cut cut' Hcut) as Hsum'.
  unfold Mat.div. eapply samplewise_map; [|exact Hcut].
  intros v v' Hv. simpl in Hv. rewrite Hv, Hsum'. field.
  split; try assumption. intros Hz. rewrite Hz in Hc. exact (Qlt_irrefl _ Hc).
Qed.

End ScaleFacts.

(** On the 4 x 4 instance, for the image and the image multiplied by 16 (the
    number of its samples). *)
Lemma jointPSF_kernel_scale_free_witness :
  match jointPSFKernel (H := Fixture.pointwise) (Fixture.members FFT)
          (map (map (fun v => mkC v 0)) Fixture.image),
        jointPSFKernel (H := Fixture.pointwise) (Fixture.members FFT)
          (map (map (fun v => mkC v 0)) (Mat.mulc Fixture.image 16)) with
  | Some kernelPSF, Some kernelPSF' =>
      forall cut,
        cutKernel (Fixture.members FFT)
          (@idft Fixture.pointwise (map (map (fun v => mkC v 0)) Fixture.image)) = Some cut ->
        ~ Mat.sum cut == 0 -> samplewise Qeq kernelPSF kernelPSF'
  | None, None => True
  | _, _ => False
  end.
Proof.
  apply (jointPSF_kernel_scale_free (H := Fixture.pointwise) (Fixture.members FFT)
           (map (map (fun v => mkC v 0)) Fixture.image)
           (map (map (fun v => mkC v 0)) (Mat.mulc Fixture.image 16)) 16).
  - reflexivity.
  - vm_compute. reflexivity.
Defined.

(** ** [toplevelKernelEstimation]: the kernels that were loaded *)

Lemma Qsum_toFloat (row : list N) :
  Mat.Qsum (map (fun v => inject_Z (Z.of_N v)) row) ==
  inject_Z (Z.of_N (foldr N.add 0%N row)).
Proof.
  induction row as [|v row IH]; simpl; [reflexivity|].
  change (foldr Qplus 0 (map (fun v => inject_Z (Z.of_N v)) row))
    with (Mat.Qsum (map (fun v => inject_Z (Z.of_N v)) row)).
  rewrite IH, N2Z.inj_add, inject_Z_plus. reflexivity.
Qed.

(** The sum of a loaded image is the sum of its 8 bit samples. *)
Lemma sum_toFloat (m : Mat N) : Mat.sum (toFloat m) == inject_Z (Z.of_N (Mat.Nsum m)).
Proof.
  unfold Mat.sum, Mat.Nsum, toFloat. induction m as [|row m IH]; simpl; [reflexivity|].
  change (foldr Qplus 0 (map Mat.Qsum (map (map (fun v => inject_Z (Z.of_N v))) m)))
    with (Mat.Qsum (map Mat.Qsum (map (map (fun v => inject_Z (Z.of_N v))) m))).
  rewrite IH, Qsum_toFloat, N2Z.inj_add, inject_Z_plus. reflexivity.
Qed.

Lemma toFloat_nonneg (m : Mat N) : Mat.all (fun v => 0 <= v) (toFloat m).
Proof.
  unfold Mat.all, toFloat.
  apply Forall_fmap, Forall_true. intros row. simpl.
  apply Forall_fmap, Forall_true. intros v. simpl.
  change 0 with (inject_Z 0). rewrite <- Zle_Qle. lia.
Qed.

(** A loaded image that is not black, divided by its sum, is energy
    preserving. *)
Lemma loaded_kernel_energy (kernelImage : Mat N) :
  Mat.Nsum kernelImage <> 0%N ->
  let kernel := Mat.div (toFloat kernelImage) (Mat.sum (toFloat kernelImage)) in
  Mat.all (fun v => 0 <= v) kernel /\ Mat.sum kernel == 1.
Proof.
  intros Hsum kernel. apply energy_preserving; [apply toFloat_nonneg|].
  rewrite sum_toFloat. change 0 with (inject_Z 0). rewrite inject_Z_injective. lia.
Qed.

Lemma sameShape_store_psf (id : Z) (k : Mat Q) (st : State) :
  sameShape (regionTree st) (regionTree (store_psf id k st)) /\
  sameEntropies (regionTree st) (regionTree (store_psf id k st)).
Proof.
  split; intros id'; unfold store_psf; simpl;
    (destruct (decide (id = id')) as [->|Hne];
     [rewrite lookup_total_insert_eq|rewrite lookup_total_insert_ne by done]);
    try split; reflexivity.
Qed.

Section TopLevelFacts.
Context `{External}.

Lemma toplevelKernelLoop_Ok (ids : list Z) :
  forall (i : nat) (st st' : State),
  toplevelKernelLoop i ids st = Ok st' ->
  (forall j id, ids !! j = Some id ->
     exists kernelImage,
       imread (kernelFile (i + j)) = Some kernelImage /\
       ((forall j', (j < j')%nat -> ids !! j' <> Some id) ->
        psf (regionTree st' !!! id) =
          Mat.div (toFloat kernelImage) (Mat.sum (toFloat kernelImage)))) /\
  (forall id, id ∉ ids -> regionTree st' !!! id = regionTree st !!! id) /\
  sameShape (regionTree st) (regionTree st') /\
  sameEntropies (regionTree st) (regionTree st') /\
  history st' = rev (map PsfStored ids) ++ history st.
Proof.
  induction ids as [|id0 ids IH]; intros i st st' Hloop; simpl in Hloop.
  - injection Hloop as <-. split; [intros j id Hj; discriminate|].
    split; [reflexivity|]. split; [split; reflexivity|]. split; [intros id; reflexivity|reflexivity].
  - destruct (imread (kernelFile i)) as [kernelImage|] eqn:Hread; [|discriminate].
    set (k := Mat.div (toFloat kernelImage) (Mat.sum (toFloat kernelImage))) in *.
    destruct (IH (S i) (store_psf id0 k st) st' Hloop) as (Hloaded & Hother & Hshape & Hent & Hh).
    destruct (sameShape_store_psf id0 k st) as [Hshape0 Hent0].
    split; [|split; [|split; [|split]]].
    + intros [|j] id Hj; simpl in Hj.
      * injection Hj as <-. exists kernelImage. rewrite Nat.add_0_r.
        split; [exact Hread|]. intros Hlast. rewrite Hother.
        -- apply psf_store_psf_eq.
        -- intros Hin. apply list_elem_of_lookup in Hin as [j' Hj'].
           apply (Hlast (S j')); [lia|exact Hj'].
      * destruct (Hloaded j id Hj) as (img & Himg & Hpsf). exists img.
        replace (i + S j)%nat with (S i + j)%nat by lia. split; [exact Himg|].
        intros Hlast. apply Hpsf. intros j' Hj'. apply (Hlast (S j')). lia.
    + intros id Hid. rewrite not_elem_of_cons in Hid. destruct Hid as [Hne Hid].
      rewrite (Hother id Hid). apply node_store_psf_ne. congruence.
    + intros id. destruct (Hshape id) as [-> ->]. apply Hshape0.
    + intros id. rewrite (Hent id). apply Hent0.
    + rewrite Hh. simpl. rewrite <- app_assoc. reflexivity.
Qed.

(** X4. When [toplevelKernelEstimation] returns, the kernel image
    [kernel<i>.png] of every position [i] of the list of top-level nodes
    could be loaded, and the node at that position (at its last position, if
    it is listed twice) has the loaded image divided by its sum as PSF: a
    kernel of non-negative samples that sum to 1, unless the image is black.
    Nothing else changes in the tree: the other nodes, the shape and the
    entropies are what they were, and one store per position is recorded. *)
Theorem toplevel_kernels_loaded (st st' : State) :
  toplevelKernelEstimation st = Ok st' ->
  (forall i id, topLevelNodeIds st !! i = Some id ->
     exists kernelImage,
       imread (kernelFile i) = Some kernelImage /\
       ((forall j, (i < j)%nat -> topLevelNodeIds st !! j <> Some id) ->
        psf (regionTree st' !!! id) =
          Mat.div (toFloat kernelImage) (Mat.sum (toFloat kernelImage)) /\
        (Mat.Nsum kernelImage <> 0%N ->
         Mat.all (fun v => 0 <= v) (psf (regionTree st' !!! id)) /\
         Mat.sum (psf (regionTree st' !!! id)) == 1))) /\
  (forall id, id ∉ topLevelNodeIds st -> regionTree st' !!! id = regionTree st !!! id) /\
  sameShape (regionTree st) (regionTree st') /\
  sameEntropies (regionTree st) (regionTree st') /\
  history st' = rev (map PsfStored (topLevelNodeIds st)) ++ history st.
Proof.
  intros Hok. unfold toplevelKernelEstimation in Hok.
  destruct (toplevelKernelLoop_Ok _ _ _ _ Hok) as (Hloaded & Hrest).
  split; [|exact Hrest].
  intros i id Hi. destruct (Hloaded i id Hi) as (kernelImage & Hread & Hpsf).
  exists kernelImage. split; [exact Hread|]. intros Hlast.
  rewrite (Hpsf Hlast). split; [reflexivity|]. intros Hsum.
  apply loaded_kernel_energy. exact Hsum.
Qed.

End TopLevelFacts.

(** On the seven nodes: the top-level node 6 gets the kernel of
    [kernel0.png], and its PSF sums to 1. *)
Lemma toplevel_kernels_loaded_witness :
  exists st',
    toplevelKernelEstimation (H := Fixture.pointwise) Fixture.state = Ok st' /\
    Mat.sum (psf (regionTree st' !!! 6%Z)) == 1.
Proof.
  destruct (toplevelKernelEstimation (H := Fixture.pointwise) Fixture.state) as [st'|what] eqn:Hok;
    [|vm_compute in Hok; discriminate].
  exists st'. split; [reflexivity|].
  destruct (toplevel_kernels_loaded (H := Fixture.pointwise) Fixture.state st' Hok)
    as (Hloaded & _).
  destruct (Hloaded 0%nat 6%Z eq_refl) as (kernelImage & Hread & Hpsf).
  apply Hpsf.
  - intros [|j] Hj; [lia|]. discriminate.
  - vm_compute in Hread. injection Hread as <-. discriminate.
Defined.

(** ** [computeEntropy] *)

(** The entropy in closed form: minus the sum, over the rows, of [x log x]
    for the positive samples. *)
Lemma computeEntropy_sum `{External} (kernel : Mat Q) :
  computeEntropy kernel ==
  - Mat.Qsum (map (fun row =>
                Mat.Qsum (map (fun x => if Qlt_le_dec 0 x then x * ln x else 0) row))
              kernel).
Proof.
  unfold computeEntropy.
  set (term := fun x => if Qlt_le_dec 0 x then x * ln x else 0).
  assert (forall row acc,
            foldl (fun entropy x => if Qlt_le_dec 0 x then entropy + x * ln x else entropy)
                  acc row == acc + Mat.Qsum (map term row)) as Hrow.
  { induction row as [|x row IH]; intros acc; simpl; [ring|].
    rewrite IH. change (foldr Qplus 0 (map term row)) with (Mat.Qsum (map term row)).
    unfold term at 2. destruct (Qlt_le_dec 0 x); ring. }
  assert (forall m acc,
            foldl (fun entropy row =>
                     foldl (fun entropy x =>
                              if Qlt_le_dec 0 x then entropy + x * ln x else entropy)
                           entropy row) acc m
            == acc + Mat.Qsum (map (fun row => Mat.Qsum (map term row)) m)) as Hm.
  { induction m as [|row m IH]; intros acc; simpl; [ring|].
    rewrite IH, Hrow.
    change (foldr Qplus 0 (map (fun row => Mat.Qsum (map term row)) m))
      with (Mat.Qsum (map (fun row => Mat.Qsum (map term row)) m)). ring. }
  rewrite Hm. ring.
Qed.

Lemma Qsum_nonpos (l : list Q) : Forall (fun v => v <= 0) l -> Mat.Qsum l <= 0.
Proof.
  induction 1 as [|v l Hv Hl IH]; simpl; [lra|].
  change (foldr Qplus 0 l) with (Mat.Qsum l). lra.
Qed.

(** X5. The entropy of a kernel without a sample above 1 (so of every
    energy preserving kernel) is not negative, as [log] is not positive on
    (0, 1]; the samples that are not positive add nothing. *)
Theorem computeEntropy_nonneg `{External} (kernel : Mat Q) :
  (forall x, 0 < x -> x <= 1 -> ln x <= 0) ->
  Mat.all (fun v => v <= 1) kernel ->
  0 <= computeEntropy kernel.
Proof.
  intros Hln Hkernel. rewrite computeEntropy_sum.
  assert (Mat.Qsum (map (fun row =>
            Mat.Qsum (map (fun x => if Qlt_le_dec 0 x then x * ln x else 0) row)) kernel) <= 0)
    as Hsum; [|lra].
  apply Qsum_nonpos, Forall_fmap. eapply Forall_impl; [exact Hkernel|].
  intros row Hrow. simpl. apply Qsum_nonpos, Forall_fmap.
  eapply Forall_impl; [exact Hrow|]. intros x Hx. simpl in *.
  destruct (Qlt_le_dec 0 x) as [Hpos|Hneg]; [|lra].
  pose proof (Hln x Hpos Hx) as Hl.
  assert (0 <= x * - ln x) as Hprod by (apply Qmult_le_0_compat; lra).
  assert (x * - ln x == - (x * ln x)) as Heq by ring. rewrite Heq in Hprod. lra.
Qed.

(** With the logarithm [x - 1] of the instance, for a kernel of two samples
    1/2. *)
Lemma computeEntropy_nonneg_witness :
  0 <= computeEntropy (H := Fixture.pointwise) Fixture.kernel3'.
Proof.
  apply (computeEntropy_nonneg (H := Fixture.pointwise) Fixture.kernel3').
  - intros x Hpos Hx. simpl. lra.
  - unfold Mat.all. vm_compute. repeat constructor; discriminate.
Defined.

(** X6. [computeEntropy] prevents the calculation of [log(0)]: the
    logarithm is taken of positive samples only, so that two logarithms that
    agree on the positive numbers give the same entropy; a kernel without a
    positive sample has the entropy [-1 * 0]. *)
Theorem computeEntropy_log_of_positive (H1 H2 : External) (kernel : Mat Q) :
  (forall x, 0 < x -> @ln H1 x = @ln H2 x) ->
  @computeEntropy H1 kernel = @computeEntropy H2 kernel /\
  (Mat.all (fun v => v <= 0) kernel -> @computeEntropy H1 kernel = -1 * 0).
Proof.
  intros Hln.
  set (step1 := fun entropy x => if Qlt_le_dec 0 x then entropy + x * @ln H1 x else entropy).
  set (step2 := fun entropy x => if Qlt_le_dec 0 x then entropy + x * @ln H2 x else entropy).
  assert (forall row acc, foldl step1 acc row = foldl step2 acc row) as Hrow.
  { induction row as [|x row IH]; intros acc; simpl; [reflexivity|].
    unfold step1 at 2, step2 at 2.
    destruct (Qlt_le_dec 0 x) as [Hpos|Hneg]; [rewrite (Hln x Hpos)|]; apply IH. }
  assert (forall row acc, Forall (fun v => v <= 0) row -> foldl step1 acc row = acc) as Hskip.
  { intros row acc Hall. revert acc.
    induction Hall as [|x row Hx Hall IH]; intros acc; simpl; [reflexivity|].
    unfold step1 at 2. destruct (Qlt_le_dec 0 x) as [Hpos|Hneg]; [|apply IH].
    exfalso. exact (Qlt_not_le _ _ Hpos Hx). }
  split.
  - change (-1 * foldl (fun entropy row => foldl step1 entropy row) 0 kernel =
            -1 * foldl (fun entropy row => foldl step2 entropy row) 0 kernel).
    f_equal. generalize (0 : Q) as acc.
    induction kernel as [|row kernel IH]; intros acc; simpl; [reflexivity|].
    rewrite Hrow. apply IH.
  - intros Hkernel.
    change (-1 * foldl (fun entropy row => foldl step1 entropy row) 0 kernel = -1 * 0).
    f_equal. generalize (0 : Q) as acc.
    induction Hkernel as [|row kernel Hr Hkernel IH]; intros acc; simpl; [reflexivity|].
    rewrite (Hskip row acc Hr). apply IH.
Qed.

(** With a logarithm that is [x - 1] on the positive numbers and 7 elsewhere. *)
Lemma computeEntropy_log_of_positive_witness :
  computeEntropy (H := Fixture.pointwise) Fixture.kernel3' =
  computeEntropy
    (H := variant (fun x => if Qlt_le_dec 0 x then x - 1 else 7)
                  (@crossCorrelation Fixture.pointwise))
    Fixture.kernel3'.
Proof.
  apply (computeEntropy_log_of_positive Fixture.pointwise
           (variant (fun x => if Qlt_le_dec 0 x then x - 1 else 7)
                    (@crossCorrelation Fixture.pointwise))
           Fixture.kernel3').
  intros x Hpos. simpl. destruct (Qlt_le_dec 0 x) as [_|Hneg]; [reflexivity|].
  exfalso. exact (Qlt_not_le _ _ Hpos Hneg).
Defined.

(** ** [isReliablePSF]: the levels of the tree *)

Section LevelFacts.
Context `{External}.

Lemma isReliablePSF_mean (t : gmap Z node) (id : Z) :
  isReliablePSF t id = true <->
  entropy (t !!! id) - levelMean t id < (2 # 10) * levelMean t id.
Proof.
  unfold isReliablePSF, levelMean.
  set (sum := foldl (fun s nid => s + entropy (t !!! nid)) 0 (getLevelPeers id)).
  set (n := inject_Z (Z.of_nat (length (getLevelPeers id)))).
  assert (sum / n == Mat.Qsum (map (fun nid => entropy (t !!! nid)) (getLevelPeers id)) / n)
    as Hmean.
  { unfold sum. rewrite foldl_Qsum. apply Qmult_comp; [ring|reflexivity]. }
  destruct (Qlt_le_dec _ _) as [Hlt|Hle]; rewrite Hmean in *.
  - split; [intros _; exact Hlt|reflexivity].
  - split; [discriminate|]. intros Hlt. exfalso. exact (Qlt_not_le _ _ Hlt Hle).
Qed.

Lemma Qsum_uniform (e : Q) (l : list Q) :
  Forall (fun v => v == e) l -> Mat.Qsum l == inject_Z (Z.of_nat (length l)) * e.
Proof.
  induction 1 as [|v l Hv Hl IH]; [simpl; ring|].
  change (Mat.Qsum (v :: l)) with (v + Mat.Qsum l). rewrite IH, Hv.
  cbn [length]. rewrite Nat2Z.inj_succ. unfold Z.succ. rewrite inject_Z_plus. ring.
Qed.

(** X7. On a level whose nodes all have the same entropy, the nodes are
    reliable when that entropy is positive, and no node is reliable when it
    is zero (kernels of a single sample) or negative: the threshold is a
    fraction of the mean. *)
Theorem reliable_on_uniform_level (t : gmap Z node) (id : Z) (e : Q) :
  getLevelPeers id <> [] ->
  Forall (fun nid => entropy (t !!! nid) == e) (getLevelPeers id) ->
  entropy (t !!! id) == e ->
  (isReliablePSF t id = true <-> 0 < e).
Proof.
  intros Hpeers Hall He. rewrite isReliablePSF_mean.
  assert (levelMean t id == e) as ->.
  { unfold levelMean. rewrite (Qsum_uniform e).
    - rewrite length_map. field. change 0 with (inject_Z 0). rewrite inject_Z_injective.
      destruct (getLevelPeers id); [done|]. simpl. lia.
    - apply Forall_fmap. exact Hall. }
  rewrite He. split; intros Hlt; lra.
Qed.

(** X8. A node that has no more entropy than a reliable node of its level
    is reliable. *)
Theorem reliable_is_monotone (t : gmap Z node) (id nid : Z) :
  getLevelPeers nid = getLevelPeers id ->
  entropy (t !!! nid) <= entropy (t !!! id) ->
  isReliablePSF t id = true -> isReliablePSF t nid = true.
Proof.
  intros Hpeers Hle. rewrite !isReliablePSF_mean. unfold levelMean. rewrite Hpeers.
  intros Hlt. lra.
Qed.

End LevelFacts.

(** On the seven nodes: the nodes 4 and 5, of entropy 0, are not reliable. *)
Lemma reliable_on_uniform_level_witness :
  isReliablePSF (H := Fixture.pointwise) Fixture.estimatedTree 4 = true <-> 0 < 0.
Proof.
  apply (reliable_on_uniform_level (H := Fixture.pointwise) Fixture.estimatedTree 4 0).
  - discriminate.
  - vm_compute. repeat constructor.
  - reflexivity.
Defined.

(** On the seven nodes: the leaf 1 beside the reliable leaf 0. *)
Lemma reliable_is_monotone_witness :
  isReliablePSF (H := Fixture.pointwise) Fixture.estimatedTree 1 = true.
Proof.
  apply (reliable_is_monotone (H := Fixture.pointwise) Fixture.estimatedTree 0 1).
  - reflexivity.
  - vm_compute. discriminate.
  - vm_compute. reflexivity.
Defined.

(** ** [psfSelection]: what it leaves in the members *)

Lemma vec_get_set (l : list (Mat Q)) (i : Z) (x : Mat Q) :
  (0 <= i < Z.of_nat (length l))%Z -> vec_get (vec_set l i x) i = x.
Proof.
  intros Hi. unfold vec_get. rewrite bool_decide_eq_true_2 by lia.
  rewrite vec_set_lookup, decide_True by (split; lia). reflexivity.
Qed.

Section SelectionState.
Context `{External}.
Variable self : Members.

(** The loop of [psfSelection] writes nothing but the slot [id] of the
    store, and this only for a leaf, with the iterative solver. *)
Lemma psfSelection_loop_frame (id : Z) (candidates : list (Mat Q)) :
  forall (i : nat) (minEnergy : Q) (winner : nat) (st : State),
  let st' := snd (psfSelection_loop self id candidates i minEnergy winner st) in
  regionTree st' = regionTree st /\
  topLevelNodeIds st' = topLevelNodeIds st /\
  remainingNodes st' = remainingNodes st /\
  regionStack st' = regionStack st /\
  visitedLeafs st' = visitedLeafs st /\
  length (regionDeconv st') = length (regionDeconv st) /\
  (forall k : nat, Z.of_nat k <> id -> regionDeconv st' !! k = regionDeconv st !! k) /\
  (bool_decide (fst (children (regionTree st !!! id)) = -1)%Z
   && bool_decide (deconvAlgoPSFSelection self = IRLS) = false ->
   regionDeconv st' = regionDeconv st).
Proof.
  induction candidates as [|c rest IH]; intros i minEnergy winner st.
  - simpl. repeat split; reflexivity.
  - cbv zeta. rewrite psfSelection_loop_cons.
    destruct (Qlt_le_dec _ _).
    + specialize (IH (S i) (selectionEnergy self id c) i (afterLead self id c st)).
      cbv zeta in IH. destruct IH as (Ht & Htop & Hq & Hs & Hv & Hl & Hk & Hd).
      rewrite Ht, Htop, Hq, Hs, Hv, Hl.
      unfold afterLead in *. cbn [regionTree logs with_history] in *.
      destruct (bool_decide (fst (children (regionTree st !!! id)) = (-1)%Z)
                && bool_decide (deconvAlgoPSFSelection self = IRLS)) eqn:Hleaf;
        cbn [regionTree topLevelNodeIds remainingNodes regionStack visitedLeafs regionDeconv
             with_regionDeconv logs with_history] in *.
      * rewrite length_vec_set. repeat split; try reflexivity; [|discriminate].
        intros k Hne. rewrite (Hk k Hne), vec_set_lookup, decide_False; [reflexivity|].
        intros [Heq _]. apply Hne. symmetry. exact Heq.
      * repeat split; try reflexivity; [exact Hk|]. intros _. apply Hd. exact Hleaf.
    + specialize (IH (S i) minEnergy winner
                     (logs [snd (selectionDeconv self c (getMask id LEFT))] st)).
      cbv zeta in IH. destruct IH as (Ht & Htop & Hq & Hs & Hv & Hl & Hk & Hd).
      rewrite Ht, Htop, Hq, Hs, Hv, Hl. repeat split; try reflexivity; assumption.
Qed.

(** For a leaf, with the iterative solver: the slot of the leaf holds the
    latent image of the last candidate that took the lead. *)
Lemma psfSelection_loop_cache (id : Z) (candidates : list (Mat Q)) :
  forall (i : nat) (minEnergy : Q) (winner : nat) (st : State),
  fst (children (regionTree st !!! id)) = (-1)%Z ->
  deconvAlgoPSFSelection self = IRLS ->
  (0 <= id < Z.of_nat (length (regionDeconv st)))%Z ->
  let r := psfSelection_loop self id candidates i minEnergy winner st in
  (fst r = winner /\ Forall (fun c => minEnergy <= selectionEnergy self id c) candidates /\
   regionDeconv (snd r) = regionDeconv st) \/
  (exists j c,
     fst r = (i + j)%nat /\ candidates !! j = Some c /\
     selectionEnergy self id c < minEnergy /\
     vec_get (regionDeconv (snd r)) id = selectionLatent self c (getMask id LEFT)).
Proof.
  induction candidates as [|c rest IH]; intros i minEnergy winner st Hleaf Halgo Hid.
  - left. simpl. repeat split. constructor.
  - cbv zeta. rewrite psfSelection_loop_cons.
    destruct (Qlt_le_dec (selectionEnergy self id c) minEnergy) as [Hlt|Hle].
    + assert (regionDeconv (afterLead self id c st) =
                vec_set (regionDeconv st) id (selectionLatent self c (getMask id LEFT))) as Hd.
      { unfold afterLead. cbn [regionTree logs with_history].
        rewrite Hleaf, Halgo. reflexivity. }
      assert (regionTree (afterLead self id c st) = regionTree st) as Ht.
      { unfold afterLead. destruct (_ && _); reflexivity. }
      specialize (IH (S i) (selectionEnergy self id c) i (afterLead self id c st)).
      rewrite Ht, Hd, length_vec_set in IH. specialize (IH Hleaf Halgo Hid). cbv zeta in IH.
      right. destruct IH as [(Hw & Hall & Hsame)|(j & c2 & Hw & Hj & Hc2 & Hget)].
      * exists 0%nat, c. rewrite Hw, Hsame. split; [lia|]. split; [reflexivity|].
        split; [assumption|]. apply vec_get_set. assumption.
      * exists (S j), c2. rewrite Hw, Hget. split; [lia|]. split; [exact Hj|].
        split; [eapply Qlt_trans; eassumption|reflexivity].
    + specialize (IH (S i) minEnergy winner
                     (logs [snd (selectionDeconv self c (getMask id LEFT))] st)
                     Hleaf Halgo Hid).
      cbv zeta in IH. destruct IH as [(Hw & Hall & Hsame)|(j & c2 & Hw & Hj & Hc2 & Hget)].
      * left. split; [assumption|]. split; [constructor; assumption|exact Hsame].
      * right. exists (S j), c2. rewrite Hw, Hget. split; [lia|]. split; [exact Hj|].
        split; [assumption|reflexivity].
Qed.

(** X9. [psfSelection] reads the tree and writes at most one slot of
    [regionDeconv]: the tree, the list of top-level nodes, the queue, the
    stack, the counter of leaves, the length of the store and every slot but
    [regionDeconv[id]] are what they were; unless [id] is a leaf and the
    iterative solver is configured, the whole store is. *)
Theorem psfSelection_frame (candidates : list (Mat Q)) (id : Z) (st : State) :
  let st' := snd (psfSelection self candidates id st) in
  regionTree st' = regionTree st /\
  topLevelNodeIds st' = topLevelNodeIds st /\
  remainingNodes st' = remainingNodes st /\
  regionStack st' = regionStack st /\
  visitedLeafs st' = visitedLeafs st /\
  length (regionDeconv st') = length (regionDeconv st) /\
  (forall k : nat, Z.of_nat k <> id -> regionDeconv st' !! k = regionDeconv st !! k) /\
  (fst (children (regionTree st !!! id)) <> (-1)%Z \/ deconvAlgoPSFSelection self = FFT ->
   regionDeconv st' = regionDeconv st).
Proof.
  intros st'. subst st'. unfold psfSelection.
  pose proof (psfSelection_loop_frame id candidates 0 2 0%nat st) as Hloop. cbv zeta in Hloop.
  destruct (psfSelection_loop self id candidates 0 2 0%nat st) as [w st']. cbn [snd] in *.
  destruct Hloop as (Ht & Htop & Hq & Hs & Hv & Hl & Hk & Hd).
  repeat (split; [assumption|]). intros Hno. apply Hd.
  destruct Hno as [Hno|Hno].
  - rewrite bool_decide_eq_false_2 by assumption. reflexivity.
  - rewrite Hno. rewrite andb_false_r. reflexivity.
Qed.

(** X10. For a leaf, with the iterative solver, when some candidate has an
    energy below 2: after [psfSelection] the slot of the leaf in
    [regionDeconv] holds the latent image of the winner, clamped to [0, 1]
    and scaled by 255. *)
Theorem psfSelection_caches_winner (candidates : list (Mat Q)) (id : Z) (st : State) :
  fst (children (regionTree st !!! id)) = (-1)%Z ->
  deconvAlgoPSFSelection self = IRLS ->
  (0 <= id < Z.of_nat (length (regionDeconv st)))%Z ->
  Exists (fun c => selectionEnergy self id c < 2) candidates ->
  vec_get (regionDeconv (snd (psfSelection self candidates id st))) id =
  selectionLatent self (fst (psfSelection self candidates id st)) (getMask id LEFT).
Proof.
  intros Hleaf Halgo Hid Hex. unfold psfSelection.
  pose proof (psfSelection_loop_cache id candidates 0 2 0%nat st Hleaf Halgo Hid) as Hloop.
  cbv zeta in Hloop.
  destruct (psfSelection_loop self id candidates 0 2 0%nat st) as [w st']. cbn [fst snd] in *.
  destruct Hloop as [(_ & Hall & _)|(j & c & -> & Hj & _ & Hget)].
  - exfalso. apply Exists_exists in Hex as (c & Hc & Hlt).
    rewrite Forall_forall in Hall. exact (Qlt_not_le _ _ Hlt (Hall c Hc)).
  - rewrite Hget, Nat.add_0_l, Hj. reflexivity.
Qed.

(** X11. A candidate wins only with an energy below 2: when no candidate
    has one, [psfSelection] returns the first candidate (the own PSF of the
    node) and leaves the store as it was. *)
Theorem psfSelection_default_winner (candidates : list (Mat Q)) (id : Z) (st : State) :
  Forall (fun c => 2 <= selectionEnergy self id c) candidates ->
  fst (psfSelection self candidates id st) = default [] (candidates !! 0%nat) /\
  regionDeconv (snd (psfSelection self candidates id st)) = regionDeconv st.
Proof.
  intros Hall. unfold psfSelection.
  pose proof (psfSelection_loop_winner self id candidates 0 2 0%nat st) as Hwin.
  assert (forall rest i w s,
            Forall (fun c => 2 <= selectionEnergy self id c) rest ->
            regionDeconv (snd (psfSelection_loop self id rest i 2 w s)) = regionDeconv s)
    as Hstore.
  { induction rest as [|c rest IH]; intros i w s Hrest; [reflexivity|].
    rewrite psfSelection_loop_cons.
    destruct (Qlt_le_dec _ _) as [Hlt|Hle].
    - exfalso. exact (Qlt_not_le _ _ Hlt (Forall_inv Hrest)).
    - rewrite IH by exact (Forall_inv_tail Hrest). reflexivity. }
  specialize (Hstore candidates 0%nat 0%nat st Hall).
  destruct (psfSelection_loop self id candidates 0 2 0%nat st) as [w st']. cbn [fst snd] in *.
  split; [|exact Hstore].
  destruct Hwin as [[-> _]|(j & c & _ & Hj & Hlt & _)]; [reflexivity|].
  exfalso. rewrite Forall_forall in Hall.
  apply (Qlt_not_le _ _ Hlt), Hall, list_elem_of_lookup. exists j. exact Hj.
Qed.

End SelectionState.

(** On the seven nodes, for the leaf 0 with the iterative solver and a store
    of four slots. *)
Lemma psfSelection_caches_winner_witness :
  let self := Fixture.members IRLS in
  let st := with_regionDeconv (vec_resize [] 4) Fixture.estimated in
  let candidates := candidateSelection (H := Fixture.pointwise) Fixture.estimatedTree 0 1 in
  vec_get (regionDeconv (snd (psfSelection (H := Fixture.pointwise) self candidates 0 st))) 0 =
  selectionLatent (H := Fixture.pointwise) self
    (fst (psfSelection (H := Fixture.pointwise) self candidates 0 st))
    (@getMask Fixture.pointwise 0%Z LEFT).
Proof.
  apply (psfSelection_caches_winner (H := Fixture.pointwise) (Fixture.members IRLS)
           (candidateSelection (H := Fixture.pointwise) Fixture.estimatedTree 0 1) 0
           (with_regionDeconv (vec_resize [] 4) Fixture.estimated)).
  - reflexivity.
  - reflexivity.
  - vm_compute. split; [discriminate|reflexivity].
  - replace (candidateSelection (H := Fixture.pointwise) Fixture.estimatedTree 0 1)
      with [Fixture.kernel3'; Fixture.kernel3; Fixture.kernel3] by (vm_compute; reflexivity).
    apply Exists_cons_hd. vm_compute. reflexivity.
Defined.

(** With a correlation of -1 for every pair of images, every energy is 2. *)
Lemma psfSelection_default_winner_witness :
  fst (psfSelection (H := variant (@ln Fixture.pointwise) (fun _ _ _ => -1))
         (Fixture.members FFT) [Fixture.kernel3'; Fixture.kernel3] 0 Fixture.estimated) =
  Fixture.kernel3'.
Proof.
  apply (psfSelection_default_winner (H := variant (@ln Fixture.pointwise) (fun _ _ _ => -1))
           (Fixture.members FFT) [Fixture.kernel3'; Fixture.kernel3] 0 Fixture.estimated).
  repeat (apply List.Forall_cons; [vm_compute; discriminate|]). apply List.Forall_nil.
Defined.

(** ** The tree walks under any schedule *)

Section Stepwise.
Context {pc : Type}.
Variable step : pc -> State -> option (pc * State).

(** A property of the system that every step keeps holds after a run. *)
Lemma run_invariant (Inv : System pc -> Prop) :
  (forall sys i, Inv sys -> Inv (schedule step sys i)) ->
  forall sched sys, Inv sys -> Inv (run step sched sys).
Proof.
  intros Hstep sched. induction sched as [|i sched IH]; intros sys Hsys; simpl; [assumption|].
  apply IH, Hstep, Hsys.
Qed.

(** A reflexive and transitive relation that every step of a thread
    respects relates the members before and after a run. *)
Lemma run_related (R : State -> State -> Prop) :
  (forall st, R st st) -> (forall a b c, R a b -> R b c -> R a c) ->
  (forall p st p' st', step p st = Some (p', st') -> R st st') ->
  forall sched sys, R (shared sys) (shared (run step sched sys)).
Proof.
  intros Hrefl Htrans Hstep sched sys.
  apply (run_invariant (fun sys' => R (shared sys) (shared sys'))); [|apply Hrefl].
  intros sys' i Hsys'. unfold schedule.
  destruct (threads sys' !! i) as [p|]; [|assumption].
  destruct (step p (shared sys')) as [[p' st']|] eqn:Hp; [|assumption].
  simpl. eapply Htrans; [exact Hsys'|]. eapply Hstep, Hp.
Qed.

End Stepwise.

Section Classification.
Context `{External}.
Variable self : Members.

Lemma stepEstimation_effect (p p' : pcEstimation) (st st' : State) :
  stepEstimation self p st = Some (p', st') -> estimationEffect self st st'.
Proof.
  destruct p as [| |id c1 c2|id c1 c2|id c1 c2|id c1 c2|id c1 c2|]; simpl; intros Hstep.
  - case_bool_decide; injection Hstep as <- <-; constructor.
  - unfold safeQueueAccess in Hstep.
    destruct (remainingNodes st) as [|id q] eqn:Hq; injection Hstep as <- <-.
    + constructor.
    + constructor. exact Hq.
  - destruct (_ && _).
    + rewrite initialChildPSF_expected in Hstep.
      destruct (expectedPSF self _ _) as [k|]; simpl in Hstep; [|discriminate].
      injection Hstep as <- <-. constructor.
    + injection Hstep as <- <-. constructor.
  - rewrite initialChildPSF_expected in Hstep.
    destruct (expectedPSF self _ _) as [k|]; simpl in Hstep; [|discriminate].
    injection Hstep as <- <-. constructor.
  - injection Hstep as <- <-. constructor.
  - injection Hstep as <- <-. constructor.
  - injection Hstep as <- <-. constructor.
  - discriminate.
Qed.

Lemma stepRefinement_effect (p p' : pcRefinement) (st st' : State) :
  stepRefinement self p st = Some (p', st') -> refinementEffect self st st'.
Proof.
  destruct p as [| | |id c1 c2|id c1 c2 cs1|id c1 c2 cs1 cs2|id c1 c2 cs2 w0
                 |id c1 c2 w0 w1|id c1 c2 w1|id c1 c2|]; simpl; intros Hstep.
  - case_bool_decide as Halgo; injection Hstep as <- <-; [|constructor].
    apply ref_resize. exact Halgo.
  - case_bool_decide; injection Hstep as <- <-; constructor.
  - unfold safeQueueAccess in Hstep.
    destruct (remainingNodes st) as [|id q] eqn:Hq; injection Hstep as <- <-.
    + constructor.
    + constructor. exact Hq.
  - destruct (_ && _); injection Hstep as <- <-; constructor.
  - injection Hstep as <- <-. constructor.
  - pose proof (ref_selection self st cs1 c1) as Heff.
    destruct (psfSelection self cs1 c1 st) as [w st1]. injection Hstep as <- <-. exact Heff.
  - pose proof (ref_selection self st cs2 c2) as Heff.
    destruct (psfSelection self cs2 c2 st) as [w st1]. injection Hstep as <- <-. exact Heff.
  - injection Hstep as <- <-. constructor.
  - injection Hstep as <- <-. constructor.
  - injection Hstep as <- <-. constructor.
  - discriminate.
Qed.

End Classification.

(** *** The queue *)

Lemma quiet_ids (new : list event) :
  Forall quiet new -> pushedIds new = [] /\ poppedIds new = [].
Proof.
  intros Hnew. apply Forall_rev in Hnew. unfold pushedIds, poppedIds.
  induction Hnew as [|e l He Hl [IH1 IH2]]; [split; reflexivity|].
  destruct e; simpl in He; try contradiction; split; assumption.
Qed.

Lemma pushedIds_app (new2 new1 : list event) :
  pushedIds (new2 ++ new1) = pushedIds new1 ++ pushedIds new2.
Proof. unfold pushedIds. rewrite rev_app_distr. apply omap_app. Qed.

Lemma poppedIds_app (new2 new1 : list event) :
  poppedIds (new2 ++ new1) = poppedIds new1 ++ poppedIds new2.
Proof. unfold poppedIds. rewrite rev_app_distr. apply omap_app. Qed.

Lemma queueFlow_refl (st : State) : queueFlow st st.
Proof. exists []. split; [reflexivity|]. simpl. apply app_nil_r. Qed.

Lemma queueFlow_trans (a b c : State) : queueFlow a b -> queueFlow b c -> queueFlow a c.
Proof.
  intros (new1 & Hh1 & Hq1) (new2 & Hh2 & Hq2). exists (new2 ++ new1). split.
  - rewrite Hh2, Hh1. apply app_assoc.
  - rewrite pushedIds_app, poppedIds_app, app_assoc, Hq1, <- app_assoc, Hq2.
    apply app_assoc.
Qed.

(** A step that records quiet events and leaves the queue alone. *)
Lemma queueFlow_quiet (new : list event) (st st' : State) :
  history st' = new ++ history st -> Forall quiet new ->
  remainingNodes st' = remainingNodes st -> queueFlow st st'.
Proof.
  intros Hh Hnew Hq. exists new. split; [exact Hh|].
  destruct (quiet_ids new Hnew) as [-> ->]. rewrite Hq, app_nil_r. reflexivity.
Qed.

Lemma queueFlow_pop (st : State) (id : Z) (q : list Z) :
  remainingNodes st = id :: q ->
  queueFlow st (logs [Popped id] (with_remainingNodes q st)).
Proof.
  intros Hq. exists [Popped id]. split; [reflexivity|]. rewrite Hq.
  change (pushedIds [Popped id]) with (@nil Z). rewrite app_nil_r. reflexivity.
Qed.

Lemma queueFlow_push `{External} (st : State) (cid1 cid2 : Z) :
  queueFlow st (pushChildren cid1 cid2 st).
Proof.
  exists [Pushed cid2; Pushed cid1]. split; [reflexivity|].
  change (poppedIds [Pushed cid2; Pushed cid1]) with (@nil Z). reflexivity.
Qed.

Section QueueFacts.
Context `{External}.
Variable self : Members.

Lemma estimationEffect_queueFlow (st st' : State) :
  estimationEffect self st st' -> queueFlow st st'.
Proof.
  destruct 1 as [st|st id q Hq|st id cid k|st cid|st c1 c2|st].
  - apply queueFlow_refl.
  - apply queueFlow_pop, Hq.
  - apply (queueFlow_quiet
             (PsfStored cid :: rev (expectedCalls self (psf (regionTree st !!! id)) (getMasks cid))));
      [reflexivity| |reflexivity].
    constructor; [exact I|]. apply expectedCalls_quiet.
  - apply (queueFlow_quiet [EntropyStored cid]); [reflexivity| |reflexivity].
    repeat constructor.
  - apply queueFlow_push.
  - apply (queueFlow_quiet []); [reflexivity|constructor|reflexivity].
Qed.

Lemma refinementEffect_queueFlow (st st' : State) :
  refinementEffect self st st' -> queueFlow st st'.
Proof.
  destruct 1 as [st|st Halgo|st id q Hq|st cs cid|st cid k|st c1 c2|st].
  - apply queueFlow_refl.
  - apply (queueFlow_quiet []); [reflexivity|constructor|reflexivity].
  - apply queueFlow_pop, Hq.
  - unfold psfSelection.
    destruct (psfSelection_loop_history self cid cs 0 2 0%nat st) as [Hh Hq].
    destruct (psfSelection_loop self cid cs 0 2 0%nat st) as [w st1]. cbn [snd] in *.
    eapply queueFlow_quiet; [exact Hh|apply selectionDeconv_quiet|exact Hq].
  - apply (queueFlow_quiet [PsfStored cid]); [reflexivity| |reflexivity].
    repeat constructor.
  - apply queueFlow_push.
  - apply (queueFlow_quiet []); [reflexivity|constructor|reflexivity].
Qed.

(** X12. The shared queue is first in, first out under every schedule and
    for any number of threads: at any moment of a pass, the nodes that were
    queued at its start followed by the nodes that were pushed, in the order
    of the pushes, are the nodes that were taken, in the order in which they
    were taken, followed by the nodes that wait in the queue.  No node is
    lost, and no node is taken twice for one push. *)
Theorem queue_is_fifo (nThreads : Z) (sched1 sched2 : list nat) (st1 st2 : State) :
  let final1 := shared (run (stepEstimation self) sched1 (startEstimation nThreads st1)) in
  let final2 := shared (run (stepRefinement self) sched2 (startRefinement nThreads st2)) in
  (exists evs,
     history final1 = evs ++ history st1 /\
     (remainingNodes st1 ++ topLevelNodeIds st1) ++ pushedIds evs =
       poppedIds evs ++ remainingNodes final1) /\
  (exists evs,
     history final2 = evs ++ history st2 /\
     (remainingNodes st2 ++ topLevelNodeIds st2) ++ pushedIds evs =
       poppedIds evs ++ remainingNodes final2).
Proof.
  split.
  - exact (run_related (stepEstimation self) queueFlow queueFlow_refl queueFlow_trans
             (fun p st p' st' Hstep =>
                estimationEffect_queueFlow st st' (stepEstimation_effect self p p' st st' Hstep))
             sched1 (startEstimation nThreads st1)).
  - exact (run_related (stepRefinement self) queueFlow queueFlow_refl queueFlow_trans
             (fun p st p' st' Hstep =>
                refinementEffect_queueFlow st st' (stepRefinement_effect self p p' st st' Hstep))
             sched2 (startRefinement nThreads st2)).
Qed.

End QueueFacts.

(** *** The tree *)

Lemma sameShape_refl (t : gmap Z node) : sameShape t t.
Proof. intros id. split; reflexivity. Qed.

Lemma sameShape_trans (a b c : gmap Z node) : sameShape a b -> sameShape b c -> sameShape a c.
Proof. intros Hab Hbc id. destruct (Hab id) as [<- <-]. apply Hbc. Qed.

Lemma sameEntropies_trans (a b c : gmap Z node) :
  sameEntropies a b -> sameEntropies b c -> sameEntropies a c.
Proof. intros Hab Hbc id. rewrite <- (Hab id). apply Hbc. Qed.

Lemma sameShape_store_entropy (id : Z) (e : Q) (st : State) :
  sameShape (regionTree st) (regionTree (store_entropy id e st)).
Proof.
  intros id'. unfold store_entropy. simpl. destruct (decide (id = id')) as [->|Hne].
  - rewrite lookup_total_insert_eq. split; reflexivity.
  - rewrite lookup_total_insert_ne by done. split; reflexivity.
Qed.

(** The reliability of a node depends on the entropies alone. *)
Lemma isReliablePSF_entropies `{External} (t t' : gmap Z node) (id : Z) :
  sameEntropies t t' -> isReliablePSF t' id = isReliablePSF t id.
Proof.
  intros Hent. unfold isReliablePSF. rewrite (Hent id).
  assert (forall l acc,
            foldl (fun sum nid => sum + entropy (t' !!! nid)) acc l =
            foldl (fun sum nid => sum + entropy (t !!! nid)) acc l) as ->; [|reflexivity].
  induction l as [|nid l IH]; intros acc; simpl; [reflexivity|].
  rewrite (Hent nid). apply IH.
Qed.

Section FrameFacts.
Context `{External}.
Variable self : Members.

Lemma estimationFrame_trans (a b c : State) :
  estimationFrame a b -> estimationFrame b c -> estimationFrame a c.
Proof.
  intros (Hs1 & Ht1 & Hd1 & Hk1 & Hv1) (Hs2 & Ht2 & Hd2 & Hk2 & Hv2).
  split; [eapply sameShape_trans; eassumption|].
  repeat split; try congruence. lia.
Qed.

Lemma estimationEffect_frame (st st' : State) :
  estimationEffect self st st' -> estimationFrame st st'.
Proof.
  destruct 1 as [st|st id q Hq|st id cid k|st cid|st c1 c2|st];
    (split; [|repeat split; simpl; try reflexivity; lia]).
  - apply sameShape_refl.
  - apply sameShape_refl.
  - apply (sameShape_store_psf cid k (logs _ st)).
  - apply sameShape_store_entropy.
  - apply sameShape_refl.
  - apply sameShape_refl.
Qed.

Lemma refinementFrame_trans (a b c : State) :
  refinementFrame self a b -> refinementFrame self b c -> refinementFrame self a c.
Proof.
  intros (Hs1 & He1 & Ht1 & Hk1 & Hv1 & Hd1) (Hs2 & He2 & Ht2 & Hk2 & Hv2 & Hd2).
  split; [eapply sameShape_trans; eassumption|].
  split; [eapply sameEntropies_trans; eassumption|].
  repeat split; try congruence; [lia|].
  intros Halgo. rewrite (Hd2 Halgo). apply Hd1, Halgo.
Qed.

Lemma refinementEffect_frame (st st' : State) :
  refinementEffect self st st' -> refinementFrame self st st'.
Proof.
  destruct 1 as [st|st Halgo|st id q Hq|st cs cid|st cid k|st c1 c2|st].
  - unfold refinementFrame, sameShape, sameEntropies.
    repeat split; solve [reflexivity | lia].
  - unfold refinementFrame, sameShape, sameEntropies. simpl.
    repeat split; solve [reflexivity | lia | intros; congruence].
  - unfold refinementFrame, sameShape, sameEntropies. simpl.
    repeat split; solve [reflexivity | lia].
  - unfold psfSelection.
    pose proof (psfSelection_loop_frame self cid cs 0 2 0%nat st) as Hloop. cbv zeta in Hloop.
    destruct (psfSelection_loop self cid cs 0 2 0%nat st) as [w st1]. cbn [snd] in *.
    destruct Hloop as (Ht & Htop & _ & Hs & Hv & _ & _ & Hd).
    unfold refinementFrame. rewrite Ht, Htop, Hs, Hv.
    split; [apply sameShape_refl|]. split; [intros id; reflexivity|].
    split; [reflexivity|]. split; [reflexivity|]. split; [lia|].
    intros Hfft. apply Hd. rewrite Hfft, andb_false_r. reflexivity.
  - destruct (sameShape_store_psf cid k st) as [Hshape Hent].
    split; [exact Hshape|]. split; [exact Hent|]. simpl.
    repeat split; solve [reflexivity | lia].
  - unfold refinementFrame, sameShape, sameEntropies. simpl.
    repeat split; solve [reflexivity | lia].
  - unfold refinementFrame, sameShape, sameEntropies. simpl.
    repeat split; solve [reflexivity | lia].
Qed.

(** X13. Under every schedule and for any number of threads, the first pass
    changes neither the shape of the tree (the parent and the children of
    every node), nor the list of top-level nodes, nor the store of
    deconvolved regions, nor the stack of regions; the counter of leaves,
    reset to 0 at the start, never decreases. *)
Theorem first_pass_frame (nThreads : Z) (sched : list nat) (st : State) :
  let final := shared (run (stepEstimation self) sched (startEstimation nThreads st)) in
  sameShape (regionTree st) (regionTree final) /\
  topLevelNodeIds final = topLevelNodeIds st /\
  regionDeconv final = regionDeconv st /\
  regionStack final = regionStack st /\
  (0 <= visitedLeafs final)%Z.
Proof.
  exact (run_related (stepEstimation self) estimationFrame
           (fun st => estimationEffect_frame st st (est_stay self st)) estimationFrame_trans
           (fun p st p' st' Hstep =>
              estimationEffect_frame st st' (stepEstimation_effect self p p' st st' Hstep))
           sched (startEstimation nThreads st)).
Qed.

(** X14. Under every schedule and for any number of threads, the second
    pass changes no entropy and keeps the shape of the tree, so that the
    reliability of every node is the same at every moment of the pass: which
    sibling is a candidate does not depend on the interleaving.  With the
    FFT solver the store of deconvolved regions is not touched. *)
Theorem second_pass_keeps_reliability (nThreads : Z) (sched : list nat) (st : State) :
  let final := shared (run (stepRefinement self) sched (startRefinement nThreads st)) in
  sameShape (regionTree st) (regionTree final) /\
  sameEntropies (regionTree st) (regionTree final) /\
  (forall id, isReliablePSF (regionTree final) id = isReliablePSF (regionTree st) id) /\
  (forall id sid,
     length (candidateSelection (regionTree final) id sid) =
     length (candidateSelection (regionTree st) id sid)) /\
  (deconvAlgoPSFSelection self = FFT -> regionDeconv final = regionDeconv st).
Proof.
  intros final.
  destruct (run_related (stepRefinement self) (refinementFrame self)
              (fun st => refinementEffect_frame st st (ref_stay self st)) refinementFrame_trans
              (fun p st p' st' Hstep =>
                 refinementEffect_frame st st' (stepRefinement_effect self p p' st st' Hstep))
              sched (startRefinement nThreads st))
    as (Hshape & Hent & _ & _ & _ & Hd).
  fold final in Hshape, Hent, Hd. simpl in Hshape, Hent, Hd.
  split; [exact Hshape|]. split; [exact Hent|].
  assert (forall id, isReliablePSF (regionTree final) id = isReliablePSF (regionTree st) id)
    as Hrel by (intros id; apply isReliablePSF_entropies, Hent).
  split; [exact Hrel|]. split; [|exact Hd].
  intros id sid. unfold candidateSelection. rewrite Hrel.
  destruct (isReliablePSF (regionTree st) sid); reflexivity.
Qed.

End FrameFacts.

(** *** The counter of leaves *)

Lemma sum_insert {A : Type} (f : A -> nat) (l : list A) (i : nat) (x y : A) :
  l !! i = Some x ->
  (sum_list (map f (<[i := y]> l)) + f x = sum_list (map f l) + f y)%nat.
Proof.
  revert i. induction l as [|a l IH]; intros [|i] Hi; simpl in *; try discriminate.
  - injection Hi as ->. lia.
  - specialize (IH i Hi). lia.
Qed.

Lemma takenLeaves_app (t : gmap Z node) (new evs : list event) :
  takenLeaves t (new ++ evs) = (takenLeaves t evs + takenLeaves t new)%nat.
Proof.
  unfold takenLeaves. rewrite poppedIds_app, List.filter_app, length_app. reflexivity.
Qed.

Lemma takenLeaves_quiet (t : gmap Z node) (new : list event) :
  Forall quiet new -> takenLeaves t new = 0%nat.
Proof. intros Hnew. unfold takenLeaves. rewrite (proj2 (quiet_ids new Hnew)). reflexivity. Qed.

Lemma takenLeaves_pop (t : gmap Z node) (id : Z) :
  takenLeaves t [Popped id] = leafPair (fst (children (t !!! id))) (snd (children (t !!! id))).
Proof.
  unfold takenLeaves. change (poppedIds [Popped id]) with [id]. simpl.
  unfold leafPair. destruct (_ && _); reflexivity.
Qed.

Section Counting.
Context {pc : Type}.
Variable step : pc -> State -> option (pc * State).
Variable pending : pc -> nat.
Variable exit : pc.
Variable t0 : gmap Z node.
Variable base : list event.
Variable layers_ : Z.

(** What a step does to the counter, for the thread that takes it. *)
Hypothesis step_counts : forall p st p' st',
  sameShape t0 (regionTree st) -> step p st = Some (p', st') ->
  exists new,
    history st' = new ++ history st /\
    sameShape t0 (regionTree st') /\
    (visitedLeafs st' + Z.of_nat (pending p') =
     visitedLeafs st + Z.of_nat (pending p) + Z.of_nat (takenLeaves t0 new))%Z /\
    (visitedLeafs st <= visitedLeafs st')%Z /\
    (p' = exit -> (layers_ <= visitedLeafs st')%Z).

Lemma counted_schedule (sys : System pc) (i : nat) :
  counted pending exit t0 base layers_ sys ->
  counted pending exit t0 base layers_ (schedule step sys i).
Proof.
  intros (evs & Hh & Hshape & Hsum & Hexit). unfold schedule.
  destruct (threads sys !! i) as [p|] eqn:Hp; [|exists evs; tauto].
  destruct (step p (shared sys)) as [[p' st']|] eqn:Hstep; [|exists evs; tauto].
  destruct (step_counts p (shared sys) p' st' Hshape Hstep)
    as (new & Hh' & Hshape' & Hcount & Hmono & Hexit').
  exists (new ++ evs). simpl. split; [rewrite Hh', Hh; apply app_assoc|].
  split; [exact Hshape'|]. split.
  - pose proof (sum_insert pending (threads sys) i p p' Hp) as Hins.
    rewrite takenLeaves_app. lia.
  - apply Forall_insert; [|exact Hexit'].
    eapply Forall_impl; [exact Hexit|]. intros q Hq Hret. specialize (Hq Hret). simpl in Hq. lia.
Qed.

End Counting.

Section CounterFacts.
Context `{External}.
Variable self : Members.

Lemma leafPair_shape (t0 t : gmap Z node) (id : Z) :
  sameShape t0 t ->
  leafPair (fst (children (t !!! id))) (snd (children (t !!! id))) = takenLeaves t0 [Popped id].
Proof. intros Hshape. rewrite takenLeaves_pop. destruct (Hshape id) as [_ ->]. reflexivity. Qed.

Ltac counts new :=
  exists new; split; [reflexivity|]; split; [assumption|];
  unfold takenLeaves, poppedIds; simpl; split; [lia|]; split; [lia|discriminate].

Lemma estimation_step_counts (t0 : gmap Z node) (p p' : pcEstimation) (st st' : State) :
  sameShape t0 (regionTree st) -> stepEstimation self p st = Some (p', st') ->
  exists new,
    history st' = new ++ history st /\
    sameShape t0 (regionTree st') /\
    (visitedLeafs st' + Z.of_nat (pendingEstimation p') =
     visitedLeafs st + Z.of_nat (pendingEstimation p) + Z.of_nat (takenLeaves t0 new))%Z /\
    (visitedLeafs st <= visitedLeafs st')%Z /\
    (p' = E_return -> (layers self <= visitedLeafs st')%Z).
Proof.
  intros Hshape Hstep.
  pose proof (estimationEffect_frame self st st' (stepEstimation_effect self p p' st st' Hstep))
    as (Hshape' & _ & _ & _ & Hmono).
  pose proof (sameShape_trans _ _ _ Hshape Hshape') as Hshape0.
  destruct p as [| |id c1 c2|id c1 c2|id c1 c2|id c1 c2|id c1 c2|]; simpl in Hstep.
  - case_bool_decide as Hv; injection Hstep as <- <-; [counts (@nil event)|].
    exists []. split; [reflexivity|]. split; [assumption|].
    unfold takenLeaves, poppedIds. simpl. split; [lia|]. split; [lia|]. intros _.
    destruct (decide (visitedLeafs st = layers self)); [lia|contradiction].
  - unfold safeQueueAccess in Hstep.
    destruct (remainingNodes st) as [|id q] eqn:Hq; injection Hstep as <- <-;
      [counts (@nil event)|].
    exists [Popped id]. split; [reflexivity|]. split; [assumption|].
    split; [|split; [simpl; lia|discriminate]].
    cbn [pendingEstimation regionTree logs with_history with_remainingNodes visitedLeafs].
    rewrite (leafPair_shape t0 (regionTree st) id Hshape). lia.
  - unfold pendingEstimation, leafPair.
    destruct (bool_decide (c1 <> (-1)%Z) && bool_decide (c2 <> (-1)%Z)).
    + rewrite initialChildPSF_expected in Hstep.
      destruct (expectedPSF self _ _) as [k|]; simpl in Hstep; [|discriminate].
      injection Hstep as <- <-.
      exists (PsfStored c1 :: rev (expectedCalls self (psf (regionTree st !!! id)) (getMasks c1))).
      split; [reflexivity|]. split; [assumption|].
      rewrite takenLeaves_quiet
        by (constructor; [exact I|apply expectedCalls_quiet]).
      simpl. split; [lia|]. split; [lia|discriminate].
    + injection Hstep as <- <-. counts (@nil event).
  - rewrite initialChildPSF_expected in Hstep.
    destruct (expectedPSF self _ _) as [k|]; simpl in Hstep; [|discriminate].
    injection Hstep as <- <-.
    exists (PsfStored c2 :: rev (expectedCalls self (psf (regionTree st !!! id)) (getMasks c2))).
    split; [reflexivity|]. split; [assumption|].
    rewrite takenLeaves_quiet
      by (constructor; [exact I|apply expectedCalls_quiet]).
    simpl. split; [lia|]. split; [lia|discriminate].
  - injection Hstep as <- <-. counts [EntropyStored c1].
  - injection Hstep as <- <-. counts [EntropyStored c2].
  - injection Hstep as <- <-. counts [Pushed c2; Pushed c1].
  - discriminate.
Qed.

Lemma refinement_step_counts (t0 : gmap Z node) (p p' : pcRefinement) (st st' : State) :
  sameShape t0 (regionTree st) -> stepRefinement self p st = Some (p', st') ->
  exists new,
    history st' = new ++ history st /\
    sameShape t0 (regionTree st') /\
    (visitedLeafs st' + Z.of_nat (pendingRefinement p') =
     visitedLeafs st + Z.of_nat (pendingRefinement p) + Z.of_nat (takenLeaves t0 new))%Z /\
    (visitedLeafs st <= visitedLeafs st')%Z /\
    (p' = R_return -> (layers self <= visitedLeafs st')%Z).
Proof.
  intros Hshape Hstep.
  pose proof (refinementEffect_frame self st st' (stepRefinement_effect self p p' st st' Hstep))
    as (Hshape' & _ & _ & _ & Hmono & _).
  pose proof (sameShape_trans _ _ _ Hshape Hshape') as Hshape0.
  destruct p as [| | |id c1 c2|id c1 c2 cs1|id c1 c2 cs1 cs2|id c1 c2 cs2 w0
                 |id c1 c2 w0 w1|id c1 c2 w1|id c1 c2|]; simpl in Hstep.
  - case_bool_decide; injection Hstep as <- <-; counts (@nil event).
  - case_bool_decide as Hv; injection Hstep as <- <-; [counts (@nil event)|].
    exists []. split; [reflexivity|]. split; [assumption|].
    unfold takenLeaves, poppedIds. simpl. split; [lia|]. split; [lia|]. intros _.
    destruct (decide (visitedLeafs st = layers self)); [lia|contradiction].
  - unfold safeQueueAccess in Hstep.
    destruct (remainingNodes st) as [|id q] eqn:Hq; injection Hstep as <- <-;
      [counts (@nil event)|].
    exists [Popped id]. split; [reflexivity|]. split; [assumption|].
    split; [|split; [simpl; lia|discriminate]].
    cbn [pendingRefinement regionTree logs with_history with_remainingNodes visitedLeafs].
    rewrite (leafPair_shape t0 (regionTree st) id Hshape). lia.
  - unfold pendingRefinement, leafPair.
    destruct (bool_decide (c1 <> (-1)%Z) && bool_decide (c2 <> (-1)%Z));
      injection Hstep as <- <-; counts (@nil event).
  - injection Hstep as <- <-. counts (@nil event).
  - unfold psfSelection in *.
    destruct (psfSelection_loop_history self c1 cs1 0 2 0%nat st) as [Hh _].
    pose proof (psfSelection_loop_frame self c1 cs1 0 2 0%nat st) as Hf. cbv zeta in Hf.
    destruct (psfSelection_loop self c1 cs1 0 2 0%nat st) as [w st1]. cbn [snd] in *.
    injection Hstep as <- <-. eexists. split; [exact Hh|]. split; [assumption|].
    rewrite takenLeaves_quiet by apply selectionDeconv_quiet.
    destruct Hf as (_ & _ & _ & _ & Hv & _). simpl.
    split; [lia|]. split; [lia|discriminate].
  - unfold psfSelection in *.
    destruct (psfSelection_loop_history self c2 cs2 0 2 0%nat st) as [Hh _].
    pose proof (psfSelection_loop_frame self c2 cs2 0 2 0%nat st) as Hf. cbv zeta in Hf.
    destruct (psfSelection_loop self c2 cs2 0 2 0%nat st) as [w st1]. cbn [snd] in *.
    injection Hstep as <- <-. eexists. split; [exact Hh|]. split; [assumption|].
    rewrite takenLeaves_quiet by apply selectionDeconv_quiet.
    destruct Hf as (_ & _ & _ & _ & Hv & _). simpl.
    split; [lia|]. split; [lia|discriminate].
  - injection Hstep as <- <-. counts [PsfStored c1].
  - injection Hstep as <- <-. counts [PsfStored c2].
  - injection Hstep as <- <-. counts [Pushed c2; Pushed c1].
  - discriminate.
Qed.

Lemma startPass_counted {pc : Type} (pending : pc -> nat) (entry exit : pc)
    (nThreads : Z) (st : State) :
  pending entry = 0%nat -> entry <> exit ->
  counted pending exit (regionTree st) (history st) (layers self)
          (startPass entry nThreads st).
Proof.
  intros Hpending Hentry. exists []. simpl. split; [reflexivity|].
  split; [apply sameShape_refl|]. split.
  - rewrite Hpending. unfold takenLeaves. simpl.
    induction (Z.to_nat (nThreads - 1)) as [|n IH]; simpl in *; [reflexivity|].
    rewrite Hpending. exact IH.
  - apply List.Forall_cons; [intros Heq; contradiction|].
    apply Forall_replicate. intros Heq. contradiction.
Qed.

(** X15. The counter of leaves at any moment of a pass, under every
    schedule and for any number of threads: the leaves that were counted
    plus the leaves that workers have taken and not counted yet are the
    leaves (nodes that lack a child) that were taken from the queue since
    the start of the pass; and a worker has returned only if [layers] leaves
    or more were counted. *)
Theorem leaves_are_counted (nThreads : Z) (sched1 sched2 : list nat) (st1 st2 : State) :
  let sys1 := run (stepEstimation self) sched1 (startEstimation nThreads st1) in
  let sys2 := run (stepRefinement self) sched2 (startRefinement nThreads st2) in
  (exists evs,
     history (shared sys1) = evs ++ history st1 /\
     (visitedLeafs (shared sys1)
      + Z.of_nat (sum_list (map pendingEstimation (threads sys1))) =
      Z.of_nat (takenLeaves (regionTree st1) evs))%Z /\
     (E_return ∈ threads sys1 -> (layers self <= visitedLeafs (shared sys1))%Z)) /\
  (exists evs,
     history (shared sys2) = evs ++ history st2 /\
     (visitedLeafs (shared sys2)
      + Z.of_nat (sum_list (map pendingRefinement (threads sys2))) =
      Z.of_nat (takenLeaves (regionTree st2) evs))%Z /\
     (R_return ∈ threads sys2 -> (layers self <= visitedLeafs (shared sys2))%Z)).
Proof.
  split.
  - destruct (run_invariant (stepEstimation self)
                (counted pendingEstimation E_return (regionTree st1) (history st1) (layers self))
                (counted_schedule _ _ _ _ _ _
                   (fun p st p' st' => estimation_step_counts (regionTree st1) p p' st st'))
                sched1 (startEstimation nThreads st1)
                (startPass_counted pendingEstimation E_while E_return nThreads st1
                   eq_refl ltac:(discriminate)))
      as (evs & Hh & _ & Hsum & Hexit).
    exists evs. split; [exact Hh|]. split; [exact Hsum|].
    intros Hin. rewrite Forall_forall in Hexit. exact (Hexit E_return Hin eq_refl).
  - destruct (run_invariant (stepRefinement self)
                (counted pendingRefinement R_return (regionTree st2) (history st2) (layers self))
                (counted_schedule _ _ _ _ _ _
                   (fun p st p' st' => refinement_step_counts (regionTree st2) p p' st st'))
                sched2 (startRefinement nThreads st2)
                (startPass_counted pendingRefinement R_resize R_return nThreads st2
                   eq_refl ltac:(discriminate)))
      as (evs & Hh & _ & Hsum & Hexit).
    exists evs. split; [exact Hh|]. split; [exact Hsum|].
    intros Hin. rewrite Forall_forall in Hexit. exact (Hexit R_return Hin eq_refl).
Qed.

End CounterFacts.

(** *** Workers that wait *)

Section WaitingFacts.
Context `{External}.
Variable self : Members.

(** X16. The workers wait actively.  When the queue is empty, the counter
    of leaves differs from [layers] and every worker is at the head of its
    loop, no schedule changes the members and no worker ever returns: a tree
    in which fewer than [layers] leaves can be reached keeps
    [midLevelKernelEstimation] from returning. *)
Theorem workers_wait_for_leaves (sys1 : System pcEstimation) (sys2 : System pcRefinement)
    (sched1 sched2 : list nat) :
  remainingNodes (shared sys1) = [] -> visitedLeafs (shared sys1) <> layers self ->
  Forall waitingEstimation (threads sys1) ->
  remainingNodes (shared sys2) = [] -> visitedLeafs (shared sys2) <> layers self ->
  Forall waitingRefinement (threads sys2) ->
  (shared (run (stepEstimation self) sched1 sys1) = shared sys1 /\
   Forall waitingEstimation (threads (run (stepEstimation self) sched1 sys1))) /\
  (shared (run (stepRefinement self) sched2 sys2) = shared sys2 /\
   Forall waitingRefinement (threads (run (stepRefinement self) sched2 sys2))).
Proof.
  intros Hq1 Hv1 Hw1 Hq2 Hv2 Hw2. split.
  - apply (run_invariant (stepEstimation self)
             (fun sys => shared sys = shared sys1 /\ Forall waitingEstimation (threads sys)));
      [|split; [reflexivity|assumption]].
    intros sys i [Hs Hw]. unfold schedule.
    destruct (threads sys !! i) as [p|] eqn:Hp; [|split; assumption].
    assert (waitingEstimation p) as Hwp by (rewrite Forall_lookup in Hw; exact (Hw i p Hp)).
    destruct Hwp as [-> | ->]; simpl.
    + rewrite Hs, bool_decide_eq_true_2 by assumption. simpl.
      split; [reflexivity|]. apply Forall_insert; [assumption|]. right. reflexivity.
    + unfold safeQueueAccess. rewrite Hs, Hq1. simpl.
      split; [reflexivity|]. apply Forall_insert; [assumption|]. left. reflexivity.
  - apply (run_invariant (stepRefinement self)
             (fun sys => shared sys = shared sys2 /\ Forall waitingRefinement (threads sys)));
      [|split; [reflexivity|assumption]].
    intros sys i [Hs Hw]. unfold schedule.
    destruct (threads sys !! i) as [p|] eqn:Hp; [|split; assumption].
    assert (waitingRefinement p) as Hwp by (rewrite Forall_lookup in Hw; exact (Hw i p Hp)).
    destruct Hwp as [-> | ->]; simpl.
    + rewrite Hs, bool_decide_eq_true_2 by assumption. simpl.
      split; [reflexivity|]. apply Forall_insert; [assumption|]. right. reflexivity.
    + unfold safeQueueAccess. rewrite Hs, Hq2. simpl.
      split; [reflexivity|]. apply Forall_insert; [assumption|]. left. reflexivity.
Qed.

End WaitingFacts.

(** On the seven nodes, with a number of layers (6) that the tree of four
    leaves cannot reach: two workers at an empty queue, after the four
    leaves were counted. *)
Lemma workers_wait_for_leaves_witness :
  let self := DepthDeblur (disp := Fixture.disparity) Fixture.image Fixture.image 3 6 FFT in
  let st := with_visitedLeafs 4 Fixture.estimated in
  shared (run (stepEstimation (H := Fixture.pointwise) self) [0; 1; 1; 0; 0; 1]%nat
              {| shared := st; threads := [E_while; E_access] |}) = st /\
  shared (run (stepRefinement (H := Fixture.pointwise) self) [1; 0; 0; 1]%nat
              {| shared := st; threads := [R_access; R_while] |}) = st.
Proof.
  intros self st.
  destruct (workers_wait_for_leaves (H := Fixture.pointwise) self
              {| shared := st; threads := [E_while; E_access] |}
              {| shared := st; threads := [R_access; R_while] |}
              [0; 1; 1; 0; 0; 1]%nat [1; 0; 0; 1]%nat) as [[H1 _] [H2 _]].
  - reflexivity.
  - discriminate.
  - apply List.Forall_cons; [left; reflexivity|].
    apply List.Forall_cons; [right; reflexivity|]. apply List.Forall_nil.
  - reflexivity.
  - discriminate.
  - apply List.Forall_cons; [right; reflexivity|].
    apply List.Forall_cons; [left; reflexivity|]. apply List.Forall_nil.
  - split; [exact H1|exact H2].
Defined.

(** ** The reconstruction under any schedule *)

Lemma vec_get_set_ne (l : list (Mat Q)) (i j : Z) (x : Mat Q) :
  i <> j -> vec_get (vec_set l i x) j = vec_get l j.
Proof.
  intros Hne. unfold vec_get. case_bool_decide; [|reflexivity].
  rewrite vec_set_lookup, decide_False; [reflexivity|]. intros [Heq _]. lia.
Qed.

Lemma lookup_insert_cases {A : Type} (l : list A) (n m : nat) (x y : A) :
  <[n := x]> l !! m = Some y -> (m = n /\ y = x) \/ (m <> n /\ l !! m = Some y).
Proof.
  destruct (decide (m = n)) as [->|Hne]; intros Hl.
  - left. split; [reflexivity|]. destruct (decide (n < length l)%nat) as [Hlt|Hge].
    + rewrite list_lookup_insert_eq in Hl by assumption. congruence.
    + rewrite list_insert_ge in Hl by lia. apply lookup_lt_Some in Hl. lia.
  - right. rewrite list_lookup_insert_ne in Hl by done. tauto.
Qed.

Lemma lookup_insert_other {A : Type} (l : list A) (n m : nat) (x y : A) :
  m <> n -> l !! m = Some y -> <[n := x]> l !! m = Some y.
Proof. intros Hne Hl. rewrite list_lookup_insert_ne by done. exact Hl. Qed.

Section RegionFacts.
Context `{External}.
Variable self : Members.
Variable v : view.
Variable color : bool.
Variable t0 : gmap Z node.
Variable stack0 : list Z.
Variable store0 : list (Mat Q).
Variable base : list event.

Hypothesis stack0_range : forall i, i ∈ stack0 -> (0 <= i < Z.of_nat (length store0))%Z.

Abbreviation Inv := (regionInv self v color t0 stack0 store0 base).

(** A worker that holds the region [i] writes the slot [i]. *)
Lemma regionInv_slot (sys : System pcRegion) (n : nat) (p p' : pcRegion) (i : Z)
    (X : Mat Q) (new : list event) (st' : State) :
  Inv sys -> threads sys !! n = Some p -> heldRegion p = Some i ->
  regionTree st' = regionTree (shared sys) ->
  regionStack st' = regionStack (shared sys) ->
  regionDeconv st' = vec_set (regionDeconv (shared sys)) i X ->
  history st' = new ++ history (shared sys) ->
  (p = D_deconv i /\ new = [regionCall self v color t0 i] \/
   (forall j, p <> D_deconv j) /\ new = []) ->
  (forall j, p' <> D_deconv j) -> p' <> D_return ->
  (heldRegion p' = Some i /\ stageOk self v color t0 p' (vec_set (regionDeconv (shared sys)) i X) \/
   heldRegion p' = None /\ X = regionResult self v color t0 i) ->
  Inv {| shared := st'; threads := <[n := p']> (threads sys) |}.
Proof.
  intros (Ht & Hl & Hnd & Hsub & Hheld & Hone & Hdone & Hout & Hret & done & Hh & Hndd & Hin)
         Hp Hi Ht' Hs' Hd' Hh' Hnew Hp'd Hp'r Hp'.
  destruct (Hheld n p i Hp Hi) as (Hi0 & Hinot & Hstage).
  pose proof (stack0_range i Hi0) as Hir.
  assert (forall m q j, <[n := p']> (threads sys) !! m = Some q -> heldRegion q = Some j ->
            m <> n -> j <> i) as Hothers.
  { intros m q j Hq Hj Hmn ->. rewrite list_lookup_insert_ne in Hq by done.
    apply Hmn. symmetry. exact (Hone n m p q i Hp Hq Hi Hj). }
  unfold regionInv. cbn [shared threads]. rewrite Ht', Hs', Hd', Hh', length_vec_set.
  split; [exact Ht|]. split; [exact Hl|]. split; [exact Hnd|]. split; [exact Hsub|].
  split; [|split; [|split; [|split; [|split]]]].
  - intros m q j Hq Hj. destruct (lookup_insert_cases _ _ _ _ _ Hq) as [[-> ->]|[Hmn Hq0]].
    + destruct Hp' as [[Hp'i Hok]|[Hnone _]]; [|congruence].
      assert (j = i) as -> by congruence. tauto.
    + destruct (Hheld m q j Hq0 Hj) as (Hj0 & Hjnot & Hjstage).
      split; [exact Hj0|]. split; [exact Hjnot|].
      assert (j <> i) as Hji by (eapply Hothers; eassumption).
      destruct q; simpl in Hj |- *; try exact I; injection Hj as ->;
        rewrite vec_get_set_ne by congruence; exact Hjstage.
  - intros m1 m2 q1 q2 j Hq1 Hq2 Hj1 Hj2.
    destruct (lookup_insert_cases _ _ _ _ _ Hq1) as [[-> ->]|[Hm1 Hq1']];
      destruct (lookup_insert_cases _ _ _ _ _ Hq2) as [[-> ->]|[Hm2 Hq2']];
      try reflexivity.
    + exfalso. destruct Hp' as [[Hp'i _]|[Hnone _]]; [|congruence].
      assert (j = i) as -> by congruence.
      exact (Hothers m2 q2 i Hq2 Hj2 Hm2 eq_refl).
    + exfalso. destruct Hp' as [[Hp'i _]|[Hnone _]]; [|congruence].
      assert (j = i) as -> by congruence.
      exact (Hothers m1 q1 i Hq1 Hj1 Hm1 eq_refl).
    + exact (Hone m1 m2 q1 q2 j Hq1' Hq2' Hj1 Hj2).
  - intros j Hj0 Hjnot Hfree. destruct (decide (j = i)) as [->|Hji].
    + destruct Hp' as [[Hp'i _]|[_ ->]].
      * exfalso. apply (Hfree n p'); [|exact Hp'i].
        apply list_lookup_insert_eq. eapply lookup_lt_Some, Hp.
      * apply vec_get_set. rewrite Hl. exact Hir.
    + rewrite vec_get_set_ne by congruence. apply Hdone; [assumption..|].
      intros m q Hq Hqj. destruct (decide (m = n)) as [->|Hmn].
      * congruence.
      * apply (Hfree m q); [|exact Hqj]. apply lookup_insert_other; assumption.
  - intros k Hk. rewrite vec_set_lookup, decide_False; [apply Hout, Hk|].
    intros [-> _]. contradiction.
  - intros Hin'. apply Hret. apply list_elem_of_lookup in Hin' as [m Hm].
    destruct (lookup_insert_cases _ _ _ _ _ Hm) as [[_ Heq]|[_ Hm']]; [congruence|].
    apply list_elem_of_lookup. exists m. exact Hm'.
  - destruct Hnew as [[-> ->]|[Hpd ->]].
    + exists (i :: done). split; [rewrite Hh; reflexivity|].
      assert (i ∉ done) as Hidone.
      { intros Hid. apply Hin in Hid as (_ & _ & Hno). exact (Hno n Hp). }
      split; [constructor; assumption|].
      intros j. rewrite elem_of_cons, Hin. split.
      * intros [->|(Hj0 & Hjnot & Hno)].
        -- split; [assumption|]. split; [assumption|]. intros m Hm.
           destruct (lookup_insert_cases _ _ _ _ _ Hm) as [[_ Heq]|[Hmn Hm']].
           ++ exact (Hp'd i (eq_sym Heq)).
           ++ apply Hmn. symmetry. exact (Hone n m _ _ i Hp Hm' eq_refl eq_refl).
        -- split; [assumption|]. split; [assumption|]. intros m Hm.
           destruct (lookup_insert_cases _ _ _ _ _ Hm) as [[_ Heq]|[Hmn Hm']].
           ++ exact (Hp'd j (eq_sym Heq)).
           ++ exact (Hno m Hm').
      * intros (Hj0 & Hjnot & Hno). destruct (decide (j = i)) as [->|Hji]; [left; reflexivity|].
        right. split; [assumption|]. split; [assumption|]. intros m Hm.
        destruct (decide (m = n)) as [->|Hmn]; [congruence|].
        apply (Hno m). apply lookup_insert_other; assumption.
    + exists done. split; [exact Hh|]. split; [exact Hndd|].
      intros j. rewrite Hin. split; intros (Hj0 & Hjnot & Hno);
        (split; [assumption|]; split; [assumption|]); intros m Hm.
      * destruct (lookup_insert_cases _ _ _ _ _ Hm) as [[_ Heq]|[Hmn Hm']].
        -- exact (Hp'd j (eq_sym Heq)).
        -- exact (Hno m Hm').
      * destruct (decide (m = n)) as [->|Hmn].
        -- rewrite Hp in Hm. injection Hm as Hm. exact (Hpd j Hm).
        -- apply (Hno m). apply lookup_insert_other; assumption.
Qed.


(** A worker takes the top of the stack. *)
Lemma regionInv_pop (sys : System pcRegion) (n : nat) (i : Z) (stack : list Z) :
  Inv sys -> threads sys !! n = Some D_access ->
  regionStack (shared sys) = i :: stack ->
  Inv {| shared := with_regionStack stack (shared sys);
         threads := <[n := D_deconv i]> (threads sys) |}.
Proof.
  intros (Ht & Hl & Hnd & Hsub & Hheld & Hone & Hdone & Hout & Hret & done & Hh & Hndd & Hin)
         Hp Hstack.
  rewrite Hstack in *. apply NoDup_cons in Hnd as [Hinot Hnd].
  unfold regionInv. cbn [shared threads regionTree regionDeconv regionStack history
                         with_regionStack].
  split; [exact Ht|]. split; [exact Hl|]. split; [exact Hnd|].
  split; [intros j Hj; apply Hsub; right; exact Hj|].
  split; [|split; [|split; [|split; [|split]]]].
  - intros m q j Hq Hj. destruct (lookup_insert_cases _ _ _ _ _ Hq) as [[-> ->]|[Hmn Hq0]].
    + injection Hj as <-. split; [apply Hsub; left|]. split; [exact Hinot|exact I].
    + destruct (Hheld m q j Hq0 Hj) as (Hj0 & Hjnot & Hjstage).
      split; [exact Hj0|]. split; [|exact Hjstage].
      intros Hjs. apply Hjnot. right. exact Hjs.
  - intros m1 m2 q1 q2 j Hq1 Hq2 Hj1 Hj2.
    destruct (lookup_insert_cases _ _ _ _ _ Hq1) as [[-> ->]|[Hm1 Hq1']];
      destruct (lookup_insert_cases _ _ _ _ _ Hq2) as [[-> ->]|[Hm2 Hq2']];
      try reflexivity.
    + exfalso. injection Hj1 as <-.
      destruct (Hheld m2 q2 i Hq2' Hj2) as (_ & Hjnot & _). apply Hjnot. left.
    + exfalso. injection Hj2 as <-.
      destruct (Hheld m1 q1 i Hq1' Hj1) as (_ & Hjnot & _). apply Hjnot. left.
    + exact (Hone m1 m2 q1 q2 j Hq1' Hq2' Hj1 Hj2).
  - intros j Hj0 Hjnot Hfree.
    assert (j <> i) as Hji.
    { intros ->. apply (Hfree n (D_deconv i)); [|reflexivity].
      apply list_lookup_insert_eq. eapply lookup_lt_Some, Hp. }
    apply Hdone; [assumption| |].
    + intros Hjs. apply elem_of_cons in Hjs as [Heq|Hjs]; [congruence|contradiction].
    + intros m q Hq Hqj. destruct (decide (m = n)) as [->|Hmn].
      * rewrite Hp in Hq. injection Hq as <-. discriminate.
      * apply (Hfree m q); [|exact Hqj]. apply lookup_insert_other; assumption.
  - exact Hout.
  - intros Hin'. exfalso. apply list_elem_of_lookup in Hin' as [m Hm].
    destruct (lookup_insert_cases _ _ _ _ _ Hm) as [[_ Heq]|[_ Hm']]; [discriminate|].
    assert (D_return ∈ threads sys) as Hr by (apply list_elem_of_lookup; exists m; exact Hm').
    specialize (Hret Hr). discriminate.
  - exists done. split; [exact Hh|]. split; [exact Hndd|].
    intros j. rewrite Hin. split.
    + intros (Hj0 & Hjnot & Hno). split; [assumption|]. split.
      * intros Hjs. apply Hjnot. right. exact Hjs.
      * intros m Hm. destruct (lookup_insert_cases _ _ _ _ _ Hm) as [[_ Heq]|[Hmn Hm']].
        -- injection Heq as ->. apply Hjnot. left.
        -- exact (Hno m Hm').
    + intros (Hj0 & Hjnot & Hno).
      assert (j <> i) as Hji.
      { intros ->. apply (Hno n). apply list_lookup_insert_eq. eapply lookup_lt_Some, Hp. }
      split; [assumption|]. split.
      * intros Hjs. apply elem_of_cons in Hjs as [Heq|Hjs]; [congruence|contradiction].
      * intros m Hm. destruct (decide (m = n)) as [->|Hmn]; [congruence|].
        apply (Hno m). apply lookup_insert_other; assumption.
Qed.

(** A worker finds the stack empty and returns. *)
Lemma regionInv_return (sys : System pcRegion) (n : nat) :
  Inv sys -> threads sys !! n = Some D_access ->
  regionStack (shared sys) = [] ->
  Inv {| shared := shared sys; threads := <[n := D_return]> (threads sys) |}.
Proof.
  intros (Ht & Hl & Hnd & Hsub & Hheld & Hone & Hdone & Hout & Hret & done & Hh & Hndd & Hin)
         Hp Hstack.
  unfold regionInv. cbn [shared threads].
  split; [exact Ht|]. split; [exact Hl|]. split; [exact Hnd|]. split; [exact Hsub|].
  split; [|split; [|split; [|split; [|split]]]].
  - intros m q j Hq Hj. destruct (lookup_insert_cases _ _ _ _ _ Hq) as [[-> ->]|[Hmn Hq0]];
      [discriminate|]. exact (Hheld m q j Hq0 Hj).
  - intros m1 m2 q1 q2 j Hq1 Hq2 Hj1 Hj2.
    destruct (lookup_insert_cases _ _ _ _ _ Hq1) as [[-> ->]|[Hm1 Hq1']]; [discriminate|].
    destruct (lookup_insert_cases _ _ _ _ _ Hq2) as [[-> ->]|[Hm2 Hq2']]; [discriminate|].
    exact (Hone m1 m2 q1 q2 j Hq1' Hq2' Hj1 Hj2).
  - intros j Hj0 Hjnot Hfree. apply Hdone; [assumption..|].
    intros m q Hq Hqj. destruct (decide (m = n)) as [->|Hmn].
    + rewrite Hp in Hq. injection Hq as <-. discriminate.
    + apply (Hfree m q); [|exact Hqj]. apply lookup_insert_other; assumption.
  - exact Hout.
  - intros _. exact Hstack.
  - exists done. split; [exact Hh|]. split; [exact Hndd|].
    intros j. rewrite Hin. split; intros (Hj0 & Hjnot & Hno);
      (split; [assumption|]; split; [assumption|]); intros m Hm.
    + destruct (lookup_insert_cases _ _ _ _ _ Hm) as [[_ Heq]|[Hmn Hm']]; [discriminate|].
      exact (Hno m Hm').
    + destruct (decide (m = n)) as [->|Hmn]; [congruence|].
      apply (Hno m). apply lookup_insert_other; assumption.
Qed.

(** Every step of a worker keeps the invariant. *)
Lemma regionInv_schedule (sys : System pcRegion) (n : nat) :
  Inv sys -> Inv (schedule (stepRegion self v color) sys n).
Proof.
  intros HInv. unfold schedule.
  destruct (threads sys !! n) as [p|] eqn:Hp; [|exact HInv].
  pose proof HInv as (Ht & Hl & _ & _ & Hheld & _).
  destruct p as [|i|i|i|i|]; cbn [stepRegion].
  - unfold safeStackAccess. destruct (regionStack (shared sys)) as [|i stack] eqn:Hstack.
    + apply regionInv_return; assumption.
    + apply regionInv_pop; assumption.
  - eapply (regionInv_slot sys n (D_deconv i) (D_tozero i) i _ [regionCall self v color t0 i]);
      try eassumption; try reflexivity; try discriminate.
    + simpl. unfold regionCall. rewrite Ht. reflexivity.
    + left. split; reflexivity.
    + left. split; [reflexivity|]. cbn [stageOk].
      destruct (Hheld n _ i Hp eq_refl) as (Hi0 & _ & _).
      rewrite vec_get_set by (rewrite Hl; apply stack0_range, Hi0).
      unfold rawRegion. rewrite Ht. reflexivity.
  - destruct (Hheld n _ i Hp eq_refl) as (Hi0 & _ & Hstage). cbn [stageOk] in Hstage.
    eapply (regionInv_slot sys n (D_tozero i) (D_trunc i) i _ []);
      try eassumption; try reflexivity; try discriminate.
    + right. split; [discriminate|reflexivity].
    + left. split; [reflexivity|]. cbn [stageOk].
      rewrite vec_get_set by (rewrite Hl; apply stack0_range, Hi0).
      rewrite Hstage. reflexivity.
  - destruct (Hheld n _ i Hp eq_refl) as (Hi0 & _ & Hstage). cbn [stageOk] in Hstage.
    eapply (regionInv_slot sys n (D_trunc i) (D_convert i) i _ []);
      try eassumption; try reflexivity; try discriminate.
    + right. split; [discriminate|reflexivity].
    + left. split; [reflexivity|]. cbn [stageOk].
      rewrite vec_get_set by (rewrite Hl; apply stack0_range, Hi0).
      rewrite Hstage. reflexivity.
  - destruct (Hheld n _ i Hp eq_refl) as (Hi0 & _ & Hstage). cbn [stageOk] in Hstage.
    eapply (regionInv_slot sys n (D_convert i) D_access i _ []);
      try eassumption; try reflexivity; try discriminate.
    + right. split; [discriminate|reflexivity].
    + right. split; [reflexivity|]. rewrite Hstage. reflexivity.
  - exact HInv.
Qed.

End RegionFacts.

Lemma elem_of_rev {A : Type} (x : A) (l : list A) : x ∈ rev l <-> x ∈ l.
Proof. rewrite !list_elem_of_In. symmetry. apply in_rev. Qed.

Lemma NoDup_rev {A : Type} (l : list A) : NoDup l -> NoDup (rev l).
Proof. rewrite !NoDup_ListNoDup. apply List.NoDup_rev. Qed.

Lemma NoDup_upto (n : Z) : NoDup (upto n).
Proof.
  unfold upto. apply (NoDup_fmap_2 Z.of_nat), NoDup_seq.
Qed.

Lemma elem_of_upto_range (n i : Z) : i ∈ upto n <-> (0 <= i < n)%Z.
Proof.
  unfold upto. rewrite list_elem_of_fmap. split.
  - intros (k & -> & Hk). apply elem_of_seq in Hk. lia.
  - intros Hi. exists (Z.to_nat i). split; [lia|]. apply elem_of_seq. lia.
Qed.

Section ReconstructionSchedules.
Context `{External}.
Variable self : Members.

Lemma startDeconvolve_regionInv (v : view) (color : bool) (nThreads : Z) (st : State) :
  regionStack st = [] ->
  regionInv self v color (regionTree st) (rev (upto (layers self)))
            (vec_resize (regionDeconv st) (layers self)) (history st)
            (startDeconvolve self nThreads st).
Proof.
  intros Hstack. unfold startDeconvolve. rewrite push_regions.
  cbn [regionStack with_regionDeconv]. rewrite Hstack, app_nil_r.
  assert (forall n p, replicate (S (Z.to_nat (nThreads - 1))) D_access !! n = Some p ->
                      p = D_access) as Hthreads.
  { intros n p Hn. apply lookup_replicate in Hn. tauto. }
  unfold regionInv. cbn [shared threads regionTree regionDeconv regionStack history
                         with_regionStack with_regionDeconv].
  split; [reflexivity|]. split; [reflexivity|].
  split; [apply NoDup_rev, NoDup_upto|]. split; [tauto|].
  split; [|split; [|split; [|split; [|split]]]].
  - intros n p i Hn Hi. rewrite (Hthreads n p Hn) in Hi. discriminate.
  - intros n m p q i Hn _ Hi. rewrite (Hthreads n p Hn) in Hi. discriminate.
  - intros i Hi Hnot. contradiction.
  - reflexivity.
  - intros Hin. apply list_elem_of_lookup in Hin as [n Hn].
    apply Hthreads in Hn. discriminate.
  - exists []. split; [reflexivity|]. split; [constructor|].
    intros i. split; [intros Hi; inversion Hi|]. intros (Hi & Hnot & _). contradiction.
Qed.

Lemma run_threads_length {pc : Type} (step : pc -> State -> option (pc * State))
    (sched : list nat) (sys : System pc) :
  length (threads (run step sched sys)) = length (threads sys).
Proof.
  apply (run_invariant step (fun sys' => length (threads sys') = length (threads sys)));
    [|reflexivity].
  intros sys' i Hlen. unfold schedule. destruct (threads sys' !! i); [|exact Hlen].
  destruct (step _ _) as [[p' st']|]; [|exact Hlen]. simpl. rewrite length_insert. exact Hlen.
Qed.

(** X17. The reconstruction does not depend on the interleaving of its
    workers.  Started on an empty stack, for any number of threads and any
    schedule after which all workers have returned: every layer was
    deconvolved exactly once, by the iterative solver with the PSF and the
    mask of its leaf; the stack is empty; the store and the image that
    [deconvolve] composes are those of a single thread. *)
Theorem reconstruction_any_schedule (dst : Mat Q) (v : view) (color : bool)
    (nThreads : Z) (sched : list nat) (st : State) :
  let sys := run (stepRegion self v color) sched (startDeconvolve self nThreads st) in
  regionStack st = [] ->
  Forall (fun p => p = D_return) (threads sys) ->
  regionDeconv (shared sys) = regionDeconv (snd (deconvolve self dst v color st)) /\
  addRegions dst v (shared sys) = fst (deconvolve self dst v color st) /\
  regionStack (shared sys) = [] /\
  exists done,
    done ≡ₚ upto (layers self) /\
    history (shared sys) = map (regionCall self v color (regionTree st)) done ++ history st.
Proof.
  intros sys Hstack Hreturned.
  assert (forall i, i ∈ rev (upto (layers self)) ->
                    (0 <= i < Z.of_nat (length (vec_resize (regionDeconv st) (layers self))))%Z)
    as Hrange.
  { intros i Hi. rewrite length_vec_resize. apply elem_of_rev, elem_of_upto_range in Hi. lia. }
  pose proof (run_invariant (stepRegion self v color) _
                (regionInv_schedule self v color _ _ _ _ Hrange) sched _
                (startDeconvolve_regionInv v color nThreads st Hstack))
    as (_ & Hl & _ & _ & _ & _ & Hdone & _ & Hret & done & Hh & Hndd & Hin).
  fold sys in Hl, Hdone, Hret, Hh, Hin.
  assert (D_return ∈ threads sys) as Hone.
  { pose proof (run_threads_length (stepRegion self v color) sched
                  (startDeconvolve self nThreads st)) as Hlen.
    fold sys in Hlen. unfold startDeconvolve in Hlen. cbn [threads] in Hlen.
    rewrite length_replicate in Hlen.
    destruct (threads sys) as [|p ps]; [simpl in Hlen; lia|].
    rewrite (Forall_inv Hreturned). left. }
  specialize (Hret Hone).
  assert (forall n p, threads sys !! n = Some p -> p = D_return) as Hall.
  { intros n p Hn. rewrite Forall_lookup in Hreturned. exact (Hreturned n p Hn). }
  assert (regionDeconv (shared sys) =
            map (regionResult self v color (regionTree st)) (upto (layers self))) as Hstore.
  { apply list_eq. intros k.
    change (map (regionResult self v color (regionTree st)) (upto (layers self)))
      with (regionResult self v color (regionTree st) <$> upto (layers self)).
    rewrite list_lookup_fmap, upto_lookup. rewrite length_vec_resize in Hl.
    destruct (decide (k < Z.to_nat (layers self))%nat) as [Hlt|Hge].
    - simpl. assert (Z.of_nat k ∈ rev (upto (layers self))) as Hk.
      { apply elem_of_rev, elem_of_upto_range. lia. }
      specialize (Hdone (Z.of_nat k) Hk).
      rewrite Hret in Hdone. specialize (Hdone ltac:(inversion 1)).
      assert (forall n p, threads sys !! n = Some p -> heldRegion p <> Some (Z.of_nat k))
        as Hfree by (intros n p Hn; rewrite (Hall n p Hn); discriminate).
      specialize (Hdone Hfree). unfold vec_get in Hdone.
      rewrite bool_decide_eq_true_2, Nat2Z.id in Hdone by lia.
      destruct (regionDeconv (shared sys) !! k) as [x|] eqn:Hx.
      + simpl in Hdone. congruence.
      + apply lookup_ge_None in Hx. lia.
    - simpl. apply lookup_ge_None. lia. }
  split; [rewrite deconvolve_store; exact Hstore|].
  split; [|split; [exact Hret|]].
  - change (fst (deconvolve self dst v color st))
      with (addRegions dst v (snd (deconvolve self dst v color st))).
    unfold addRegions. rewrite deconvolve_store, Hstore. reflexivity.
  - exists done. split; [|exact Hh].
    apply NoDup_Permutation; [exact Hndd|apply NoDup_upto|].
    intros i. rewrite Hin, Hret, elem_of_rev. split; [tauto|].
    intros Hi. split; [exact Hi|]. split; [inversion 1|].
    intros n Hn. apply Hall in Hn. discriminate.
Qed.

End ReconstructionSchedules.

(** On the seven nodes, with two workers that move in turn. *)
Lemma reconstruction_any_schedule_witness :
  let sys := run (stepRegion (H := Fixture.pointwise) (Fixture.members IRLS) LEFT false)
                 alternating
                 (startDeconvolve (Fixture.members IRLS) 2 Fixture.estimated) in
  threads sys = [D_return; D_return] /\
  regionDeconv (shared sys) =
    regionDeconv (snd (deconvolve (H := Fixture.pointwise) (Fixture.members IRLS)
                         [] LEFT false Fixture.estimated)).
Proof.
  intros sys. split; [vm_compute; reflexivity|].
  apply (reconstruction_any_schedule (H := Fixture.pointwise) (Fixture.members IRLS)
           [] LEFT false 2 alternating Fixture.estimated).
  - reflexivity.
  - vm_compute. repeat constructor.
Defined.

(** ** The image that [deconvolve] composes *)

Lemma sized_rows_cols {A : Type} (h w : nat) (m : Mat A) :
  (0 < h)%nat -> sized h w m -> Mat.rows m = h /\ Mat.cols m = w.
Proof.
  intros Hh [Hlen Hrows]. split; [exact Hlen|].
  destruct m as [|row m]; [simpl in Hlen; lia|]. exact (Forall_inv Hrows).
Qed.

Lemma rect_sized {A : Type} (m : Mat A) : Mat.rect m -> sized (Mat.rows m) (Mat.cols m) m.
Proof. intros Hrect. split; [reflexivity|exact Hrect]. Qed.

Lemma sized_lookup {A : Type} (h w : nat) (m : Mat A) (y x : nat) :
  sized h w m -> (y < h)%nat -> (x < w)%nat ->
  exists row s, m !! y = Some row /\ row !! x = Some s /\ length row = w.
Proof.
  intros [Hlen Hrows] Hy Hx.
  destruct (lookup_lt_is_Some_2 m y) as [row Hrow]; [lia|].
  rewrite Forall_lookup in Hrows. pose proof (Hrows y row Hrow) as Hw.
  destruct (lookup_lt_is_Some_2 row x) as [s Hs]; [simpl in Hw; lia|].
  exists row, s. tauto.
Qed.

Section Composition.
Variables h w : nat.
Hypothesis h_pos : (0 < h)%nat.

(** One [copyTo] with a mask: the result has the size of the source. *)
Lemma copyToInto_sized (src : Mat Q) (mask : Mat N) (dst : Mat Q) :
  sized h w src -> sized h w mask -> Mat.rect dst ->
  sized h w (copyToInto src mask dst).
Proof.
  intros Hsrc Hmask Hrect.
  destruct (sized_rows_cols h w src h_pos Hsrc) as [Hrs Hcs].
  destruct Hsrc as [Hls Hrsrc], Hmask as [Hlm Hrmask].
  rewrite Forall_lookup in Hrsrc. rewrite Forall_lookup in Hrmask.
  unfold copyToInto. rewrite Hrs, Hcs. case_bool_decide as Hsame.
  - destruct Hsame as [Hrd Hcd]. unfold Mat.rect in Hrect. rewrite Hcd in Hrect.
    rewrite Forall_lookup in Hrect. split.
    + rewrite length_zip_with, length_zip. unfold Mat.rows in Hrd. lia.
    + apply Forall_lookup. intros i row Hi.
      apply lookup_zip_with_Some in Hi as ([sr mr] & dr & -> & Hsm & Hdr).
      apply lookup_zip_with_Some in Hsm as (sr' & mr' & [= <- <-] & Hsr & Hmr).
      pose proof (Hrsrc i _ Hsr). pose proof (Hrmask i _ Hmr). pose proof (Hrect i _ Hdr).
      simpl in *. rewrite length_zip_with, length_zip. lia.
  - unfold Mat.copyToMasked. split.
    + rewrite length_zip_with. lia.
    + apply Forall_lookup. intros i row Hi.
      apply lookup_zip_with_Some in Hi as (sr & mr & -> & Hsr & Hmr).
      pose proof (Hrsrc i _ Hsr). pose proof (Hrmask i _ Hmr).
      simpl in *. rewrite length_zip_with. lia.
Qed.

(** A pixel of the mask that is not zero takes the sample of the source. *)
Lemma copyToInto_at (src : Mat Q) (mask : Mat N) (dst : Mat Q) (y x : nat) :
  sized h w src -> sized h w mask -> Mat.rect dst -> (y < h)%nat -> (x < w)%nat ->
  Mat.at_ 0 (copyToInto src mask dst) y x =
    if decide (Mat.at_ 0%N mask y x = 0%N) then background h w dst y x
    else Mat.at_ 0 src y x.
Proof.
  intros Hsrc Hmask Hrect Hy Hx.
  destruct (sized_rows_cols h w src h_pos Hsrc) as [Hrs Hcs].
  destruct (sized_lookup h w src y x Hsrc Hy Hx) as (srow & s & Hsrow & Hs & Hsw).
  destruct (sized_lookup h w mask y x Hmask Hy Hx) as (mrow & k & Hmrow & Hk & Hmw).
  assert (Mat.at_ 0%N mask y x = k) as Hatm
    by (unfold Mat.at_; rewrite Hmrow; simpl; rewrite Hk; reflexivity).
  assert (Mat.at_ 0 src y x = s) as Hats
    by (unfold Mat.at_; rewrite Hsrow; simpl; rewrite Hs; reflexivity).
  rewrite Hatm, Hats. unfold copyToInto, background. rewrite Hrs, Hcs.
  case_bool_decide as Hsame.
  - destruct Hsame as [Hrd Hcd]. assert (sized h w dst) as Hdst.
    { rewrite <- Hrd, <- Hcd. apply rect_sized, Hrect. }
    destruct (sized_lookup h w dst y x Hdst Hy Hx) as (drow & d & Hdrow & Hd & Hdw).
    assert (zip src mask !! y = Some (srow, mrow)) as Hz.
    { apply lookup_zip_with_Some. exists srow, mrow. tauto. }
    assert (zip srow mrow !! x = Some (s, k)) as Hz'.
    { apply lookup_zip_with_Some. exists s, k. tauto. }
    unfold Mat.at_. rewrite lookup_zip_with, Hz, Hdrow. simpl.
    rewrite lookup_zip_with, Hz', Hd. simpl.
    destruct (decide (k = 0%N)); reflexivity.
  - unfold Mat.at_, Mat.copyToMasked. rewrite lookup_zip_with, Hsrow, Hmrow. simpl.
    rewrite lookup_zip_with, Hs, Hk. simpl.
    destruct (decide (k = 0%N)); reflexivity.
Qed.

Variable region : Z -> Mat Q.
Variable mask : Z -> Mat N.

Lemma added_sized (dst : Mat Q) (l : list Z) :
  Mat.rect dst -> Forall (fun i => sized h w (region i) /\ sized h w (mask i)) l ->
  Mat.rect (added region mask dst l) /\ (l <> [] -> sized h w (added region mask dst l)).
Proof.
  intros Hrect Hl. revert dst Hrect. unfold added.
  induction Hl as [|i l [Hri Hmi] Hl IH]; intros dst Hrect; simpl; [tauto|].
  pose proof (copyToInto_sized (region i) (mask i) dst Hri Hmi Hrect) as Hsz.
  assert (Mat.rect (copyToInto (region i) (mask i) dst)) as Hrect'.
  { destruct (sized_rows_cols h w _ h_pos Hsz) as [_ Hc]. unfold Mat.rect. rewrite Hc.
    exact (proj2 Hsz). }
  destruct (IH _ Hrect') as [Hr Hs]. split; [exact Hr|]. intros _.
  destruct l as [|j l]; [exact Hsz|]. apply Hs. discriminate.
Qed.

(** The pixel (y, x) after the regions of [l] were added: the sample of the
    last region whose mask is not zero there. *)
Lemma added_at (dst : Mat Q) (l : list Z) (y x : nat) :
  Mat.rect dst -> Forall (fun i => sized h w (region i) /\ sized h w (mask i)) l ->
  (y < h)%nat -> (x < w)%nat ->
  (forall a i, l !! a = Some i -> Mat.at_ 0%N (mask i) y x <> 0%N ->
     (forall b j, (a < b)%nat -> l !! b = Some j -> Mat.at_ 0%N (mask j) y x = 0%N) ->
     Mat.at_ 0 (added region mask dst l) y x = Mat.at_ 0 (region i) y x) /\
  (l <> [] -> Forall (fun j => Mat.at_ 0%N (mask j) y x = 0%N) l ->
   Mat.at_ 0 (added region mask dst l) y x = background h w dst y x).
Proof.
  intros Hrect Hl Hy Hx. induction l as [|j l IH] using rev_ind.
  - split; [intros a i Ha; discriminate|intros Hne; contradiction].
  - apply Forall_app in Hl as [Hl Hj]. apply Forall_inv in Hj as [Hrj Hmj].
    specialize (IH Hl). destruct IH as [IHlast IHnone].
    destruct (added_sized dst l Hrect Hl) as [Hrect' Hsized'].
    unfold added in *. rewrite foldl_app. simpl.
    rewrite (copyToInto_at (region j) (mask j) _ y x Hrj Hmj Hrect' Hy Hx). split.
    + intros a i Ha Hnz Hlater. destruct (decide (a = length l)) as [->|Hne].
      * rewrite lookup_app_r, Nat.sub_diag in Ha by lia. injection Ha as <-.
        rewrite decide_False by assumption. reflexivity.
      * assert (a < length l)%nat as Hlt.
        { apply lookup_lt_Some in Ha. rewrite length_app in Ha. simpl in Ha. lia. }
        rewrite lookup_app_l in Ha by assumption.
        rewrite decide_True.
        2:{ apply (Hlater (length l) j Hlt). rewrite lookup_app_r, Nat.sub_diag by lia. reflexivity. }
        assert (l <> []) as Hlne by (intros ->; simpl in Hlt; lia).
        unfold background.
        destruct (sized_rows_cols h w _ h_pos (Hsized' Hlne)) as [Hr Hc].
        rewrite bool_decide_eq_true_2 by (split; assumption).
        apply (IHlast a i Ha Hnz). intros b k Hab Hb. apply (Hlater b k Hab).
        rewrite lookup_app_l by (apply lookup_lt_Some in Hb; exact Hb). exact Hb.
    + intros _ Hall. apply Forall_app in Hall as [Hall Hjz]. apply Forall_inv in Hjz.
      rewrite decide_True by assumption. destruct l as [|i l'] eqn:El; [reflexivity|].
      rewrite <- El in *. assert (l <> []) as Hlne by (rewrite El; discriminate).
      unfold background at 1.
      destruct (sized_rows_cols h w _ h_pos (Hsized' Hlne)) as [Hr Hc].
      rewrite bool_decide_eq_true_2 by (split; assumption).
      apply IHnone; assumption.
Qed.

End Composition.

Lemma foldl_ext_elem {A B : Type} (f g : A -> B -> A) (l : list B) :
  (forall a b, b ∈ l -> f a b = g a b) -> forall a, foldl f a l = foldl g a l.
Proof.
  induction l as [|b l IH]; intros Hfg a; simpl; [reflexivity|].
  rewrite Hfg by left. apply IH. intros a' b' Hb'. apply Hfg. right. exact Hb'.
Qed.

Section OutputFacts.
Context `{External}.
Variable self : Members.

(** The image that [deconvolve] returns is the sum of the regions of the
    store. *)
Lemma deconvolve_added (dst : Mat Q) (v : view) (color : bool) (st : State) :
  fst (deconvolve self dst v color st) =
  added (regionResult self v color (regionTree st)) (fun i => getMask i v) dst
        (upto (layers self)).
Proof.
  change (fst (deconvolve self dst v color st))
    with (addRegions dst v (snd (deconvolve self dst v color st))).
  unfold addRegions, added. rewrite deconvolve_store.
  assert (upto (Z.of_nat (length (map (regionResult self v color (regionTree st))
                                      (upto (layers self))))) = upto (layers self)) as ->.
  { unfold upto. rewrite !length_map, length_seq, Nat2Z.id. reflexivity. }
  apply foldl_ext_elem. intros d i Hi. f_equal.
  apply elem_of_upto_range in Hi. unfold vec_get.
  rewrite bool_decide_eq_true_2 by lia.
  change (map (regionResult self v color (regionTree st)) (upto (layers self)))
    with (regionResult self v color (regionTree st) <$> upto (layers self)).
  rewrite list_lookup_fmap, upto_lookup, decide_True by lia. simpl.
  rewrite Z2Nat.id by lia. reflexivity.
Qed.


End OutputFacts.


(** ** [deconvolveTopLevel] *)

Section TopLevelReconstruction.
Context `{External}.
Variable self : Members.

Lemma deconvolveRegionLoop_frame (v : view) (color : bool) (stack : list Z) :
  forall st : State,
  topLevelNodeIds (deconvolveRegionLoop self v color stack st) = topLevelNodeIds st /\
  regionStack (deconvolveRegionLoop self v color stack st) =
    match stack with [] => regionStack st | _ => [] end.
Proof.
  induction stack as [|i stack IH]; intros st; [split; reflexivity|].
  cbn [deconvolveRegionLoop].
  destruct (IH (deconvolveRegionBody self v color i (with_regionStack stack st))) as [-> ->].
  split; [reflexivity|]. destruct stack; reflexivity.
Qed.

(** X19. [deconvolveTopLevel], started on an empty stack with top-level
    nodes whose indices lie below the size of the tree: the store gets one
    slot per node of the tree; the iterative solver is called once for every
    top-level node, the first of the list last, with the PSF and the mask of
    the node; the slot of a top-level node holds its deconvolved region,
    every other slot what the resized store held; and the image returned is
    the sum of the regions of the top-level nodes. *)
Theorem toplevel_reconstruction (dst : Mat Q) (v : view) (color : bool) (st : State) :
  let n := Z.of_nat (size (regionTree st)) in
  let st' := snd (deconvolveTopLevel self dst v color st) in
  regionStack st = [] ->
  Forall (fun id => 0 <= id < n)%Z (topLevelNodeIds st) ->
  regionStack st' = [] /\
  history st' =
    map (regionCall self v color (regionTree st)) (topLevelNodeIds st) ++ history st /\
  length (regionDeconv st') = size (regionTree st) /\
  (forall id, id ∈ topLevelNodeIds st ->
     vec_get (regionDeconv st') id = regionResult self v color (regionTree st) id) /\
  (forall k : nat, Z.of_nat k ∉ topLevelNodeIds st ->
     regionDeconv st' !! k = vec_resize (regionDeconv st) n !! k) /\
  fst (deconvolveTopLevel self dst v color st) =
    added (regionResult self v color (regionTree st)) (fun id => getMask id v) dst
          (topLevelNodeIds st).
Proof.
  intros n st' Hstack Hrange.
  assert (st' = deconvolveRegionLoop self v color (rev (topLevelNodeIds st))
                  (with_regionStack (rev (topLevelNodeIds st))
                     (with_regionDeconv (vec_resize (regionDeconv st) n) st))) as Hst'.
  { subst st'. unfold deconvolveTopLevel. cbn [snd]. rewrite push_regions.
    unfold deconvolveRegion. cbn [regionStack with_regionStack with_regionDeconv].
    rewrite Hstack, app_nil_r. reflexivity. }
  destruct (deconvolveRegionLoop_spec self v color (rev (topLevelNodeIds st))
              (with_regionStack (rev (topLevelNodeIds st))
                 (with_regionDeconv (vec_resize (regionDeconv st) n) st)))
    as (Ht & Hh & Hl & Hk).
  rewrite <- Hst' in Ht, Hh, Hl, Hk.
  cbn [regionTree regionDeconv history with_regionStack with_regionDeconv] in Ht, Hh, Hl, Hk.
  rewrite length_vec_resize in Hl, Hk. unfold n in Hl, Hk. rewrite Nat2Z.id in Hl, Hk.
  assert (forall id, id ∈ topLevelNodeIds st ->
            vec_get (regionDeconv st') id = regionResult self v color (regionTree st) id)
    as Hslots.
  { intros id Hid. rewrite Forall_forall in Hrange. pose proof (Hrange id Hid) as Hr.
    unfold n in Hr. unfold vec_get. rewrite bool_decide_eq_true_2 by lia.
    rewrite Hk, decide_True; [simpl; f_equal; lia|].
    split; [|lia]. rewrite Z2Nat.id by lia. apply elem_of_rev. exact Hid. }
  split; [|split; [|split; [|split; [|split]]]].
  - rewrite Hst', (proj2 (deconvolveRegionLoop_frame _ _ _ _)).
    destruct (rev (topLevelNodeIds st)); reflexivity.
  - rewrite Hh. f_equal. rewrite <- map_rev, rev_involutive. reflexivity.
  - exact Hl.
  - exact Hslots.
  - intros k Hk'. rewrite Hk, decide_False; [reflexivity|].
    intros [Hin _]. apply Hk'. apply elem_of_rev. exact Hin.
  - change (fst (deconvolveTopLevel self dst v color st))
      with (foldl (fun dst id => copyToInto (vec_get (regionDeconv st') id) (getMask id v) dst)
                  dst (topLevelNodeIds st')).
    rewrite Hst', (proj1 (deconvolveRegionLoop_frame _ _ _ _)).
    cbn [topLevelNodeIds with_regionStack with_regionDeconv]. rewrite <- Hst'.
    unfold added. apply foldl_ext_elem. intros d id Hid. rewrite (Hslots id Hid). reflexivity.
Qed.

End TopLevelReconstruction.

(** On the seven nodes, whose only top-level node is the node 6. *)
Lemma toplevel_reconstruction_witness :
  vec_get (regionDeconv (snd (deconvolveTopLevel (H := Fixture.pointwise)
                                (Fixture.members IRLS) [] LEFT false Fixture.estimated))) 6 =
  regionResult (H := Fixture.pointwise) (Fixture.members IRLS) LEFT false
    Fixture.estimatedTree 6.
Proof.
  destruct (toplevel_reconstruction (H := Fixture.pointwise) (Fixture.members IRLS) []
              LEFT false Fixture.estimated) as (_ & _ & _ & Hslots & _).
  - reflexivity.
  - repeat constructor; vm_compute; discriminate.
  - apply Hslots. left.
Defined.

(** ** [disparityEstimation] *)

Section DisparityFacts.
Context `{External} {disp : Disparity}.
Variable self : Members.

(** X20. [disparityEstimation] returns disparity maps exactly for the
    algorithms SGBM and MATCH.  SGBM does not use the maximal disparity;
    MATCH uses its half, rounded towards zero, as the images are down
    sampled by 2, and works on the views as they are given (only SGBM
    converts colour images to gray values). *)
Theorem disparity_algorithms (input : Mat Q * Mat Q) (algorithm : disparityAlgo)
    (maxDisparity maxDisparity' : Z) :
  ((exists maps, disparityEstimation self input algorithm maxDisparity = Ok maps) <->
   algorithm = SGBM \/ algorithm = MATCH) /\
  disparityEstimation self input SGBM maxDisparity =
    disparityEstimation self input SGBM maxDisparity' /\
  (Z.quot maxDisparity 2 = Z.quot maxDisparity' 2 ->
   disparityEstimation self input MATCH maxDisparity =
     disparityEstimation self input MATCH maxDisparity') /\
  (let size := (Z.quot (Z.of_nat (Mat.cols (sel input LEFT))) 2,
                Z.quot (Z.of_nat (Mat.rows (sel input RIGHT))) 2) in
   let small := (pyrDown (sel input LEFT) size, pyrDown (sel input RIGHT) size) in
   let maps := quantizeImage (disparityFilledMatch small (Z.quot maxDisparity 2))
                             (layers self) in
   disparityEstimation self input MATCH maxDisparity =
     Ok (resizeNearest (sel maps LEFT)
           (Z.of_nat (Mat.cols (sel input LEFT)), Z.of_nat (Mat.rows (sel input LEFT))),
         resizeNearest (sel maps RIGHT)
           (Z.of_nat (Mat.cols (sel input RIGHT)), Z.of_nat (Mat.rows (sel input RIGHT))))).
Proof.
  split; [|split; [|split]].
  - split.
    + intros [maps Hmaps]. destruct algorithm as [| |code]; [tauto|tauto|].
      discriminate.
    + intros [-> | ->]; eexists; reflexivity.
  - reflexivity.
  - intros Hhalf. unfold disparityEstimation. rewrite Hhalf. reflexivity.
  - reflexivity.
Qed.

End DisparityFacts.

(** ** What a node leaves in the tree *)

Lemma entropy_store_entropy_eq (id : Z) (e : Q) (st : State) :
  entropy (regionTree (store_entropy id e st) !!! id) = e.
Proof. unfold store_entropy. simpl. rewrite lookup_total_insert_eq. reflexivity. Qed.

Lemma node_store_entropy_ne (id id' : Z) (e : Q) (st : State) :
  id <> id' -> regionTree (store_entropy id e st) !!! id' = regionTree st !!! id'.
Proof. intros Hne. unfold store_entropy. simpl. rewrite lookup_total_insert_ne; done. Qed.

Section NodeFacts.
Context `{External}.
Variable self : Members.

(** X21. When [midLevelKernelEstimationNode] has worked on a node with two
    children, the entropy stored for each child is the entropy of the PSF
    stored for it, no other node of the tree has changed, and the children
    wait at the back of the queue, the first child first.  A node that lacks
    a child only counts as a leaf: nothing is stored or queued, not even for
    a child that it has. *)
Theorem estimation_node_entropies (id : Z) (st st' : State) :
  let cid1 := fst (children (regionTree st !!! id)) in
  let cid2 := snd (children (regionTree st !!! id)) in
  estimationNode self id st = Some st' ->
  (cid1 <> (-1)%Z /\ cid2 <> (-1)%Z ->
   entropy (regionTree st' !!! cid1) = computeEntropy (psf (regionTree st' !!! cid1)) /\
   entropy (regionTree st' !!! cid2) = computeEntropy (psf (regionTree st' !!! cid2)) /\
   (forall nid, nid <> cid1 -> nid <> cid2 -> regionTree st' !!! nid = regionTree st !!! nid) /\
   remainingNodes st' = remainingNodes st ++ [cid1; cid2] /\
   visitedLeafs st' = visitedLeafs st) /\
  (cid1 = (-1)%Z \/ cid2 = (-1)%Z -> st' = countLeaf st).
Proof.
  intros cid1 cid2 Hnode. unfold estimationNode in Hnode. fold cid1 cid2 in Hnode. split.
  - intros [Hc1 Hc2]. rewrite !bool_decide_eq_true_2 in Hnode by assumption. simpl in Hnode.
    rewrite initialChildPSF_expected in Hnode.
    destruct (expectedPSF self _ _) as [k1|]; simpl in Hnode; [|discriminate].
    rewrite initialChildPSF_expected in Hnode.
    destruct (expectedPSF self _ _) as [k2|]; simpl in Hnode; [|discriminate].
    injection Hnode as <-. rewrite regionTree_pushChildren.
    match goal with |- context [childEntropy cid2 (childEntropy cid1 ?s)] => set (s2 := s) end.
    split; [|split; [|split; [|split]]].
    + unfold childEntropy at 1 3. rewrite psf_store_entropy.
      destruct (decide (cid1 = cid2)) as [Heq|Hne].
      * rewrite <- Heq. rewrite entropy_store_entropy_eq.
        unfold childEntropy. rewrite psf_store_entropy. reflexivity.
      * rewrite node_store_entropy_ne by congruence.
        unfold childEntropy. rewrite entropy_store_entropy_eq, psf_store_entropy. reflexivity.
    + unfold childEntropy at 1 3. rewrite entropy_store_entropy_eq, psf_store_entropy.
      reflexivity.
    + intros nid Hn1 Hn2. unfold childEntropy.
      rewrite !node_store_entropy_ne by congruence. unfold s2.
      rewrite node_store_psf_ne by congruence. rewrite regionTree_logs.
      rewrite node_store_psf_ne by congruence. rewrite regionTree_logs. reflexivity.
    + reflexivity.
    + reflexivity.
  - intros Hleaf.
    assert (bool_decide (cid1 <> (-1)%Z) && bool_decide (cid2 <> (-1)%Z) = false) as Hb.
    { destruct Hleaf as [Heq|Heq]; rewrite Heq.
      - reflexivity.
      - apply andb_false_r. }
    rewrite Hb in Hnode. congruence.
Qed.


End NodeFacts.

(** On the seven nodes, at the top-level node 6 of the initial tree. *)
Lemma estimation_node_entropies_witness :
  exists st',
    estimationNode (H := Fixture.pointwise) (Fixture.members FFT) 6 Fixture.state = Some st' /\
    entropy (regionTree st' !!! 4%Z) =
      computeEntropy (H := Fixture.pointwise) (psf (regionTree st' !!! 4%Z)).
Proof.
  destruct (estimationNode (H := Fixture.pointwise) (Fixture.members FFT) 6 Fixture.state)
    as [st'|] eqn:Hnode; [|vm_compute in Hnode; discriminate].
  exists st'. split; [reflexivity|].
  destruct (estimation_node_entropies (H := Fixture.pointwise) (Fixture.members FFT) 6
              Fixture.state st' Hnode) as [Hinner _].
  apply Hinner. split; discriminate.
Defined.


(** ** [jointPSFEstimation]: the division in a bin *)

Lemma square_nonneg (a : Q) : 0 <= a * a.
Proof.
  destruct (Qlt_le_dec a 0) as [Hneg|Hpos].
  - assert (a * a == (- a) * (- a)) as -> by ring.
    apply Qmult_le_0_compat; lra.
  - apply Qmult_le_0_compat; assumption.
Qed.

Lemma square_pos (a : Q) : ~ a == 0 -> 0 < a * a.
Proof.
  intros Hne. destruct (Qlt_le_dec a 0) as [Hneg|Hpos].
  - assert (a * a == (- a) * (- a)) as -> by ring.
    apply Qmult_lt_0_compat; lra.
  - assert (0 < a) as Ha.
    { destruct (Qle_lt_or_eq _ _ Hpos) as [Hlt|Heq]; [exact Hlt|].
      exfalso. apply Hne. symmetry. exact Heq. }
    apply Qmult_lt_0_compat; assumption.
Qed.

(** X23. The regularisation keeps the division of every bin defined: the
    divisor of [kernelBin] is the real number
    [|xsr|^2 + |ysr|^2 + |xsm|^2 + |ysm|^2 + |d|^2], which is positive and at
    least [|d|^2] where the transform [d] of the delta image is not zero;
    the bin is the dividend divided by that number, and it is 0 where the
    salient edges of both views have no energy. *)
Theorem kernelBin_regularized (xsr ysr xsm ysm xbr ybr xbm ybm d : complex) :
  let norm2 c := re c * re c + im c * im c in
  let dividend :=
    Cplx.add (Cplx.add (Cplx.mul (Cplx.conj xsr) xbr) (Cplx.mul (Cplx.conj xsm) xbm))
             (Cplx.add (Cplx.mul (Cplx.conj ysr) ybr) (Cplx.mul (Cplx.conj ysm) ybm)) in
  let divisor := norm2 xsr + norm2 ysr + norm2 xsm + norm2 ysm + norm2 d in
  ~ (re d == 0 /\ im d == 0) ->
  norm2 d <= divisor /\ 0 < divisor /\
  Cplx.eq (kernelBin xsr ysr xsm ysm xbr ybr xbm ybm d)
          (mkC (re dividend / divisor) (im dividend / divisor)) /\
  (Cplx.eq xsr Cplx.zero -> Cplx.eq ysr Cplx.zero ->
   Cplx.eq xsm Cplx.zero -> Cplx.eq ysm Cplx.zero ->
   Cplx.eq (kernelBin xsr ysr xsm ysm xbr ybr xbm ybm d) Cplx.zero).
Proof.
  intros norm2 dividend divisor Hd.
  assert (forall c, 0 <= norm2 c) as Hnorm.
  { intros c. unfold norm2. pose proof (square_nonneg (re c)).
    pose proof (square_nonneg (im c)). lra. }
  assert (0 < norm2 d) as Hdpos.
  { unfold norm2. pose proof (square_nonneg (re d)). pose proof (square_nonneg (im d)).
    destruct (Qeq_dec (re d) 0) as [Hre|Hre].
    - assert (~ im d == 0) as Him by tauto. pose proof (square_pos _ Him). lra.
    - pose proof (square_pos _ Hre). lra. }
  pose proof (Hnorm xsr). pose proof (Hnorm ysr). pose proof (Hnorm xsm). pose proof (Hnorm ysm).
  assert (0 < divisor) as Hpos by (unfold divisor; lra).
  split; [unfold divisor; lra|]. split; [exact Hpos|].
  assert (Cplx.eq (kernelBin xsr ysr xsm ysm xbr ybr xbm ybm d)
                  (mkC (re dividend / divisor) (im dividend / divisor))) as Hbin.
  { unfold kernelBin. fold dividend.
    set (B := Cplx.add _ (Cplx.mul (Cplx.mul (mkC 1 0) (Cplx.conj d)) d)).
    assert (re B == divisor) as Hre by (unfold B, divisor, norm2; simpl; ring).
    assert (im B == 0) as Him by (unfold B; simpl; ring).
    assert (~ divisor == 0) as Hne by (intros Hz; rewrite Hz in Hpos; exact (Qlt_irrefl _ Hpos)).
    unfold Cplx.eq, Cplx.div. cbn [re im]. rewrite Hre, Him. split; field; exact Hne. }
  split; [exact Hbin|].
  intros [Hxr Hxi] [Hyr Hyi] [Hmr Hmi] [Hnr Hni]. simpl in *.
  etransitivity; [exact Hbin|].
  assert (~ divisor == 0) as Hne by (intros Hz; rewrite Hz in Hpos; exact (Qlt_irrefl _ Hpos)).
  unfold Cplx.eq, dividend. cbn [re im Cplx.add Cplx.mul Cplx.conj Cplx.zero].
  rewrite Hxr, Hxi, Hyr, Hyi, Hmr, Hmi, Hnr, Hni. split; field; exact Hne.
Qed.

(** For a bin with the transform 1 of the delta image. *)
Lemma kernelBin_regularized_witness :
  Cplx.eq (kernelBin (mkC 1 2) (mkC 0 1) (mkC 1 0) (mkC 2 (-1))
                     (mkC 1 1) (mkC 0 2) (mkC 3 0) (mkC 1 (-1)) (mkC 1 0))
          (mkC (11 # 13) (-2 # 13)).
Proof.
  destruct (kernelBin_regularized (mkC 1 2) (mkC 0 1) (mkC 1 0) (mkC 2 (-1))
              (mkC 1 1) (mkC 0 2) (mkC 3 0) (mkC 1 (-1)) (mkC 1 0)) as (_ & _ & Hbin & _).
  - intros [Hre _]. discriminate.
  - etransitivity; [exact Hbin|]. vm_compute. split; reflexivity.
Defined.

(** ** One iteration of a worker *)

Lemma schedule_alone {pc : Type} (step : pc -> State -> option (pc * State))
    (p p' : pc) (st st' : State) :
  step p st = Some (p', st') ->
  schedule step {| shared := st; threads := [p] |} 0 = {| shared := st'; threads := [p'] |}.
Proof. intros Hstep. unfold schedule. simpl. rewrite Hstep. reflexivity. Qed.

Lemma run_alone {pc : Type} (step : pc -> State -> option (pc * State))
    (p p' : pc) (st st' : State) (k : nat) (sys : System pc) :
  step p st = Some (p', st') ->
  run step (replicate k 0%nat) {| shared := st'; threads := [p'] |} = sys ->
  run step (replicate (S k) 0%nat) {| shared := st; threads := [p] |} = sys.
Proof. intros Hstep Hrun. simpl. rewrite (schedule_alone step p p' st st' Hstep). exact Hrun. Qed.

Section IterationFacts.
Context `{External}.
Variable self : Members.


End IterationFacts.


(** ** [jointPSFEstimation]: the gradients of the region *)

(** A copy through a mask keeps nothing of the samples outside the mask. *)
Lemma copyToMasked_inside (h w : nat) (mask : Mat N) (g g' : Mat Q) :
  sameInside h w mask g g' -> Mat.copyToMasked g mask = Mat.copyToMasked g' mask.
Proof.
  intros ([Hlm Hrm] & [Hlg Hrg] & [Hlg' Hrg'] & Hsame). unfold Mat.copyToMasked.
  rewrite Forall_lookup in Hrm. rewrite Forall_lookup in Hrg. rewrite Forall_lookup in Hrg'.
  apply list_eq. intros y. rewrite !lookup_zip_with.
  destruct (decide (y < h)%nat) as [Hy|Hy].
  - destruct (lookup_lt_is_Some_2 g y ltac:(lia)) as [r Hr].
    destruct (lookup_lt_is_Some_2 g' y ltac:(lia)) as [r' Hr'].
    destruct (lookup_lt_is_Some_2 mask y ltac:(lia)) as [mrow Hmrow].
    pose proof (Hrg y r Hr) as Hwr. pose proof (Hrg' y r' Hr') as Hwr'.
    pose proof (Hrm y mrow Hmrow) as Hwm. simpl in Hwr, Hwr', Hwm.
    rewrite Hr, Hr', Hmrow. simpl. f_equal.
    apply list_eq. intros x. rewrite !lookup_zip_with.
    destruct (decide (x < w)%nat) as [Hx|Hx].
    + destruct (lookup_lt_is_Some_2 mrow x ltac:(lia)) as [k Hk].
      destruct (lookup_lt_is_Some_2 r x ltac:(lia)) as [s Hs].
      destruct (lookup_lt_is_Some_2 r' x ltac:(lia)) as [s' Hs'].
      rewrite Hs, Hs', Hk. simpl. destruct (decide (k = 0%N)) as [Hz|Hnz]; [reflexivity|].
      assert (Mat.at_ 0%N mask y x <> 0%N) as Hm.
      { unfold Mat.at_. rewrite Hmrow. simpl. rewrite Hk. exact Hnz. }
      specialize (Hsame y x Hy Hx Hm). unfold Mat.at_ in Hsame.
      rewrite Hr, Hr' in Hsame. simpl in Hsame. rewrite Hs, Hs' in Hsame. simpl in Hsame.
      congruence.
    + rewrite (lookup_ge_None_2 r x), (lookup_ge_None_2 r' x) by lia. reflexivity.
  - rewrite (lookup_ge_None_2 g y), (lookup_ge_None_2 g' y) by lia. reflexivity.
Qed.

Section RegionGradients.
Context `{External}.
Variable self : Members.

(** X25. [jointPSFEstimation] takes the gradients of the current region
    only: with other gradients of the blurred views that agree with the
    gradients of [self] wherever the mask of the view is not zero, the
    spectrum and the PSF are the same. *)
Theorem jointPSF_reads_region_only (h w : nat) (masks : Mat N * Mat N)
    (salientEdgesLeft salientEdgesRight gradsLeft' gradsRight' : Mat Q * Mat Q) :
  sameInside h w (sel masks LEFT) (fst (gradsLeft self)) (fst gradsLeft') ->
  sameInside h w (sel masks LEFT) (snd (gradsLeft self)) (snd gradsLeft') ->
  sameInside h w (sel masks RIGHT) (fst (gradsRight self)) (fst gradsRight') ->
  sameInside h w (sel masks RIGHT) (snd (gradsRight self)) (snd gradsRight') ->
  jointPSFSpectrum (withGrads gradsLeft' gradsRight' self) masks
    salientEdgesLeft salientEdgesRight =
  jointPSFSpectrum self masks salientEdgesLeft salientEdgesRight /\
  jointPSFEstimation (withGrads gradsLeft' gradsRight' self) masks
    salientEdgesLeft salientEdgesRight =
  jointPSFEstimation self masks salientEdgesLeft salientEdgesRight.
Proof.
  intros Hlx Hly Hrx Hry.
  assert (jointPSFSpectrum (withGrads gradsLeft' gradsRight' self) masks
            salientEdgesLeft salientEdgesRight =
          jointPSFSpectrum self masks salientEdgesLeft salientEdgesRight) as Hspec.
  { unfold jointPSFSpectrum, regionGrads. cbn [gradsLeft gradsRight withGrads fst snd].
    rewrite <- (copyToMasked_inside h w _ _ _ Hlx), <- (copyToMasked_inside h w _ _ _ Hly),
            <- (copyToMasked_inside h w _ _ _ Hrx), <- (copyToMasked_inside h w _ _ _ Hry).
    reflexivity. }
  split; [exact Hspec|]. unfold jointPSFEstimation. rewrite Hspec. reflexivity.
Qed.

End RegionGradients.

(** On the 4 x 4 instance, for the node 4, whose mask is the two columns on
    the left: gradients that differ in the last column give the same
    spectrum. *)
Lemma jointPSF_reads_region_only_witness :
  jointPSFSpectrum (H := Fixture.pointwise)
    (withGrads (edgesOutside, edgesOutside) (edgesOutside, edgesOutside) (Fixture.members FFT))
    (Fixture.mask 4, Fixture.mask 4) (Fixture.edges, Fixture.edges) (Fixture.edges, Fixture.edges) =
  jointPSFSpectrum (H := Fixture.pointwise) (Fixture.members FFT)
    (Fixture.mask 4, Fixture.mask 4) (Fixture.edges, Fixture.edges) (Fixture.edges, Fixture.edges).
Proof.
  assert (sameInside 4 4 (Fixture.mask 4) Fixture.edges edgesOutside) as Hsame.
  { split; [split; [reflexivity|vm_compute; repeat constructor]|].
    split; [split; [reflexivity|vm_compute; repeat constructor]|].
    split; [split; [reflexivity|vm_compute; repeat constructor]|].
    intros y x Hy Hx.
    destruct y as [|[|[|[|y]]]]; try lia;
      (destruct x as [|[|[|[|x]]]]; try lia; vm_compute; intros Hm;
       solve [reflexivity | exfalso; apply Hm; reflexivity]). }
  apply (jointPSF_reads_region_only (H := Fixture.pointwise) (Fixture.members FFT) 4 4
           (Fixture.mask 4, Fixture.mask 4) (Fixture.edges, Fixture.edges)
           (Fixture.edges, Fixture.edges) (edgesOutside, edgesOutside)
           (edgesOutside, edgesOutside)); exact Hsame.
Defined.

(** ** The store of latent images during the second pass *)

Section StoreFacts.
Context `{External}.
Variable self : Members.

(** After its first step, a worker of the second pass leaves the length of
    the store alone. *)
Lemma stepRefinement_length (p p' : pcRefinement) (st st' : State) :
  p <> R_resize -> stepRefinement self p st = Some (p', st') ->
  length (regionDeconv st') = length (regionDeconv st).
Proof.
  intros Hp Hstep.
  destruct p as [| | |id c1 c2|id c1 c2 cs1|id c1 c2 cs1 cs2|id c1 c2 cs2 w0
                 |id c1 c2 w0 w1|id c1 c2 w1|id c1 c2|]; simpl in Hstep;
    try contradiction; try discriminate.
  - case_bool_decide; injection Hstep as <- <-; reflexivity.
  - unfold safeQueueAccess in Hstep.
    destruct (remainingNodes st); injection Hstep as <- <-; reflexivity.
  - destruct (_ && _); injection Hstep as <- <-; reflexivity.
  - injection Hstep as <- <-. reflexivity.
  - unfold psfSelection in Hstep.
    pose proof (psfSelection_loop_frame self c1 cs1 0 2 0%nat st) as Hf. cbv zeta in Hf.
    destruct (psfSelection_loop self c1 cs1 0 2 0%nat st) as [w st1]. cbn [snd] in Hf.
    injection Hstep as <- <-. tauto.
  - unfold psfSelection in Hstep.
    pose proof (psfSelection_loop_frame self c2 cs2 0 2 0%nat st) as Hf. cbv zeta in Hf.
    destruct (psfSelection_loop self c2 cs2 0 2 0%nat st) as [w st1]. cbn [snd] in Hf.
    injection Hstep as <- <-. tauto.
  - injection Hstep as <- <-. reflexivity.
  - injection Hstep as <- <-. reflexivity.
  - injection Hstep as <- <-. reflexivity.
Qed.

(** X26. Every worker of the second pass resizes the store of latent images
    before it reads the queue.  With the iterative solver, under every
    schedule and for any number of threads: from the moment one worker has
    done so, the store has [layers] slots, whatever it held before the pass
    and however many workers resize it again; so [psfSelection] caches a
    latent image into a slot that exists whenever the index of the leaf is
    below [layers]. *)
Theorem second_pass_store_size (nThreads : Z) (sched : list nat) (st : State) :
  let sys := run (stepRefinement self) sched (startRefinement nThreads st) in
  deconvAlgoPSFSelection self = IRLS ->
  Exists (fun p => p <> R_resize) (threads sys) ->
  length (regionDeconv (shared sys)) = Z.to_nat (layers self).
Proof.
  intros sys Halgo. subst sys.
  apply (run_invariant (stepRefinement self)
           (fun sys => Exists (fun p => p <> R_resize) (threads sys) ->
                       length (regionDeconv (shared sys)) = Z.to_nat (layers self))).
  - intros sys i Hinv. unfold schedule.
    destruct (threads sys !! i) as [p|] eqn:Hp; [|exact Hinv].
    destruct (stepRefinement self p (shared sys)) as [[p' st']|] eqn:Hstep; [|exact Hinv].
    intros _. cbn [shared].
    assert (p = R_resize \/ p <> R_resize) as [->|Hne]
      by (destruct p; solve [left; reflexivity | right; discriminate]).
    + simpl in Hstep. rewrite bool_decide_eq_true_2 in Hstep by assumption.
      injection Hstep as <- <-. apply length_vec_resize.
    + rewrite (stepRefinement_length p p' _ st' Hne Hstep). apply Hinv.
      apply Exists_exists. exists p. split; [|exact Hne].
      apply list_elem_of_lookup. exists i. exact Hp.
  - intros Hex. exfalso. apply Exists_exists in Hex as (p & Hp & Hne).
    unfold startRefinement, startPass in Hp. cbn [threads] in Hp.
    apply elem_of_replicate in Hp as [-> _]. contradiction.
Qed.

End StoreFacts.

(** On the seven nodes, from an empty store, after the first step of the
    calling thread. *)
Lemma second_pass_store_size_witness :
  length (regionDeconv (shared (run (stepRefinement (H := Fixture.pointwise)
                                       (Fixture.members IRLS)) [0%nat]
                                    (startRefinement 2 Fixture.estimated)))) = 4%nat.
Proof.
  apply (second_pass_store_size (H := Fixture.pointwise) (Fixture.members IRLS) 2 [0%nat]
           Fixture.estimated).
  - reflexivity.
  - apply Exists_cons_hd. discriminate.
Defined.
